(** * golang-fp-utility: a shallow embedding of the collection helpers

    The Go packages [collection], [maps], [grouping] and [reflection]
    (and the older all-in-one package [utility], whose function bodies
    are the same) are embedded as Rocq functions.  Slices are lists,
    Go maps are [gmap]s together with an explicit iteration order,
    [error] values are a small inductive type, a panic is an explicit
    result, and the in-place sort works on the backing array of the
    slice it is given. *)

From Stdlib Require Import Ascii.
From stdpp Require Import base option list strings pretty gmap sorting.

(** * Part I: the embedding *)

(** ** Go [error] values, as built by [errors.New], [fmt.Errorf] and
    [errors.Wrap] of github.com/pkg/errors *)

Module errors.

Inductive error :=
| New (message : string)
| Wrap (cause : error) (message : string).

(** [err.Error()]: a wrapped error prints its own message, a colon and
    the message of its cause. *)
Fixpoint Error (e : error) : string :=
  match e with
  | New message => message
  | Wrap cause message => message +:+ ": " +:+ Error cause
  end.

(** The error directly below a wrapper. *)
Definition Unwrap (e : error) : option error :=
  match e with
  | New _ => None
  | Wrap cause _ => Some cause
  end.

End errors.

Abbreviation error := errors.error.

(** ** Package collection *)

Section collection.
Context {T1 T2 : Type}.

(** [Map]: the loop appends [transform item] to [result]. *)
Definition Map (source : list T1) (transform : T1 → T2) : list T2 :=
  foldl (λ result item, result ++ [transform item]) [] source.

(** [Filter] *)
Definition Filter (source : list T1) (filterFunc : T1 → bool) : list T1 :=
  foldl (λ result item, if filterFunc item then result ++ [item] else result)
        [] source.

(** The caller's [mappingFunc] of [MapReturnWithError] is a closure: it
    may read and change the caller's variables.  That state is [St]; one
    call returns the pair [(res, err)] and the new state. *)
Context {St : Type}.

Definition index_message (idx : nat) : string :=
  "error mapping at index:'" +:+ pretty idx +:+ "', error".

(** The [for idx, item := range source] loop of [MapReturnWithError];
    [idx] is the index of the head of [source] and [result] the slice
    built so far.  A failing call returns [nil] and the wrapped error. *)
Fixpoint MapReturnWithError_loop
    (mappingFunc : T1 → St → (T2 * option error) * St)
    (idx : nat) (source : list T1) (result : list T2) (s : St)
    : (option (list T2) * option error) * St :=
  match source with
  | [] => ((Some result, None), s)
  | item :: rest =>
      let '((res, err), s') := mappingFunc item s in
      match err with
      | Some cause =>
          ((None, Some (errors.Wrap cause (index_message idx))), s')
      | None =>
          MapReturnWithError_loop mappingFunc (S idx) rest (result ++ [res]) s'
      end
  end.

Definition MapReturnWithError (source : list T1)
    (mappingFunc : T1 → St → (T2 * option error) * St) (s : St)
    : (option (list T2) * option error) * St :=
  MapReturnWithError_loop mappingFunc 0 source [] s.

(** All calls of [mappingFunc] on [source], started in state [s],
    succeed, produce [ys] and leave the state [s']. *)
Inductive all_succeed (mappingFunc : T1 → St → (T2 * option error) * St)
    : list T1 → St → list T2 → St → Prop :=
| all_succeed_nil s : all_succeed mappingFunc [] s [] s
| all_succeed_cons item rest s res s1 ys s2 :
    mappingFunc item s = ((res, None), s1) →
    all_succeed mappingFunc rest s1 ys s2 →
    all_succeed mappingFunc (item :: rest) s (res :: ys) s2.

End collection.

Section distinct.
Context `{Countable T}.

(** One iteration of the loop of [Distinct]: [seen[item]] reads [false]
    for a key that is not in the map. *)
Definition Distinct_step (st : gmap T bool * list T) (item : T)
    : gmap T bool * list T :=
  let '(seen, unique) := st in
  if negb (default false (seen !! item))
  then (<[item := true]> seen, unique ++ [item])
  else (seen, unique).

Definition Distinct (slice : list T) : list T :=
  (foldl Distinct_step (∅, []) slice).2.

(** One iteration of the loop of [DistinctFunc]; the source's loop
    never calls [compareFunc]. *)
Definition DistinctFunc_step (compareFunc : T → T → bool)
    (st : gmap T bool * list T) (item : T) : gmap T bool * list T :=
  let '(seen, unique) := st in
  if negb (default false (seen !! item))
  then (<[item := true]> seen, unique ++ [item])
  else (seen, unique).

Definition DistinctFunc (slice : list T) (compareFunc : T → T → bool)
    : list T :=
  (foldl (DistinctFunc_step compareFunc) (∅, []) slice).2.

End distinct.

(** The deduplication the specification asks of the comparator variant,
    written from its words: keep the first occurrence and drop each
    later element that [eq] judges equal to an element already kept. *)
Fixpoint pairwise_distinct_loop {T} (eq : T → T → bool)
    (kept : list T) (seq : list T) : list T :=
  match seq with
  | [] => kept
  | x :: rest =>
      if existsb (λ k, eq k x) kept
      then pairwise_distinct_loop eq kept rest
      else pairwise_distinct_loop eq (kept ++ [x]) rest
  end.

Definition pairwise_distinct {T} (eq : T → T → bool) (seq : list T)
    : list T :=
  pairwise_distinct_loop eq [] seq.

(** ** Results of code that may panic

    [Panic] is a Go run-time panic.  [Exhausted] is returned by a
    function with a recursion bound when the bound is reached; the
    functions below are run with a bound that is never reached. *)

Inductive result (A : Type) :=
| Ok (x : A)
| Panic (reason : string)
| Exhausted.
Arguments Ok {A} x.
Arguments Panic {A} reason.
Arguments Exhausted {A}.

#[global] Instance result_ret : MRet result := λ A x, Ok x.
#[global] Instance result_bind : MBind result := λ A B f m,
  match m with
  | Ok x => f x
  | Panic reason => Panic reason
  | Exhausted => Exhausted
  end.

(** A loop with an accumulator whose body may panic. *)
Fixpoint foldlM {A B} (f : A → B → result A) (acc : A) (l : list B)
    : result A :=
  match l with
  | [] => Ok acc
  | x :: l' => acc' ← f acc x; foldlM f acc' l'
  end.

(** ** Package strings *)

Module strings.

(** [strings.Split(s, sep)] for a separator of one byte: the pieces of
    [s] between the separators, at least one piece. *)
Fixpoint Split (s : string) (sep : Ascii.ascii) : list string :=
  match s with
  | EmptyString => [EmptyString]
  | String c s' =>
      if Ascii.eqb c sep then EmptyString :: Split s' sep
      else match Split s' sep with
           | piece :: pieces => String c piece :: pieces
           | [] => [String c EmptyString]
           end
  end.

End strings.

(** ** Package reflect

    A Go value is a finite tree.  A [Value] is what [reflect.ValueOf]
    and the accessors hand out: the value it holds, none for the zero
    [Value], and the read-only flag of a value reached through an
    unexported struct field. *)

Module token.

(** [token.IsExported], for identifiers that start with an ASCII
    character: the first character is an upper-case letter. *)
Definition IsExported (name : string) : bool :=
  match name with
  | EmptyString => false
  | String c _ =>
      (65 <=? Ascii.nat_of_ascii c)%nat && (Ascii.nat_of_ascii c <=? 90)%nat
  end.

End token.

Module reflect.

#[local] Unset Elimination Schemes.
Inductive GoValue :=
| VInt (n : Z)
| VString (s : string)
| VBool (b : bool)
| VStruct (fields : list (string * GoValue))
| VPtr (pointee : option GoValue)
| VSlice (elems : list GoValue)
| VInterface (dynamic : option GoValue).
#[local] Set Elimination Schemes.

Inductive Kind :=
| Invalid | Bool | Int | String | Struct | Ptr | Slice | Interface.

Record Value := mkValue { data : option GoValue; flagRO : bool }.

(** The zero [Value], [reflect.Value{}]. *)
Definition zero : Value := mkValue None false.

(** [reflect.ValueOf(i)] for an interface value [i]; [ValueOf(nil)] is
    the zero [Value]. *)
Definition ValueOf (i : option GoValue) : Value := mkValue i false.

Definition Kind_of (v : Value) : Kind :=
  match data v with
  | None => Invalid
  | Some (VInt _) => Int
  | Some (VString _) => String
  | Some (VBool _) => Bool
  | Some (VStruct _) => Struct
  | Some (VPtr _) => Ptr
  | Some (VSlice _) => Slice
  | Some (VInterface _) => Interface
  end.

Definition IsValid (v : Value) : bool :=
  match data v with Some _ => true | None => false end.

(** [v.Elem()]: the pointee of a pointer, the zero [Value] for a nil
    pointer; a panic on a kind other than [Ptr] and [Interface]. *)
Definition Elem (v : Value) : result Value :=
  match data v with
  | Some (VPtr (Some x)) => Ok (mkValue (Some x) (flagRO v))
  | Some (VPtr None) => Ok zero
  | Some (VInterface (Some x)) => Ok (mkValue (Some x) (flagRO v))
  | Some (VInterface None) => Ok zero
  | _ => Panic "reflect: call of reflect.Value.Elem on a non-pointer Value"
  end.

Definition Len (v : Value) : result nat :=
  match data v with
  | Some (VSlice elems) => Ok (length elems)
  | Some (VString s) => Ok (String.length s)
  | _ => Panic "reflect: call of reflect.Value.Len on a Value without length"
  end.

Definition Index (v : Value) (i : nat) : result Value :=
  match data v with
  | Some (VSlice elems) =>
      match elems !! i with
      | Some e => Ok (mkValue (Some e) (flagRO v))
      | None => Panic "reflect: slice index out of range"
      end
  | _ => Panic "reflect: call of reflect.Value.Index on a non-slice Value"
  end.

(** The first field of that name in the declaration order. *)
Fixpoint field_lookup (name : string) (fields : list (string * GoValue))
    : option GoValue :=
  match fields with
  | [] => None
  | (n, x) :: fields' =>
      if String.eqb n name then Some x else field_lookup name fields'
  end.

(** [v.FieldByName(name)]: a panic unless [v] is a struct; the zero
    [Value] when the struct has no such field. *)
Definition FieldByName (v : Value) (name : string) : result Value :=
  match data v with
  | Some (VStruct fields) =>
      match field_lookup name fields with
      | Some x =>
          Ok (mkValue (Some x) (flagRO v || negb (token.IsExported name)))
      | None => Ok zero
      end
  | _ => Panic "reflect: call of reflect.Value.FieldByName on a non-struct Value"
  end.

(** [v.Interface()]: the value as an [interface{}]; of a value of kind
    [Interface], the value inside it.  A panic on the zero [Value] and
    on a value obtained through an unexported field. *)
Definition Value_Interface (v : Value) : result (option GoValue) :=
  match data v with
  | None => Panic "reflect: call of reflect.Value.Interface on zero Value"
  | Some x =>
      if flagRO v
      then Panic "reflect.Value.Interface: cannot return value obtained from unexported field or method"
      else Ok (match x with VInterface dynamic => dynamic | _ => Some x end)
  end.

(** The nesting height of a value, the recursion measure of the
    reflective walk. *)
Fixpoint height (x : GoValue) : nat :=
  match x with
  | VStruct fields =>
      S (foldr (λ f h, match f with (_, y) => Nat.max (height y) h end)
               0 fields)
  | VPtr (Some y) => S (height y)
  | VSlice elems => S (foldr (λ y h, Nat.max (height y) h) 0 elems)
  | VInterface (Some y) => S (height y)
  | _ => 1
  end.

Definition Value_height (v : Value) : nat :=
  match data v with Some x => height x | None => 0 end.

End reflect.

(** ** Package reflection: [GetField] *)

Section GetField_body.

(** [rec] stands for the recursive calls of [GetField]. *)
Variable rec : reflect.Value → string → result reflect.Value.

(** The inner loop over the elements of a slice: the valid results of
    [GetField(element.Index(i), name)] are collected in order. *)
Definition GetField_subElements (element : reflect.Value) (name : string)
    : result (list reflect.Value) :=
  len ← reflect.Len element;
  foldlM (λ subElements i,
            elem ← reflect.Index element i;
            subElem ← rec elem name;
            Ok (if reflect.IsValid subElem
                then subElements ++ [subElem] else subElements))
         [] (seq 0 len).

(** [result[i] = v.Interface()] for each collected value, then
    [reflect.ValueOf(result)] of the [[]interface{}]. *)
Definition GetField_result (subElements : list reflect.Value)
    : result reflect.Value :=
  result ← foldlM (λ result v, i ← reflect.Value_Interface v; Ok (result ++ [i]))
                  [] subElements;
  Ok (reflect.ValueOf
        (Some (reflect.VSlice (reflect.VInterface <$> result)))).

(** The loop [for _, name := range names]. *)
Fixpoint GetField_names (element : reflect.Value) (names : list string)
    : result reflect.Value :=
  match names with
  | [] => Ok element
  | name :: names' =>
      element ← match reflect.Kind_of element with
                | reflect.Ptr => reflect.Elem element
                | _ => Ok element
                end;
      match reflect.Kind_of element with
      | reflect.Slice =>
          subElements ← GetField_subElements element name;
          GetField_result subElements
      | _ =>
          element ← reflect.FieldByName element name;
          GetField_names element names'
      end
  end.

Definition GetField_body (element : reflect.Value) (fieldName : string)
    : result reflect.Value :=
  GetField_names element (strings.Split fieldName "."%char).

End GetField_body.

(** [GetField] with at most [depth] nested recursive calls. *)
Fixpoint GetField_bounded (depth : nat)
    (element : reflect.Value) (fieldName : string) : result reflect.Value :=
  match depth with
  | 0 => Exhausted
  | S depth' => GetField_body (GetField_bounded depth') element fieldName
  end.

(** [GetField]: every recursive call is on an element of a slice met on
    the walk, so the height of the value bounds the nesting. *)
Definition GetField (element : reflect.Value) (fieldName : string)
    : result reflect.Value :=
  GetField_bounded (S (reflect.Value_height element)) element fieldName.

(** ** Package grouping

    [K] is the key type and [V] the element type of the slice.
    [reflect_V] is the value reflection sees in an element of the
    [[]V]; [assert_K] is the type assertion [.(K)] on an interface
    value, [None] when the assertion fails and panics.  The order in
    which [range] visits a Go map is not specified: [range_order]
    stands for the order of one run. *)

Section grouping.
Context `{Countable K} {V : Type}.
Variable reflect_V : V → reflect.GoValue.
Variable assert_K : option reflect.GoValue → option K.
Variable range_order : gmap K (list V) → list (K * list V).

Definition does_not_exist (fieldName : string) : error :=
  errors.New ("groupBy: field " +:+ fieldName +:+ " does not exist").

Definition is_not_unique (fieldName : string) : error :=
  errors.New ("groupBy: field " +:+ fieldName +:+ " is not unique").

(** The loop [for i := 0; i < sliceValue.Len(); i++] of [GroupBy] and
    of [GroupBy1By1], over the elements still to visit; [result] is
    the map built so far.  [sliceValue] is the [reflect.ValueOf] of a
    [[]V], so the test of its kind never fails and
    [element.Interface().(V)] is the element. *)
Fixpoint GroupBy_loop (fieldName : string) (slice : list V)
    (result_ : gmap K (list V))
    : result (option (gmap K (list V)) * option error) :=
  match slice with
  | [] => Ok (Some result_, None)
  | item :: rest =>
      let element := reflect.ValueOf (Some (reflect_V item)) in
      fieldValue ← GetField element fieldName;
      if negb (reflect.IsValid fieldValue)
      then Ok (None, Some (does_not_exist fieldName))
      else
        i ← reflect.Value_Interface fieldValue;
        match assert_K i with
        | None => Panic "interface conversion: interface {} is not K"
        | Some key =>
            GroupBy_loop fieldName rest
              (<[key := default [] (result_ !! key) ++ [item]]> result_)
        end
  end.

Definition GroupBy (slice : list V) (fieldName : string)
    : result (option (gmap K (list V)) * option error) :=
  GroupBy_loop fieldName slice ∅.

(** The loop [for key, value := range grouped] of [GroupBy1By1]. *)
Fixpoint GroupBy1By1_unique (fieldName : string)
    (entries : list (K * list V)) (uniqueResult : gmap K V)
    : result (option (gmap K V) * option error) :=
  match entries with
  | [] => Ok (Some uniqueResult, None)
  | (key, value) :: rest =>
      if (1 <? length value)%nat
      then Ok (None, Some (is_not_unique fieldName))
      else match value with
           | v0 :: _ =>
               GroupBy1By1_unique fieldName rest (<[key := v0]> uniqueResult)
           | [] => Panic "runtime error: index out of range [0] with length 0"
           end
  end.

Definition GroupBy1By1 (slice : list V) (fieldName : string)
    : result (option (gmap K V) * option error) :=
  r ← GroupBy_loop fieldName slice ∅;
  match r with
  | (Some grouped, _) =>
      GroupBy1By1_unique fieldName (range_order grouped) ∅
  | (None, err) => Ok (None, err)
  end.

End grouping.

(** ** Package sort of the Go standard library: [sort.Slice]

    [Sort] of package collection is [sort.Slice].  The routine is the
    pattern-defeating quicksort of Go 1.19 and later (file
    zsortfunc.go of package sort), transcribed function by function.
    It works through a [lessSwap]: the caller's [less] closure and
    the swapper of the slice, both acting on the memory [Σ] the slice
    lives in.  Loops that are not bounded by their form carry a bound
    on their iterations and return [Exhausted] when it is used up. *)

Module sort.

Section lessSwap.
Context {Σ : Type}.

Record lessSwap := mkLessSwap {
  Less : nat → nat → Σ → result bool;
  Swap : nat → nat → Σ → result Σ
}.

Variable data : lessSwap.

(** The inner loop of [insertionSortLessFunc]:
    [for j := i; j > a && data.Less(j, j-1); j--]. *)
Fixpoint insertionSort_inner (a j : nat) (σ : Σ) : result Σ :=
  match j with
  | 0 => Ok σ
  | S j' =>
      if (a <? j)%nat then
        lt ← Less data j j' σ;
        if lt : bool then σ ← Swap data j j' σ; insertionSort_inner a j' σ
        else Ok σ
      else Ok σ
  end.

(** [insertionSortLessFunc] sorts [data[a:b]] using insertion sort. *)
Definition insertionSortLessFunc (a b : nat) (σ : Σ) : result Σ :=
  foldlM (λ σ i, insertionSort_inner a i σ) σ (seq (a + 1) (b - (a + 1))).

(** [siftDownLessFunc] implements the heap property on [data[lo:hi]]. *)
Fixpoint siftDownLessFunc (fuel : nat) (root hi first : nat) (σ : Σ)
    : result Σ :=
  match fuel with
  | 0 => Exhausted
  | S fuel' =>
      let child := 2 * root + 1 in
      if (hi <=? child)%nat then Ok σ
      else
        child ← (if (child + 1 <? hi)%nat then
                   lt ← Less data (first + child) (first + child + 1) σ;
                   Ok (if lt : bool then child + 1 else child)
                 else Ok child);
        lt ← Less data (first + root) (first + child) σ;
        if negb lt then Ok σ
        else
          σ ← Swap data (first + root) (first + child) σ;
          siftDownLessFunc fuel' child hi first σ
  end.

Definition heapSortLessFunc (a b : nat) (σ : Σ) : result Σ :=
  let first := a in
  let lo := 0 in
  let hi := b - a in
  σ ← foldlM (λ σ i, siftDownLessFunc (S hi) i hi first σ) σ
             (reverse (seq 0 ((hi - 1) / 2 + 1)));
  foldlM (λ σ i,
            σ ← Swap data first (first + i) σ;
            siftDownLessFunc (S hi) lo i first σ)
         σ (reverse (seq 0 hi)).

Inductive sortedHint := unknownHint | increasingHint | decreasingHint.

(** [order2LessFunc] returns [x, y] where [data[x] <= data[y]], and
    the updated count of swaps. *)
Definition order2LessFunc (a b : nat) (swaps : nat) (σ : Σ)
    : result (nat * nat * nat) :=
  lt ← Less data b a σ;
  Ok (if lt : bool then (b, a, S swaps) else (a, b, swaps)).

(** [medianLessFunc] returns [x] where [data[x]] is the median of
    [data[a]], [data[b]], [data[c]]. *)
Definition medianLessFunc (a b c : nat) (swaps : nat) (σ : Σ)
    : result (nat * nat) :=
  '(a, b, swaps) ← order2LessFunc a b swaps σ;
  '(b, c, swaps) ← order2LessFunc b c swaps σ;
  '(a, b, swaps) ← order2LessFunc a b swaps σ;
  Ok (b, swaps).

Definition medianAdjacentLessFunc (a : nat) (swaps : nat) (σ : Σ)
    : result (nat * nat) :=
  medianLessFunc (a - 1) a (a + 1) swaps σ.

(** [choosePivotLessFunc] chooses a pivot in [data[a:b]]. *)
Definition choosePivotLessFunc (a b : nat) (σ : Σ)
    : result (nat * sortedHint) :=
  let shortestNinther := 50 in
  let maxSwaps := 4 * 3 in
  let l := b - a in
  let swaps := 0 in
  let i := a + l / 4 * 1 in
  let j := a + l / 4 * 2 in
  let k := a + l / 4 * 3 in
  '(j, swaps) ←
    (if (8 <=? l)%nat then
       '(i, j, k, swaps) ←
         (if (shortestNinther <=? l)%nat then
            '(i, swaps) ← medianAdjacentLessFunc i swaps σ;
            '(j, swaps) ← medianAdjacentLessFunc j swaps σ;
            '(k, swaps) ← medianAdjacentLessFunc k swaps σ;
            Ok (i, j, k, swaps)
          else Ok (i, j, k, swaps));
       medianLessFunc i j k swaps σ
     else Ok (j, swaps));
  Ok (if (swaps =? 0)%nat then (j, increasingHint)
      else if (swaps =? maxSwaps)%nat then (j, decreasingHint)
      else (j, unknownHint)).

(** The loop of [reverseRangeLessFunc]: [for i < j]. *)
Fixpoint reverseRange_loop (fuel : nat) (i j : nat) (σ : Σ) : result Σ :=
  match fuel with
  | 0 => Exhausted
  | S fuel' =>
      if (i <? j)%nat then
        σ ← Swap data i j σ; reverseRange_loop fuel' (i + 1) (j - 1) σ
      else Ok σ
  end.

Definition reverseRangeLessFunc (a b : nat) (σ : Σ) : result Σ :=
  reverseRange_loop (S (b - a)) a (b - 1) σ.

(** [for i <= j && data.Less(i, a) { i++ }] *)
Fixpoint scan_up (fuel : nat) (a i j : nat) (σ : Σ) : result nat :=
  match fuel with
  | 0 => Exhausted
  | S fuel' =>
      if (i <=? j)%nat then
        lt ← Less data i a σ;
        if lt : bool then scan_up fuel' a (i + 1) j σ else Ok i
      else Ok i
  end.

(** [for i <= j && !data.Less(j, a) { j-- }] *)
Fixpoint scan_down (fuel : nat) (a i j : nat) (σ : Σ) : result nat :=
  match fuel with
  | 0 => Exhausted
  | S fuel' =>
      if (i <=? j)%nat then
        lt ← Less data j a σ;
        if lt : bool then Ok j else scan_down fuel' a i (j - 1) σ
      else Ok j
  end.

(** The second loop of [partitionLessFunc]. *)
Fixpoint partition_loop (fuel : nat) (a b i j : nat) (σ : Σ)
    : result (nat * Σ) :=
  match fuel with
  | 0 => Exhausted
  | S fuel' =>
      i ← scan_up (S b) a i j σ;
      j ← scan_down (S b) a i j σ;
      if (j <? i)%nat then Ok (j, σ)
      else
        σ ← Swap data i j σ;
        partition_loop fuel' a b (i + 1) (j - 1) σ
  end.

(** [partitionLessFunc] does one quicksort partition: with
    [p = data[pivot]], elements smaller than [p] go before the new
    pivot position and the others after it. *)
Definition partitionLessFunc (a b pivot : nat) (σ : Σ)
    : result (nat * bool * Σ) :=
  σ ← Swap data a pivot σ;
  let i := a + 1 in
  let j := b - 1 in
  i ← scan_up (S b) a i j σ;
  j ← scan_down (S b) a i j σ;
  if (j <? i)%nat then
    σ ← Swap data j a σ; Ok (j, true, σ)
  else
    σ ← Swap data i j σ;
    '(j, σ) ← partition_loop (S b) a b (i + 1) (j - 1) σ;
    σ ← Swap data j a σ;
    Ok (j, false, σ).

(** [for i <= j && !data.Less(a, i) { i++ }] *)
Fixpoint scanEqual_up (fuel : nat) (a i j : nat) (σ : Σ) : result nat :=
  match fuel with
  | 0 => Exhausted
  | S fuel' =>
      if (i <=? j)%nat then
        lt ← Less data a i σ;
        if lt : bool then Ok i else scanEqual_up fuel' a (i + 1) j σ
      else Ok i
  end.

(** [for i <= j && data.Less(a, j) { j-- }] *)
Fixpoint scanEqual_down (fuel : nat) (a i j : nat) (σ : Σ) : result nat :=
  match fuel with
  | 0 => Exhausted
  | S fuel' =>
      if (i <=? j)%nat then
        lt ← Less data a j σ;
        if lt : bool then scanEqual_down fuel' a i (j - 1) σ else Ok j
      else Ok j
  end.

Fixpoint partitionEqual_loop (fuel : nat) (a b i j : nat) (σ : Σ)
    : result (nat * Σ) :=
  match fuel with
  | 0 => Exhausted
  | S fuel' =>
      i ← scanEqual_up (S b) a i j σ;
      j ← scanEqual_down (S b) a i j σ;
      if (j <? i)%nat then Ok (i, σ)
      else
        σ ← Swap data i j σ;
        partitionEqual_loop fuel' a b (i + 1) (j - 1) σ
  end.

(** [partitionEqualLessFunc] partitions [data[a:b]] into elements
    equal to [data[pivot]] followed by elements greater than it. *)
Definition partitionEqualLessFunc (a b pivot : nat) (σ : Σ)
    : result (nat * Σ) :=
  σ ← Swap data a pivot σ;
  partitionEqual_loop (S b) a b (a + 1) (b - 1) σ.

(** [for i < b && !data.Less(i, i-1) { i++ }] *)
Fixpoint scan_sorted (fuel : nat) (b i : nat) (σ : Σ) : result nat :=
  match fuel with
  | 0 => Exhausted
  | S fuel' =>
      if (i <? b)%nat then
        lt ← Less data i (i - 1) σ;
        if lt : bool then Ok i else scan_sorted fuel' b (i + 1) σ
      else Ok i
  end.

(** [for j := i - 1; j >= 1; j--]: shift the smaller one to the left. *)
Fixpoint shift_left (j : nat) (σ : Σ) : result Σ :=
  match j with
  | 0 => Ok σ
  | S j' =>
      lt ← Less data j j' σ;
      if lt : bool then σ ← Swap data j j' σ; shift_left j' σ else Ok σ
  end.

(** [for j := i + 1; j < b; j++]: shift the greater one to the right;
    [n] counts the indices left below [b]. *)
Fixpoint shift_right (n : nat) (j : nat) (σ : Σ) : result Σ :=
  match n with
  | 0 => Ok σ
  | S n' =>
      lt ← Less data j (j - 1) σ;
      if lt : bool then σ ← Swap data j (j - 1) σ; shift_right n' (j + 1) σ
      else Ok σ
  end.

(** The loop [for j := 0; j < maxSteps; j++] of
    [partialInsertionSortLessFunc]; [steps] counts what is left of
    [maxSteps]. *)
Fixpoint partialInsertionSort_loop (steps : nat) (a b i : nat) (σ : Σ)
    : result (bool * Σ) :=
  match steps with
  | 0 => Ok (false, σ)
  | S steps' =>
      let shortestShifting := 50 in
      i ← scan_sorted (S b) b i σ;
      if (i =? b)%nat then Ok (true, σ)
      else if (b - a <? shortestShifting)%nat then Ok (false, σ)
      else
        σ ← Swap data i (i - 1) σ;
        σ ← (if (2 <=? i - a)%nat then shift_left (i - 1) σ else Ok σ);
        σ ← (if (2 <=? b - i)%nat then shift_right (b - (i + 1)) (i + 1) σ
             else Ok σ);
        partialInsertionSort_loop steps' a b i σ
  end.

(** [partialInsertionSortLessFunc] partially sorts a slice and returns
    true if the slice is sorted at the end. *)
Definition partialInsertionSortLessFunc (a b : nat) (σ : Σ)
    : result (bool * Σ) :=
  let maxSteps := 5 in
  partialInsertionSort_loop maxSteps a b (a + 1) σ.

(** [bits.Len]: the number of bits needed to write [x]. *)
Definition bits_Len (x : nat) : nat :=
  match x with 0 => 0 | _ => S (Nat.log2 x) end.

(** [xorshift.Next] on a 64-bit state. *)
Definition xorshift_Next (r : N) : N :=
  let r := (N.lxor r (N.shiftl r 13) mod 2 ^ 64)%N in
  let r := N.lxor r (N.shiftr r 7) in
  (N.lxor r (N.shiftl r 17) mod 2 ^ 64)%N.

Definition nextPowerOfTwo (length : nat) : N :=
  N.shiftl 1 (N.of_nat (bits_Len length)).

(** The loop [for i := 0; i < 3; i++] of [breakPatternsLessFunc];
    [steps] counts what is left of the three rounds. *)
Fixpoint breakPatterns_loop (steps : nat) (a length idx i : nat)
    (random modulus : N) (σ : Σ) : result Σ :=
  match steps with
  | 0 => Ok σ
  | S steps' =>
      let random := xorshift_Next random in
      let other := N.to_nat (N.land random (modulus - 1)) in
      let other := if (length <=? other)%nat then other - length else other in
      σ ← Swap data (idx + i) (a + other) σ;
      breakPatterns_loop steps' a length idx (i + 1) random modulus σ
  end.

(** [breakPatternsLessFunc] scatters some elements around. *)
Definition breakPatternsLessFunc (a b : nat) (σ : Σ) : result Σ :=
  let length := b - a in
  if (8 <=? length)%nat then
    let random := N.of_nat length in
    let modulus := nextPowerOfTwo length in
    let idx := a + (length / 4) * 2 - 1 in
    breakPatterns_loop 3 a length idx 0 random modulus σ
  else Ok σ.

(** [pdqsortLessFunc] sorts [data[a:b]]: one iteration of its [for]
    loop, with the loop variables [a], [b], [limit], [wasBalanced] and
    [wasPartitioned] as arguments.  [fuel] bounds the iterations and
    the nested calls together. *)
Fixpoint pdqsort_loop (fuel : nat) (a b limit : nat)
    (wasBalanced wasPartitioned : bool) (σ : Σ) : result Σ :=
  match fuel with
  | 0 => Exhausted
  | S fuel' =>
      let maxInsertion := 12 in
      let length := b - a in
      if (length <=? maxInsertion)%nat then insertionSortLessFunc a b σ
      else if (limit =? 0)%nat then heapSortLessFunc a b σ
      else
        '(limit, σ) ← (if negb wasBalanced
                       then σ ← breakPatternsLessFunc a b σ; Ok (limit - 1, σ)
                       else Ok (limit, σ));
        '(pivot, hint) ← choosePivotLessFunc a b σ;
        '(pivot, hint, σ) ←
          match hint with
          | decreasingHint =>
              σ ← reverseRangeLessFunc a b σ;
              Ok ((b - 1) - (pivot - a), increasingHint, σ)
          | _ => Ok (pivot, hint, σ)
          end;
        '(sorted, σ) ←
          match wasBalanced && wasPartitioned, hint with
          | true, increasingHint => partialInsertionSortLessFunc a b σ
          | _, _ => Ok (false, σ)
          end;
        if sorted : bool then Ok σ
        else
          equal ← (if (0 <? a)%nat
                   then lt ← Less data (a - 1) pivot σ; Ok (negb lt)
                   else Ok false);
          if equal : bool then
            '(mid, σ) ← partitionEqualLessFunc a b pivot σ;
            pdqsort_loop fuel' mid b limit wasBalanced wasPartitioned σ
          else
            '(mid, alreadyPartitioned, σ) ← partitionLessFunc a b pivot σ;
            let wasPartitioned := alreadyPartitioned in
            let leftLen := mid - a in
            let rightLen := b - mid in
            let balanceThreshold := length / 8 in
            if (leftLen <? rightLen)%nat then
              let wasBalanced := (balanceThreshold <=? leftLen)%nat in
              σ ← pdqsort_loop fuel' a mid limit true true σ;
              pdqsort_loop fuel' (mid + 1) b limit
                           wasBalanced wasPartitioned σ
            else
              let wasBalanced := (balanceThreshold <=? rightLen)%nat in
              σ ← pdqsort_loop fuel' (mid + 1) b limit true true σ;
              pdqsort_loop fuel' a mid limit wasBalanced wasPartitioned σ
  end.

(** A call [pdqsort_func(data, a, b, limit)]: every iteration and
    every nested call works on a shorter range, so [b - a + 1] bounds
    them. *)
Definition pdqsortLessFunc (a b limit : nat) (σ : Σ) : result Σ :=
  pdqsort_loop (S (b - a)) a b limit true true σ.

End lessSwap.

Arguments lessSwap Σ : clear implicits.

End sort.

(** ** Slices in memory

    A slice is the address of its backing array; the memory maps the
    addresses to the contents of the arrays. *)

Section store.
Context {T : Type}.

(** [x[i]] for the slice at [x]; out of range it panics. *)
Definition index (x : nat) (i : nat) (h : gmap nat (list T)) : result T :=
  match h !! x with
  | Some l =>
      match l !! i with
      | Some v => Ok v
      | None => Panic "runtime error: index out of range"
      end
  | None => Panic "runtime error: invalid memory address"
  end.

(** The elements of the slice at [x], for a [range] over it. *)
Definition index_all (x : nat) (h : gmap nat (list T)) : result (list T) :=
  match h !! x with
  | Some l => Ok l
  | None => Panic "runtime error: invalid memory address"
  end.

(** [reflectlite.Swapper(x)]: exchanges the elements [i] and [j]. *)
Definition Swapper (x : nat) (i j : nat) (h : gmap nat (list T))
    : result (gmap nat (list T)) :=
  vi ← index x i h;
  vj ← index x j h;
  match h !! x with
  | Some l => Ok (<[x := <[j := vi]> (<[i := vj]> l)]> h)
  | None => Panic "runtime error: invalid memory address"
  end.

Definition Len (x : nat) (h : gmap nat (list T)) : result nat :=
  match h !! x with
  | Some l => Ok (length l)
  | None => Panic "runtime error: invalid memory address"
  end.

(** [sort.Slice(x, less)] *)
Definition sort_Slice (x : nat)
    (less : nat → nat → gmap nat (list T) → result bool)
    (h : gmap nat (list T)) : result (gmap nat (list T)) :=
  length ← Len x h;
  let limit := sort.bits_Len length in
  sort.pdqsortLessFunc (sort.mkLessSwap less (Swapper x)) 0 length limit h.

(** [Sort] of package collection: the slice is sorted in place and the
    same slice is returned. *)
Definition Sort (list_ : nat)
    (less : nat → nat → gmap nat (list T) → result bool)
    (h : gmap nat (list T)) : result (nat * gmap nat (list T)) :=
  h ← sort_Slice list_ less h;
  Ok (list_, h).

(** The closure [func(i, j int) bool { return lt(x[i], x[j]) }] over
    the slice [x]. *)
Definition less_by (lt : T → T → bool) (x : nat)
    (i j : nat) (h : gmap nat (list T)) : result bool :=
  vi ← index x i h;
  vj ← index x j h;
  Ok (lt vi vj).

End store.

(** ** Insertion sort as a function on lists, and stability *)

Section isort.
Context {T : Type}.
Variable lt : T → T → bool.

(** [insert_rev v r]: [r] is a sorted prefix written backwards; [v]
    moves past the elements it is less than. *)
Fixpoint insert_rev (v : T) (r : list T) : list T :=
  match r with
  | [] => [v]
  | y :: r' => if lt v y then y :: insert_rev v r' else v :: r
  end.

Definition isort_rev (l : list T) : list T :=
  foldl (λ r v, insert_rev v r) [] l.

Definition isort (l : list T) : list T := reverse (isort_rev l).

(** [output] is a stable rearrangement of [input]: its elements can be
    matched one to one with the positions of [input] they come from so
    that two tied elements, neither less than the other, stand in the
    order of their original positions. *)
Definition stable_rearrangement (input output : list T) : Prop :=
  ∃ tagged : list (nat * T),
    tagged ≡ₚ imap (λ i v, (i, v)) input ∧
    output = tagged.*2 ∧
    ∀ p q i j vi vj,
      p < q → tagged !! p = Some (i, vi) → tagged !! q = Some (j, vj) →
      lt vi vj = false → lt vj vi = false → i < j.

End isort.

(** The comparator and the order invariant of the insertion sort on
    elements that carry their original index. *)

Section tagged.
Context {T : Type}.
Variable lt : T → T → bool.

(** The comparator on elements that carry their original index. *)
Definition lt_tagged (a b : nat * T) : bool := lt a.2 b.2.

(** In a backwards prefix, of two tied elements the one met first has
    the larger original index. *)
Definition tied_later (a b : nat * T) : Prop :=
  lt a.2 b.2 = false → lt b.2 a.2 = false → b.1 < a.1.

End tagged.

(** ** Package maps

    [Sprintf_v] is [fmt.Sprintf("%v", key)] on the key type and
    [zero_V1] the zero value of [V1], which [source[key]] gives for a
    key that is not in the map.  [range_order] is the order in which
    [range source] visits the map in the run at hand. *)

Section maps.
Context `{Countable K} {V1 V2 : Type}.
Variable Sprintf_v : K → string.
Variable zero_V1 : V1.
Variable range_order : gmap K V1 → list (K * V1).

(** The comparison [fmt.Sprintf("%v", a) < fmt.Sprintf("%v", b)] of
    Go strings, byte by byte. *)
Definition key_less (a b : K) : bool :=
  String.ltb (Sprintf_v a) (Sprintf_v b).

(** The keys in ascending order of their string representation. *)
Definition key_le (a b : K) : Prop := String.le (Sprintf_v a) (Sprintf_v b).

(** [MapHashMapToList]: the keys are collected in the order of the
    [range] loop into the local slice [keys], here at address 0 of a
    memory of its own; [Sort] sorts that slice with a closure that
    reads [keys[i]] and [keys[j]]; [Map] walks the slice returned. *)
Definition MapHashMapToList (source : gmap K V1)
    (mappingFunc : K → V1 → V2) : result (list V2) :=
  let keys := foldl (λ keys kv, keys ++ [kv.1]) [] (range_order source) in
  '(sortedKeys, h) ← Sort 0 (less_by key_less 0) {[0 := keys]};
  sortedKeys ← index_all sortedKeys h;
  Ok (Map sortedKeys
          (λ key, mappingFunc key (default zero_V1 (source !! key)))).

End maps.

(** What the first loop of [GroupBy] and [GroupBy1By1] needs of an
    element: the path resolves to a valid value that can be boxed and
    asserted to [K]. *)
Definition resolves_to `{Countable K} {V : Type}
    (reflect_V : V → reflect.GoValue)
    (assert_K : option reflect.GoValue → option K)
    (fieldName : string) (item : V) (key : K) : Prop :=
  ∃ fieldValue i,
    GetField (reflect.ValueOf (Some (reflect_V item))) fieldName
      = Ok fieldValue ∧
    reflect.IsValid fieldValue = true ∧
    reflect.Value_Interface fieldValue = Ok i ∧
    assert_K i = Some key.

(** The map the first loop builds from the keys of the elements. *)
Definition group_into `{Countable K} {V : Type}
    (acc : gmap K (list V)) (kvs : list (K * V)) : gmap K (list V) :=
  foldl (λ m kv, <[kv.1 := default [] (m !! kv.1) ++ [kv.2]]> m) acc kvs.

(** ** Go values used in the examples *)

Module Examples.
Import reflect.

(** type Money struct { Amount int; Currency string } *)
Definition money (amount : Z) : GoValue :=
  VStruct [("Amount", VInt amount); ("Currency", VString "EUR")].

(** type Item struct { Sku string; Price Money } *)
Definition item (sku : string) (amount : Z) : GoValue :=
  VStruct [("Sku", VString sku); ("Price", money amount)].

(** type Order struct { Id int; Items []Item } *)
Definition order : GoValue :=
  VStruct [("Id", VInt 1); ("Items", VSlice [item "a" 5; item "b" 7])].

(** type Person struct { Name string; Age int } *)
Definition person (name : string) (age : Z) : GoValue :=
  VStruct [("Name", VString name); ("Age", VInt age)].

(** Records [{name, score}], compared by score. *)
Definition by_score (a b : string * nat) : bool := (a.2 <? b.2)%nat.

Definition three : list (string * nat) := [("a", 1); ("b", 1); ("c", 0)].

Definition thirteen : list (string * nat) :=
  [("a", 1); ("b", 1); ("c", 1); ("d", 1); ("e", 1); ("f", 1); ("g", 1);
   ("h", 1); ("i", 1); ("j", 1); ("k", 1); ("l", 1); ("m", 0)].

(** type Person struct { Name string; Age int } as the elements of a
    slice grouped by the [int] field [Age]. *)
Definition assert_int (i : option GoValue) : option Z :=
  match i with
  | Some (VInt n) => Some n
  | _ => None
  end.

Definition people_shared_age : list GoValue :=
  [person "Alice" 30; person "Bob" 30; person "Charlie" 25].

Definition people_distinct_age : list GoValue :=
  [person "Alice" 30; person "Bob" 31; person "Charlie" 25].

(** Keys of type [struct { A, B string }]; [%v] prints the fields
    between braces, separated by a space. *)
Definition Sprintf_pair (key : string * string) : string :=
  "{" +:+ key.1 +:+ " " +:+ key.2 +:+ "}".

Definition pair_map : gmap (string * string) nat :=
  {[ ("a b", "c") := 1; ("a", "b c") := 2 ]}.

(** Keys of type [string]; [%v] prints the string itself. *)
Definition Sprintf_string (key : string) : string := key.

Definition fruit_map : gmap string nat :=
  {[ "apple" := 1; "banana" := 2; "cherry" := 3 ]}.

End Examples.

(** ** Predicates on the ranges of a slice, for the correctness of
    [sort.Slice] *)

Section ranges_defs.
Context {T : Type} `{!Inhabited T}.

(** The list after [data.Swap(i, j)]. *)
Definition swapl (i j : nat) (l : list T) : list T :=
  <[j := l !!! i]> (<[i := l !!! j]> l).

(** [l[a:b]] *)
Definition sub (a b : nat) (l : list T) : list T := take (b - a) (drop a l).

(** [l'] is [l] with the elements of [l[a:b]] rearranged. *)
Definition perm_in (a b : nat) (l l' : list T) : Prop :=
  length l' = length l ∧
  (∀ k, k < a ∨ b ≤ k → l' !!! k = l !!! k) ∧
  sub a b l' ≡ₚ sub a b l.

Definition all_in (a b : nat) (P : T → Prop) (l : list T) : Prop :=
  ∀ k, a ≤ k → k < b → P (l !!! k).

Variable lt : T → T → bool.

Definition sorted_in (a b : nat) (l : list T) : Prop :=
  ∀ i j, a ≤ i → i < j → j < b → lt (l !!! j) (l !!! i) = false.

End ranges_defs.

Section heap_defs.
Context {T : Type} `{!Inhabited T}.
Variable lt : T → T → bool.

(** The heap of [heapSortLessFunc] lives in [l[first:first+hi]]; the
    children of the node [k] are [2k+1] and [2k+2].  Every node from
    [lo] on, except [root], is not less than its children. *)
Definition heap_except (first lo hi : nat) (root : option nat) (l : list T)
    : Prop :=
  ∀ k c, lo ≤ k → Some k ≠ root → c = 2 * k + 1 ∨ c = 2 * k + 2 → c < hi →
         lt (l !!! (first + k)) (l !!! (first + c)) = false.

(** The parent of [root], when it is in the heap, is not less than the
    children of [root]. *)
Definition heap_grandparent (first lo hi root : nat) (l : list T) : Prop :=
  ∀ p c, lo ≤ p → root = 2 * p + 1 ∨ root = 2 * p + 2 →
         c = 2 * root + 1 ∨ c = 2 * root + 2 → c < hi →
         lt (l !!! (first + p)) (l !!! (first + c)) = false.

End heap_defs.

Section barrier_def.
Context {T : Type} `{!Inhabited T}.
Variable lt : T → T → bool.

(** The element just below [a] is not greater than any element of
    [l[a:b]]. *)
Definition barrier (a b : nat) (l : list T) : Prop :=
  0 < a → all_in a b (λ v, lt v (l !!! (a - 1)) = false) l.

End barrier_def.

(** A comparator that is coarser than equality: two numbers are the
    same when their last decimal digits agree. *)
Definition same_last_digit (a b : nat) : bool := (a mod 10 =? b mod 10)%nat.

(** ** Package collection: the other helpers

    A callback that only computes a value from its arguments is a
    function; a callback that is called for its effect ([action] of
    [ForEach] and of [ForEachWithError], and the error-returning
    [mappingFunc] on a slice) acts on the caller's state [St]. *)

Section collection_more.
Context {T : Type}.

(** [FlatMap]: [result = append(result, item...)] for each inner
    slice. *)
Definition FlatMap (source : list (list T)) : list T :=
  foldl (λ result item, result ++ item) [] source.

(** [Reduce] *)
Definition Reduce (source : list T) (reduceFunc : T → T → T)
    (initialValue : T) : T :=
  foldl (λ acc item, reduceFunc acc item) initialValue source.

Context {St : Type}.

(** [ForEach]: [action] is called on each item for its effect. *)
Definition ForEach (source : list T) (action : T → St → St) (s : St) : St :=
  foldl (λ s item, action item s) s source.

(** [ForEachWithError]: the loop returns the first error as it is. *)
Fixpoint ForEachWithError (source : list T)
    (action : T → St → option error * St) (s : St) : option error * St :=
  match source with
  | [] => (None, s)
  | item :: rest =>
      let '(err, s') := action item s in
      match err with
      | Some e => (Some e, s')
      | None => ForEachWithError rest action s'
      end
  end.

(** All calls of [action] on [source], started in state [s], return a
    nil error and leave the state [s']. *)
Inductive all_done (action : T → St → option error * St)
    : list T → St → St → Prop :=
| all_done_nil s : all_done action [] s s
| all_done_cons item rest s s1 s2 :
    action item s = (None, s1) →
    all_done action rest s1 s2 →
    all_done action (item :: rest) s s2.

End collection_more.

(** ** Fixed-width integers and [Sum]

    The integer members of [Summable] are [int], [int32] and [int64]:
    signed integers of [w] bits in two's complement, whose addition
    wraps around.  [wrap w z] is the [w]-bit integer that an operation
    of exact result [z] leaves. *)

Definition wrap (w : Z) (z : Z) : Z :=
  ((z + 2 ^ (w - 1)) mod 2 ^ w - 2 ^ (w - 1))%Z.

(** The values of a [w]-bit signed integer. *)
Definition in_range (w : Z) (z : Z) : Prop :=
  (- 2 ^ (w - 1) ≤ z < 2 ^ (w - 1))%Z.

(** [Sum] at a [w]-bit integer type: [total += v] wraps around. *)
Definition Sum (w : Z) (list_ : list Z) : Z :=
  foldl (λ total v, wrap w (total + v)) 0%Z list_.

(** The exact sum of the elements. *)
Definition exact_sum (l : list Z) : Z := foldr Z.add 0%Z l.

(** ** Package conditional *)

(** [ForAll]: the loop returns [false] at the first element that fails
    the condition. *)
Fixpoint ForAll {T} (elements : list T) (condition : T → bool) : bool :=
  match elements with
  | [] => true
  | e :: rest => if negb (condition e) then false else ForAll rest condition
  end.

(** ** [CloneList]: allocation and [copy]

    [alloc] is the allocator: it gives the address of the new backing
    array, one that is not in use. *)

Section store_more.
Context {T : Type}.
Variable alloc : gmap nat (list T) → nat.

(** [make([]T, n)]: a new array of [n] zero values. *)
Definition make (zero : T) (n : nat) (h : gmap nat (list T))
    : nat * gmap nat (list T) :=
  let a := alloc h in (a, <[a := replicate n zero]> h).

(** [copy(dst, src)]: the first [min(len(dst), len(src))] elements of
    [src] overwrite those of [dst]; that number is returned. *)
Definition copy (dst src : nat) (h : gmap nat (list T))
    : result (nat * gmap nat (list T)) :=
  d ← index_all dst h;
  s ← index_all src h;
  let n := length d `min` length s in
  Ok (n, <[dst := take n s ++ drop n d]> h).

(** [CloneList] *)
Definition CloneList (zero : T) (source : nat) (h : gmap nat (list T))
    : result (nat * gmap nat (list T)) :=
  n ← Len source h;
  let '(clone, h) := make zero n h in
  '(_, h) ← copy clone source h;
  Ok (clone, h).

End store_more.

(** ** Maps of package collection: [FilterMap] and [CloneMap] *)

Section collection_maps.
Context `{Countable K} {V : Type}.
Variable range_order : gmap K V → list (K * V).

(** [FilterMap] *)
Definition FilterMap (source : gmap K V) (filteringFunc : K → V → bool)
    : gmap K V :=
  foldl (λ result kv,
           if filteringFunc kv.1 kv.2 then <[kv.1 := kv.2]> result
           else result)
        ∅ (range_order source).

(** [CloneMap] *)
Definition CloneMap (source : gmap K V) : gmap K V :=
  foldl (λ clone kv, <[kv.1 := kv.2]> clone) ∅ (range_order source).

End collection_maps.

(** ** Package maps: the other helpers *)

Section maps_from_lists.
Context {T1 T2 : Type} `{Countable K}.

(** [MapToHashMap]: [result[key] = value] for each item in turn. *)
Definition MapToHashMap (source : list T1) (mappingFunc : T1 → K * T2)
    : gmap K T2 :=
  foldl (λ result item,
           let '(key, value) := mappingFunc item in <[key := value]> result)
        ∅ source.

Context {St : Type}.

(** The loop of [MapToHashMapReturnWithError]; [idx] is the index of
    the head of [source]. *)
Fixpoint MapToHashMapReturnWithError_loop
    (mappingFunc : T1 → St → (K * T2 * option error) * St)
    (idx : nat) (source : list T1) (result : gmap K T2) (s : St)
    : (option (gmap K T2) * option error) * St :=
  match source with
  | [] => ((Some result, None), s)
  | item :: rest =>
      let '((key, value, err), s') := mappingFunc item s in
      match err with
      | Some cause =>
          ((None, Some (errors.Wrap cause (index_message idx))), s')
      | None =>
          MapToHashMapReturnWithError_loop mappingFunc (S idx) rest
            (<[key := value]> result) s'
      end
  end.

Definition MapToHashMapReturnWithError (source : list T1)
    (mappingFunc : T1 → St → (K * T2 * option error) * St) (s : St)
    : (option (gmap K T2) * option error) * St :=
  MapToHashMapReturnWithError_loop mappingFunc 0 source ∅ s.

(** All calls of [mappingFunc] on [source], started in state [s],
    succeed, produce the entries [kvs] and leave the state [s']. *)
Inductive all_mapped (mappingFunc : T1 → St → (K * T2 * option error) * St)
    : list T1 → St → list (K * T2) → St → Prop :=
| all_mapped_nil s : all_mapped mappingFunc [] s [] s
| all_mapped_cons item rest s key value s1 kvs s2 :
    mappingFunc item s = ((key, value, None), s1) →
    all_mapped mappingFunc rest s1 kvs s2 →
    all_mapped mappingFunc (item :: rest) s ((key, value) :: kvs) s2.

End maps_from_lists.

(** [SliceToHashMap] *)
Definition SliceToHashMap `{Countable T} (list_ : list T) : gmap T bool :=
  foldl (λ result item, <[item := true]> result) ∅ list_.

Section maps_from_maps.
Context `{Countable K} {V1 V2 : Type}.
Variable Sprintf_v : K → string.
Variable zero_V1 : V1.
Variable range_order : gmap K V1 → list (K * V1).

(** [MapHashMapToHashMap] *)
Definition MapHashMapToHashMap (source : gmap K V1)
    (mappingFunc : K → V1 → V2) : gmap K V2 :=
  foldl (λ result kv, <[kv.1 := mappingFunc kv.1 kv.2]> result)
        ∅ (range_order source).

Definition key_message (key : K) : string :=
  "error mapping at key:'" +:+ Sprintf_v key +:+ "', error".

(** The loop of [MapHashMapToHashMapReturnWithError] over the entries
    in the order of the [range]. *)
Fixpoint MapHashMapToHashMapReturnWithError_loop
    (mappingFunc : K → V1 → V2 * option error)
    (entries : list (K * V1)) (result : gmap K V2)
    : option (gmap K V2) * option error :=
  match entries with
  | [] => (Some result, None)
  | (key, value) :: rest =>
      let '(res, err) := mappingFunc key value in
      match err with
      | Some cause => (None, Some (errors.Wrap cause (key_message key)))
      | None =>
          MapHashMapToHashMapReturnWithError_loop mappingFunc rest
            (<[key := res]> result)
      end
  end.

Definition MapHashMapToHashMapReturnWithError (source : gmap K V1)
    (mappingFunc : K → V1 → V2 * option error)
    : option (gmap K V2) * option error :=
  MapHashMapToHashMapReturnWithError_loop mappingFunc (range_order source) ∅.

(** The loop of [MapHashMapToListReturnWithError] over the sorted
    keys. *)
Fixpoint MapHashMapToListReturnWithError_loop (source : gmap K V1)
    (mappingFunc : K → V1 → V2 * option error)
    (sortedKeys : list K) (result : list V2)
    : option (list V2) * option error :=
  match sortedKeys with
  | [] => (Some result, None)
  | key :: rest =>
      let '(res, err) := mappingFunc key (default zero_V1 (source !! key)) in
      match err with
      | Some cause => (None, Some (errors.Wrap cause (key_message key)))
      | None =>
          MapHashMapToListReturnWithError_loop source mappingFunc rest
            (result ++ [res])
      end
  end.

(** [MapHashMapToListReturnWithError]: the keys are collected and
    sorted as in [MapHashMapToList]. *)
Definition MapHashMapToListReturnWithError (source : gmap K V1)
    (mappingFunc : K → V1 → V2 * option error)
    : result (option (list V2) * option error) :=
  let keys := foldl (λ keys kv, keys ++ [kv.1]) [] (range_order source) in
  '(sortedKeys, h) ← Sort 0 (less_by (key_less Sprintf_v) 0) {[0 := keys]};
  sortedKeys ← index_all sortedKeys h;
  Ok (MapHashMapToListReturnWithError_loop source mappingFunc sortedKeys []).

End maps_from_maps.

(** ** Path segments *)

(** A name that does not contain the separator of paths. *)
Fixpoint is_segment (name : string) : bool :=
  match name with
  | EmptyString => true
  | String c name' => negb (Ascii.eqb c "."%char) && is_segment name'
  end.

(** ** The broadcast of [GetField] over a slice of records *)




(** * Part II: properties *)

Lemma string_app_assoc (a b c : string) :
  (a +:+ b) +:+ c = a +:+ (b +:+ c).
Proof.
  induction a as [|x a IH]; [done|].
  change (String x ((a +:+ b) +:+ c) = String x (a +:+ (b +:+ c))).
  by f_equal.
Qed.

Section collection_facts.
Context {T1 T2 : Type}.

Lemma Map_fmap (source : list T1) (transform : T1 → T2) :
  Map source transform = transform <$> source.
Proof.
  unfold Map.
  enough (∀ acc, foldl (λ result item, result ++ [transform item]) acc source
                 = acc ++ (transform <$> source)) as Hgen by apply Hgen.
  induction source as [|x l IH]; intros acc; simpl.
  - by rewrite app_nil_r.
  - rewrite IH. by rewrite <- app_assoc.
Qed.

Lemma Filter_filter (source : list T1) (filterFunc : T1 → bool) :
  Filter source filterFunc = filter (λ x, filterFunc x = true) source.
Proof.
  unfold Filter.
  enough (∀ acc,
    foldl (λ result item, if filterFunc item then result ++ [item] else result)
          acc source
    = acc ++ filter (λ x, filterFunc x = true) source) as Hgen by apply Hgen.
  induction source as [|x l IH]; intros acc; simpl.
  - by rewrite app_nil_r.
  - rewrite IH. rewrite filter_cons.
    destruct (filterFunc x) eqn:Hx.
    + rewrite decide_True by done. by rewrite <- app_assoc.
    + rewrite decide_False by (by intros ?). done.
Qed.

Context {St : Type}.
Implicit Types (f : T1 → St → (T2 * option error) * St).

Lemma MapReturnWithError_loop_cases f source : ∀ idx result s,
  (∃ ys s', all_succeed f source s ys s' ∧
     MapReturnWithError_loop f idx source result s
       = ((Some (result ++ ys), None), s'))
  ∨ (∃ pre item post ys s1 res cause s2,
       source = pre ++ item :: post ∧
       all_succeed f pre s ys s1 ∧
       f item s1 = ((res, Some cause), s2) ∧
       MapReturnWithError_loop f idx source result s
         = ((None, Some (errors.Wrap cause
                           (index_message (idx + length pre)))), s2)).
Proof.
  induction source as [|item rest IH]; intros idx result s.
  - left. exists [], s. split; [constructor|]. simpl. by rewrite app_nil_r.
  - simpl. destruct (f item s) as [[res [cause|]] s1] eqn:Hf.
    + right. exists [], item, rest, [], s, res, cause, s1.
      simpl. rewrite Nat.add_0_r. repeat split; try done. constructor.
    + destruct (IH (S idx) (result ++ [res]) s1)
        as [(ys & s' & Hok & Heq)
           |(pre & it & post & ys & s2 & r & c & s3 & -> & Hok & Hf' & Heq)].
      * left. exists (res :: ys), s'. split; [by econstructor|].
        rewrite Heq. by rewrite <- app_assoc.
      * right. exists (item :: pre), it, post, (res :: ys), s2, r, c, s3.
        repeat split; try done; [by econstructor|].
        rewrite Heq. simpl. by rewrite Nat.add_succ_r.
Qed.

(** C7.  [MapReturnWithError] calls [mappingFunc] on the elements in
    order.  Either every call succeeds and the full mapped slice comes
    back with a nil error; or there is a first failing element, at
    zero-based index [length pre]: the result slice is nil, the error
    wraps the cause under the message naming that index, and the state
    is the one left by the failing call (no later element is visited). *)
Theorem MapReturnWithError_first_failure f (source : list T1) (s : St) :
  (∃ ys s', all_succeed f source s ys s' ∧
     MapReturnWithError source f s = ((Some ys, None), s'))
  ∨ (∃ pre item post ys s1 res cause s2,
       source = pre ++ item :: post ∧
       all_succeed f pre s ys s1 ∧
       f item s1 = ((res, Some cause), s2) ∧
       MapReturnWithError source f s
         = ((None, Some (errors.Wrap cause (index_message (length pre)))), s2) ∧
       errors.Unwrap (errors.Wrap cause (index_message (length pre)))
         = Some cause ∧
       errors.Error (errors.Wrap cause (index_message (length pre)))
         = "error mapping at index:'" +:+ pretty (length pre)
             +:+ "', error: " +:+ errors.Error cause).
Proof.
  unfold MapReturnWithError.
  destruct (MapReturnWithError_loop_cases f source 0 [] s)
    as [(ys & s' & Hok & Heq)
       |(pre & it & post & ys & s1 & r & c & s2 & -> & Hok & Hf & Heq)].
  - left. by exists ys, s'.
  - right. exists pre, it, post, ys, s1, r, c, s2.
    repeat split; try done.
    simpl. unfold index_message. by rewrite !string_app_assoc.
Qed.

End collection_facts.

Section distinct_facts.
Context `{Countable T}.

Lemma Distinct_loop_pairwise (slice : list T) :
  ∀ (seen : gmap T bool) (unique : list T),
    (∀ x, default false (seen !! x) = true ↔ x ∈ unique) →
    (foldl Distinct_step (seen, unique) slice).2
    = pairwise_distinct_loop (λ a b, bool_decide (a = b)) unique slice.
Proof.
  induction slice as [|item rest IH]; intros seen unique Hseen; [done|].
  simpl.
  destruct (existsb (λ k, bool_decide (k = item)) unique) eqn:Hex.
  - apply existsb_exists in Hex as (k & Hk & Heq).
    apply bool_decide_eq_true in Heq as ->.
    apply list_elem_of_In, Hseen in Hk. rewrite Hk. simpl. by apply IH.
  - assert (default false (seen !! item) = false) as Hnot.
    { destruct (default false (seen !! item)) eqn:Hd; [|done].
      apply Hseen, list_elem_of_In in Hd.
      assert (existsb (λ k, bool_decide (k = item)) unique = true); [|congruence].
      apply existsb_exists. exists item. split; [done|].
      by apply bool_decide_eq_true. }
    rewrite Hnot. simpl. apply IH. intros x.
    rewrite elem_of_app, list_elem_of_singleton, <- Hseen.
    destruct (decide (item = x)) as [->|Hne].
    + rewrite lookup_insert_eq. simpl. tauto.
    + rewrite lookup_insert_ne by done. split; [tauto|]. by intros [?|?].
Qed.

(** The hash-set loop of [Distinct] is the pairwise deduplication for
    the comparator that is equality. *)
Lemma Distinct_pairwise_eq (slice : list T) :
  Distinct slice = pairwise_distinct (λ a b, bool_decide (a = b)) slice.
Proof.
  apply Distinct_loop_pairwise. intros x. rewrite lookup_empty. simpl.
  split; [done|]. by intros ?%elem_of_nil.
Qed.

(** C10.  [DistinctFunc] never consults its comparator: any two
    comparators give the same slice, and that slice is the one
    [Distinct] builds with the built-in equality of the elements. *)
Theorem DistinctFunc_independent_of_comparator
    (s : list T) (eq1 eq2 : T → T → bool) :
  DistinctFunc s eq1 = DistinctFunc s eq2 ∧
  DistinctFunc s eq2 = Distinct s ∧
  Distinct s = pairwise_distinct (λ a b, bool_decide (a = b)) s.
Proof.
  split; [reflexivity|]. split; [reflexivity|]. apply Distinct_pairwise_eq.
Qed.

End distinct_facts.

(** C1.  On [[1; 11; 2]] with [same_last_digit] the pairwise
    deduplication drops [11], which the comparator judges equal to the
    kept [1]; [DistinctFunc] keeps it, as it does for every other
    comparator. *)
Theorem DistinctFunc_not_pairwise :
  DistinctFunc [1; 11; 2] same_last_digit = [1; 11; 2] ∧
  pairwise_distinct same_last_digit [1; 11; 2] = [1; 2] ∧
  DistinctFunc [1; 11; 2] same_last_digit
    = DistinctFunc [1; 11; 2] (λ a b, bool_decide (a = b)).
Proof. repeat split; vm_compute; reflexivity. Qed.

Section result_facts.
Context {A B : Type}.

Lemma foldlM_ext (f g : A → B → result A) (l : list B) :
  (∀ acc x, x ∈ l → f acc x = g acc x) →
  ∀ acc, foldlM f acc l = foldlM g acc l.
Proof.
  induction l as [|x l IH]; intros Hfg acc; [done|].
  simpl. rewrite Hfg by left.
  destruct (g acc x) as [acc'| |]; simpl; [|done..].
  apply IH. intros ? ? ?. apply Hfg. by right.
Qed.

Lemma foldlM_not_exhausted (f : A → B → result A) (l : list B) :
  (∀ acc x, x ∈ l → f acc x ≠ Exhausted) →
  ∀ acc, foldlM f acc l ≠ Exhausted.
Proof.
  induction l as [|x l IH]; intros Hf acc; [done|].
  simpl. specialize (Hf acc x (list_elem_of_here _ _)) as Hx.
  destruct (f acc x) as [acc'| |]; simpl; [|done..].
  apply IH. intros ? ? ?. apply Hf. by right.
Qed.

End result_facts.

Section reflect_facts.
Import reflect.

Lemma height_elem (elems : list GoValue) i e :
  elems !! i = Some e → height e < height (VSlice elems).
Proof.
  simpl. revert i. induction elems as [|y l IH]; intros [|i] Hi; simplify_eq/=.
  - apply Nat.lt_succ_r, Nat.le_max_l.
  - specialize (IH _ Hi). apply Nat.lt_succ_r. etrans; [|apply Nat.le_max_r]. lia.
Qed.

Lemma height_field name (fields : list (string * GoValue)) x :
  field_lookup name fields = Some x → height x < height (VStruct fields).
Proof.
  simpl. induction fields as [|[n y] l IH]; intros Hx; [done|].
  simpl in *. destruct (String.eqb n name).
  - injection Hx as ->. apply Nat.lt_succ_r, Nat.le_max_l.
  - specialize (IH Hx). apply Nat.lt_succ_r. etrans; [|apply Nat.le_max_r]. lia.
Qed.

Lemma height_VPtr y : height (VPtr (Some y)) = S (height y).
Proof. done. Qed.

Lemma height_VInterface y : height (VInterface (Some y)) = S (height y).
Proof. done. Qed.

Lemma Elem_height v v' : Elem v = Ok v' → Value_height v' ≤ Value_height v.
Proof.
  destruct v as [[x|] ro]; [|done].
  destruct x as [| | | |[y|]|?|[y|]]; intros Hv;
    cbv [Elem data flagRO] in Hv; simplify_eq;
    unfold Value_height; cbn [data zero];
    rewrite ?height_VPtr, ?height_VInterface; lia.
Qed.

Lemma FieldByName_height v name v' :
  FieldByName v name = Ok v' → Value_height v' ≤ Value_height v.
Proof.
  destruct v as [[x|] ro]; [|done].
  destruct x as [| | |fields| | |]; try done.
  unfold FieldByName. simpl.
  destruct (field_lookup name fields) as [y|] eqn:Hy; intros Hv; simplify_eq/=.
  - apply height_field in Hy. unfold Value_height. simpl in *. lia.
  - unfold Value_height. simpl. lia.
Qed.

Lemma Index_height v i v' :
  Index v i = Ok v' → Value_height v' < Value_height v.
Proof.
  destruct v as [[x|] ro]; [|done].
  destruct x as [| | | | |elems|]; try done.
  unfold Index. simpl.
  destruct (elems !! i) as [y|] eqn:Hy; intros Hv; simplify_eq/=.
  apply height_elem in Hy. unfold Value_height. simpl in *. lia.
Qed.

Lemma Elem_not_exhausted v : Elem v ≠ Exhausted.
Proof. destruct v as [[[| | | |[?|]|?|[?|]]|] ro]; done. Qed.

Lemma FieldByName_not_exhausted v name : FieldByName v name ≠ Exhausted.
Proof.
  destruct v as [[[| | |fields| | |]|] ro]; try done.
  unfold FieldByName. simpl. by destruct (field_lookup name fields).
Qed.

Lemma Index_not_exhausted v i : Index v i ≠ Exhausted.
Proof.
  destruct v as [[[| | | | |elems|]|] ro]; try done.
  unfold Index. simpl. by destruct (elems !! i).
Qed.

Lemma Len_not_exhausted v : Len v ≠ Exhausted.
Proof. destruct v as [[[| | | | |elems|]|] ro]; done. Qed.

Lemma Value_Interface_not_exhausted v : Value_Interface v ≠ Exhausted.
Proof. destruct v as [[x|] []]; done. Qed.

End reflect_facts.

Section GetField_facts.
Import reflect.
Implicit Types (rec : Value → string → result Value).

Lemma GetField_subElements_ext rec1 rec2 element name :
  (∀ e, Value_height e < Value_height element → rec1 e name = rec2 e name) →
  GetField_subElements rec1 element name
  = GetField_subElements rec2 element name.
Proof.
  intros Hrec. unfold GetField_subElements.
  destruct (Len element) as [len| |]; simpl; [|done..].
  apply foldlM_ext. intros acc i _.
  destruct (Index element i) as [e| |] eqn:He; simpl; [|done..].
  rewrite Hrec; [done|]. by eapply Index_height.
Qed.

Lemma GetField_names_ext rec1 rec2 h names :
  (∀ e name, Value_height e < h → rec1 e name = rec2 e name) →
  ∀ element, Value_height element ≤ h →
  GetField_names rec1 element names = GetField_names rec2 element names.
Proof.
  intros Hrec. induction names as [|name names IH]; intros element Hh; [done|].
  cbn [GetField_names].
  assert (∀ e, match Kind_of element with
               | Ptr => Elem element | _ => Ok element end = Ok e →
               Value_height e ≤ h) as Hr.
  { intros e He. destruct (Kind_of element);
      try (injection He as <-; exact Hh).
    apply Elem_height in He. by etrans. }
  destruct (match Kind_of element with
            | Ptr => Elem element | _ => Ok element end) as [e| |];
    [|done..].
  specialize (Hr e eq_refl). cbn [mbind result_bind].
  assert (∀ e', FieldByName e name = Ok e' → Value_height e' ≤ h) as Hf.
  { intros e' He'. apply FieldByName_height in He'. by etrans. }
  destruct (Kind_of e);
    try (destruct (FieldByName e name) as [e'| |]; [|done..];
         cbn [mbind result_bind]; by apply IH, Hf).
  rewrite (GetField_subElements_ext rec1 rec2); [done|].
  intros e' He'. apply Hrec. lia.
Qed.

Lemma GetField_bounded_stable n : ∀ m element fieldName,
  Value_height element < n → n ≤ m →
  GetField_bounded n element fieldName = GetField_bounded m element fieldName.
Proof.
  induction n as [|n IH]; intros m element fieldName Hn Hm; [lia|].
  destruct m as [|m]; [lia|]. simpl. unfold GetField_body.
  apply (GetField_names_ext _ _ (Value_height element)); [|done].
  intros e name He. apply IH; lia.
Qed.

Lemma GetField_unfold element fieldName :
  GetField element fieldName = GetField_body GetField element fieldName.
Proof.
  unfold GetField at 1. simpl. unfold GetField_body.
  apply (GetField_names_ext _ _ (Value_height element)); [|done].
  intros e name He. unfold GetField. symmetry.
  apply GetField_bounded_stable; lia.
Qed.

End GetField_facts.

Section GetField_total.
Import reflect.
Implicit Types (rec : Value → string → result Value).

Lemma GetField_names_not_exhausted rec h names :
  (∀ e name, Value_height e < h → rec e name ≠ Exhausted) →
  ∀ element, Value_height element ≤ h →
  GetField_names rec element names ≠ Exhausted.
Proof.
  intros Hrec. induction names as [|name names IH]; intros element Hh; [done|].
  cbn [GetField_names].
  assert (∀ e, match Kind_of element with
               | Ptr => Elem element | _ => Ok element end = Ok e →
               Value_height e ≤ h) as Hr.
  { intros e He. destruct (Kind_of element);
      try (injection He as <-; exact Hh).
    apply Elem_height in He. by etrans. }
  assert (match Kind_of element with
          | Ptr => Elem element | _ => Ok element end ≠ Exhausted) as Hne.
  { destruct (Kind_of element); try done. apply Elem_not_exhausted. }
  destruct (match Kind_of element with
            | Ptr => Elem element | _ => Ok element end) as [e| |];
    [|done..].
  specialize (Hr e eq_refl). cbn [mbind result_bind].
  assert (∀ e', FieldByName e name = Ok e' → Value_height e' ≤ h) as Hf.
  { intros e' He'. apply FieldByName_height in He'. by etrans. }
  pose proof (FieldByName_not_exhausted e name) as Hfn.
  destruct (Kind_of e);
    try (destruct (FieldByName e name) as [e'| |]; [|done..];
         cbn [mbind result_bind]; by apply IH, Hf).
  unfold GetField_subElements.
  pose proof (Len_not_exhausted e) as Hlen.
  destruct (Len e) as [len| |]; [|done..]. cbn [mbind result_bind].
  match goal with |- context [foldlM ?f [] (seq 0 len)] =>
    pose proof (foldlM_not_exhausted f (seq 0 len)) as Hsub end.
  match type of Hsub with ?P → _ => assert P as HP end.
  { intros acc i _. pose proof (Index_not_exhausted e i) as Hi.
    destruct (Index e i) as [x| |] eqn:Hx; [|done..].
    cbn [mbind result_bind].
    assert (rec x name ≠ Exhausted) as Hx'.
    { apply Hrec. apply Index_height in Hx. lia. }
    by destruct (rec x name). }
  specialize (Hsub HP []).
  destruct (foldlM _ [] (seq 0 len)) as [subs| |]; [|done..].
  cbn [mbind result_bind]. unfold GetField_result.
  match goal with |- context [foldlM ?f [] subs] =>
    pose proof (foldlM_not_exhausted f subs) as Hres end.
  match type of Hres with ?P → _ => assert P as HQ end.
  { intros acc v _. pose proof (Value_Interface_not_exhausted v).
    by destruct (Value_Interface v). }
  specialize (Hres HQ []).
  by destruct (foldlM _ [] subs).
Qed.

Lemma GetField_bounded_not_exhausted n : ∀ element fieldName,
  Value_height element < n →
  GetField_bounded n element fieldName ≠ Exhausted.
Proof.
  induction n as [|n IH]; intros element fieldName Hn; [lia|].
  simpl. unfold GetField_body.
  apply (GetField_names_not_exhausted _ (Value_height element)); [|done].
  intros e name He. apply IH. lia.
Qed.

(** [GetField] returns or panics: the bound on the nesting of its
    recursive calls is never reached. *)
Lemma GetField_total element fieldName :
  GetField element fieldName ≠ Exhausted.
Proof. apply GetField_bounded_not_exhausted. lia. Qed.

End GetField_total.

Section GetField_broadcast.
Import reflect.
Implicit Types (rec : Value → string → result Value).



(** A slice met by the loop of [GetField] ends the walk whatever
    segments follow the current one. *)
Lemma GetField_names_slice_rest rec element name rest rest' :
  Kind_of element = Slice →
  GetField_names rec element (name :: rest)
  = GetField_names rec element (name :: rest').
Proof.
  intros Hk. cbn [GetField_names]. rewrite Hk.
  cbn [mbind result_bind]. by rewrite Hk.
Qed.

End GetField_broadcast.

(** C3.  On an order whose [Items] is a slice, the path
    [Items.Price.Amount] resolves to the prices, the result of
    [Items.Price]: the segment [Amount] that follows the broadcast is
    dropped, although [Price.Amount] resolves on every item. *)
Theorem GetField_drops_segments_after_slice :
  GetField (reflect.ValueOf (Some Examples.order)) "Items.Price.Amount"
  = Ok (reflect.ValueOf (Some (reflect.VSlice
          [reflect.VInterface (Some (Examples.money 5));
           reflect.VInterface (Some (Examples.money 7))]))) ∧
  GetField (reflect.ValueOf (Some Examples.order)) "Items.Price.Amount"
  = GetField (reflect.ValueOf (Some Examples.order)) "Items.Price" ∧
  GetField (reflect.ValueOf (Some (Examples.item "a" 5))) "Price.Amount"
  = Ok (reflect.ValueOf (Some (reflect.VInt 5))) ∧
  GetField (reflect.ValueOf (Some (Examples.item "b" 7))) "Price.Amount"
  = Ok (reflect.ValueOf (Some (reflect.VInt 7))).
Proof. repeat split; vm_compute; reflexivity. Qed.

(** C5.  A missing segment that is followed by another one makes
    [GetField] panic: [FieldByName] is called on the zero [Value] that
    the missing field gave.  A missing last segment gives the zero
    [Value]. *)
Theorem GetField_panics_after_missing_segment :
  GetField (reflect.ValueOf (Some (Examples.person "Alice" 30))) "Missing.Sub"
  = Panic "reflect: call of reflect.Value.FieldByName on a non-struct Value" ∧
  GetField (reflect.ValueOf (Some (Examples.person "Alice" 30))) "Missing"
  = Ok reflect.zero.
Proof. split; vm_compute; reflexivity. Qed.

Section store_facts.
Context {T : Type}.
Implicit Types (h : gmap nat (list T)) (l : list T) (lt : T → T → bool).

Lemma less_by_insert lt x i j h l vi vj :
  l !! i = Some vi → l !! j = Some vj →
  less_by lt x i j (<[x := l]> h) = Ok (lt vi vj).
Proof.
  intros Hi Hj. unfold less_by, index.
  rewrite lookup_insert_eq, Hi. simpl. by rewrite Hj.
Qed.

Lemma Swapper_insert x i j h l vi vj :
  l !! i = Some vi → l !! j = Some vj →
  Swapper x i j (<[x := l]> h)
  = Ok (<[x := <[j := vi]> (<[i := vj]> l)]> h).
Proof.
  intros Hi Hj. unfold Swapper, index.
  rewrite lookup_insert_eq, Hi. simpl. rewrite Hj. simpl.
  by rewrite insert_insert_eq.
Qed.

End store_facts.

Section isort_facts.
Context {T : Type}.
Variable lt : T → T → bool.

Lemma insert_rev_length v r : length (insert_rev lt v r) = S (length r).
Proof.
  induction r as [|y r IH]; [done|]. simpl.
  destruct (lt v y); simpl; by rewrite ?IH.
Qed.

Lemma insert_rev_perm v r : insert_rev lt v r ≡ₚ v :: r.
Proof.
  induction r as [|y r IH]; [done|]. simpl.
  destruct (lt v y); [|done]. rewrite IH. apply Permutation_swap.
Qed.

Lemma isort_rev_snoc l v : isort_rev lt (l ++ [v]) = insert_rev lt v (isort_rev lt l).
Proof. unfold isort_rev. by rewrite foldl_app. Qed.

Lemma isort_rev_perm l : isort_rev lt l ≡ₚ l.
Proof.
  induction l as [|v l IH] using rev_ind; [done|].
  rewrite isort_rev_snoc, insert_rev_perm, IH.
  by rewrite Permutation_app_comm.
Qed.

Lemma isort_rev_length l : length (isort_rev lt l) = length l.
Proof. by rewrite isort_rev_perm. Qed.

(** The inner loop of the insertion sort on the slice at [x], started
    at index [j = length r] with the prefix [reverse r] and the
    element [v] at [j]. *)
Lemma insertionSort_inner_spec (x : nat) (h : gmap nat (list T)) :
  ∀ (r : list T) (v : T) (suffix : list T),
    sort.insertionSort_inner
      (sort.mkLessSwap (less_by lt x) (Swapper x)) 0 (length r)
      (<[x := reverse r ++ v :: suffix]> h)
    = Ok (<[x := reverse (insert_rev lt v r) ++ suffix]> h).
Proof.
  induction r as [|y r IH]; intros v suffix; [done|].
  cbn [length sort.insertionSort_inner sort.Less sort.Swap].
  replace (0 <? S (length r))%nat with true by done.
  assert ((reverse (y :: r) ++ v :: suffix) !! S (length r) = Some v) as Hv.
  { rewrite lookup_app_r; rewrite length_reverse; simpl; [|lia].
    by rewrite Nat.sub_diag. }
  assert ((reverse (y :: r) ++ v :: suffix) !! length r = Some y) as Hy.
  { rewrite lookup_app_l; [|rewrite length_reverse; simpl; lia].
    rewrite reverse_cons, lookup_app_r; rewrite length_reverse; [|lia].
    by rewrite Nat.sub_diag. }
  rewrite (less_by_insert lt x _ _ h _ v y Hv Hy).
  cbn [mbind result_bind]. simpl insert_rev. destruct (lt v y) eqn:Hlt.
  - rewrite (Swapper_insert x _ _ h _ v y Hv Hy). cbn [mbind result_bind].
    assert (<[length r := v]> (<[S (length r) := y]>
              (reverse (y :: r) ++ v :: suffix))
            = reverse r ++ v :: y :: suffix) as ->.
    { rewrite reverse_cons, <- app_assoc. simpl.
      rewrite insert_app_r_alt; rewrite length_reverse; [|lia].
      replace (S (length r) - length r) with 1 by lia. simpl.
      rewrite insert_app_r_alt; rewrite length_reverse; [|lia].
      by rewrite Nat.sub_diag. }
    rewrite IH. by rewrite reverse_cons, <- app_assoc.
  - by rewrite (reverse_cons _ v), <- app_assoc.
Qed.

(** The outer loop, from index [i] on. *)
Lemma insertionSort_outer_spec (x : nat) (h : gmap nat (list T)) :
  ∀ (todo : list T) (r : list T),
    foldlM (λ σ i, sort.insertionSort_inner
                     (sort.mkLessSwap (less_by lt x) (Swapper x)) 0 i σ)
           (<[x := reverse r ++ todo]> h)
           (seq (length r) (length todo))
    = Ok (<[x := reverse (foldl (λ r v, insert_rev lt v r) r todo)]> h).
Proof.
  induction todo as [|v todo IH]; intros r.
  - simpl. by rewrite app_nil_r.
  - cbn [length seq foldlM foldl].
    rewrite insertionSort_inner_spec. cbn [mbind result_bind].
    specialize (IH (insert_rev lt v r)). rewrite insert_rev_length in IH.
    apply IH.
Qed.

Lemma insertionSortLessFunc_spec (x : nat) (h : gmap nat (list T)) l :
  sort.insertionSortLessFunc
    (sort.mkLessSwap (less_by lt x) (Swapper x)) 0 (length l)
    (<[x := l]> h)
  = Ok (<[x := isort lt l]> h).
Proof.
  unfold sort.insertionSortLessFunc. destruct l as [|v l]; [done|].
  simpl length. replace (S (length l) - (0 + 1)) with (length l) by lia.
  change (0 + 1) with (length [v]).
  change (v :: l) with (reverse [v] ++ l) at 1.
  by rewrite insertionSort_outer_spec.
Qed.

(** Up to twelve elements [Sort] is the insertion sort, in place. *)
Lemma Sort_insertion (x : nat) (h : gmap nat (list T)) l :
  h !! x = Some l → length l ≤ 12 →
  Sort x (less_by lt x) h = Ok (x, <[x := isort lt l]> h).
Proof.
  intros Hx Hlen. unfold Sort, sort_Slice, Len. rewrite Hx.
  cbn [mbind result_bind]. unfold sort.pdqsortLessFunc.
  cbn [sort.pdqsort_loop]. rewrite Nat.sub_0_r.
  replace (length l <=? 12)%nat with true by (symmetry; by apply Nat.leb_le).
  rewrite <- (insert_id h x l Hx) at 1.
  by rewrite insertionSortLessFunc_spec.
Qed.

End isort_facts.

(** ** Stability of the insertion path *)

Section stability.
Context {T : Type}.
Variable lt : T → T → bool.

Lemma insert_rev_fmap (v : nat * T) (r : list (nat * T)) :
  (insert_rev (lt_tagged lt) v r).*2 = insert_rev lt v.2 (r.*2).
Proof.
  induction r as [|y r IH]; [done|]. cbn [insert_rev fmap list_fmap].
  unfold lt_tagged at 1.
  destruct (lt v.2 y.2); cbn [fmap list_fmap]; [|done].
  f_equal. apply IH.
Qed.

Lemma isort_rev_fmap (tl : list (nat * T)) :
  (isort_rev (lt_tagged lt) tl).*2 = isort_rev lt (tl.*2).
Proof.
  induction tl as [|v tl IH] using rev_ind; [done|].
  rewrite fmap_app. cbn [fmap list_fmap].
  by rewrite !isort_rev_snoc, insert_rev_fmap, IH.
Qed.

Lemma insert_rev_tied_later (v : nat * T) (r : list (nat * T)) :
  StronglySorted (tied_later lt) r →
  Forall (λ z, z.1 < v.1) r →
  StronglySorted (tied_later lt) (insert_rev (lt_tagged lt) v r).
Proof.
  induction r as [|y r IH]; intros Hsorted Hbound; simpl.
  - repeat constructor.
  - apply StronglySorted_cons in Hsorted as [Hy Hr].
    apply Forall_cons in Hbound as [Hyv Hrv].
    unfold lt_tagged at 1. destruct (lt v.2 y.2) eqn:Hlt.
    + apply StronglySorted_cons. split; [|by apply IH].
      rewrite insert_rev_perm. apply Forall_cons. split; [|done].
      intros _ Hvy. congruence.
    + apply StronglySorted_cons. split.
      * apply Forall_cons. split; [by intros _ _|].
        eapply Forall_impl; [exact Hrv|]. by intros z Hz _ _.
      * by apply StronglySorted_cons.
Qed.

Lemma isort_rev_tied_later (l : list T) :
  StronglySorted (tied_later lt) (isort_rev (lt_tagged lt) (imap (λ i v, (i, v)) l)).
Proof.
  induction l as [|v l IH] using rev_ind; [constructor|].
  rewrite imap_app. simpl. rewrite isort_rev_snoc.
  apply insert_rev_tied_later; [done|].
  rewrite isort_rev_perm. apply Forall_forall. intros z Hz.
  apply elem_of_lookup_imap_1 in Hz as (i & x & -> & Hi).
  simpl. apply lookup_lt_Some in Hi. lia.
Qed.

Lemma StronglySorted_lookup {A} (R : relation A) (l : list A) i j a b :
  StronglySorted R l → i < j → l !! i = Some a → l !! j = Some b → R a b.
Proof.
  intros Hl. revert i j. induction Hl as [|x l Hl IH Hx]; intros i j Hij Ha Hb.
  - done.
  - destruct j as [|j]; [lia|]. destruct i as [|i]; simplify_eq/=.
    + eapply Forall_forall; [exact Hx|]. by eapply list_elem_of_lookup_2.
    + apply (IH i j); [lia|done..].
Qed.

(** The insertion sort is a stable rearrangement, for every
    comparator. *)
Lemma isort_stable (l : list T) : stable_rearrangement lt l (isort lt l).
Proof.
  exists (isort (lt_tagged lt) (imap (λ i v, (i, v)) l)). split; [|split].
  - unfold isort. by rewrite reverse_Permutation, isort_rev_perm.
  - unfold isort. rewrite fmap_reverse, isort_rev_fmap. do 2 f_equal.
    rewrite fmap_imap. clear. induction l as [|v l IH] using rev_ind; [done|].
    rewrite imap_app. cbn [imap]. by rewrite <- IH.
  - intros p q i j vi vj Hpq Hp Hq Hij Hji. unfold isort in Hp, Hq.
    apply reverse_lookup_Some in Hp as [Hp Hplen].
    apply reverse_lookup_Some in Hq as [Hq Hqlen].
    refine (StronglySorted_lookup (tied_later lt) _ _ _ (j, vj) (i, vi)
              (isort_rev_tied_later l) _ Hq Hp Hji Hij).
    lia.
Qed.

End stability.

(** C2 as amended.  For a slice of at most twelve elements and every
    comparator, [Sort] leaves in the slice, and returns, a stable
    rearrangement of its elements: tied elements keep their original
    relative order. *)
Theorem Sort_stable_up_to_12 {T} (lt : T → T → bool)
    (x : nat) (h : gmap nat (list T)) (l : list T) :
  h !! x = Some l → length l ≤ 12 →
  ∃ l', Sort x (less_by lt x) h = Ok (x, <[x := l']> h) ∧
        stable_rearrangement lt l l'.
Proof.
  intros Hx Hlen. exists (isort lt l). split.
  - by apply Sort_insertion.
  - apply isort_stable.
Qed.

Lemma Sort_stable_up_to_12_witness :
  ∃ l', Sort 0 (less_by Examples.by_score 0) {[0 := Examples.three]}
        = Ok (0, <[0 := l']> {[0 := Examples.three]}) ∧
        stable_rearrangement Examples.by_score Examples.three l'.
Proof.
  apply Sort_stable_up_to_12; [reflexivity | simpl; lia].
Defined.

Example Sort_three :
  Sort 0 (less_by Examples.by_score 0) {[0 := Examples.three]}
  = Ok (0, {[0 := [("c", 0); ("a", 1); ("b", 1)]]}).
Proof. vm_compute. reflexivity. Qed.

(** C2 fails on Examples.thirteen elements: twelve records tied at score 1
    followed by one of score 0.  The partition step of the quicksort
    exchanges tied records: [g] and [c] come out in the opposite of
    their original order. *)
Lemma Sort_not_stable_on_13 :
  ∃ l', Sort 0 (less_by Examples.by_score 0) {[0 := Examples.thirteen]} = Ok (0, {[0 := l']}) ∧
        ¬ stable_rearrangement Examples.by_score Examples.thirteen l'.
Proof.
  exists [("m", 0); ("g", 1); ("c", 1); ("d", 1); ("e", 1); ("f", 1);
          ("a", 1); ("h", 1); ("i", 1); ("j", 1); ("k", 1); ("l", 1);
          ("b", 1)].
  split; [vm_compute; reflexivity|].
  intros (tagged & Hperm & Hout & Hord).
  assert (∀ p v, tagged.*2 !! p = Some v →
            ∃ i, tagged !! p = Some (i, v) ∧ Examples.thirteen !! i = Some v) as Hpos.
  { intros p v Hp. rewrite list_lookup_fmap in Hp.
    destruct (tagged !! p) as [[i v']|] eqn:Htp; [|done].
    injection Hp as <-. exists i. split; [done|].
    apply list_elem_of_lookup_2 in Htp. rewrite Hperm in Htp.
    apply elem_of_lookup_imap_1 in Htp as (i' & x & Heq & Hi). by simplify_eq. }
  rewrite <- Hout in Hpos.
  destruct (Hpos 1 ("g", 1) eq_refl) as (i & Hi & Hgi).
  destruct (Hpos 2 ("c", 1) eq_refl) as (j & Hj & Hcj).
  assert (i = 6) as ->.
  { do 13 (destruct i as [|i]; [by simplify_eq/=|]). done. }
  assert (j = 2) as ->.
  { do 13 (destruct j as [|j]; [by simplify_eq/=|]). done. }
  specialize (Hord 1 2 6 2 _ _ (Nat.lt_succ_diag_r 1) Hi Hj eq_refl eq_refl).
  lia.
Qed.

(** C4.  [Sort] works in place: after the call the caller's slice
    holds the sorted elements, not the elements in their order before
    the call, and the slice returned is the caller's slice itself. *)
Theorem Sort_mutates_its_input :
  Sort 0 (less_by Nat.ltb 0) {[0 := [5; 2; 8; 1; 9]]}
  = Ok (0, {[0 := [1; 2; 5; 8; 9]]}) ∧
  index 0 0 ({[0 := [5; 2; 8; 1; 9]]} : gmap nat (list nat)) = Ok 5 ∧
  ('(_, h) ← Sort 0 (less_by Nat.ltb 0) {[0 := [5; 2; 8; 1; 9]]};
   index 0 0 h) = Ok 1.
Proof. repeat split; vm_compute; reflexivity. Qed.

Section grouping_facts.
Context `{Countable K} {V : Type}.
Variable reflect_V : V → reflect.GoValue.
Variable assert_K : option reflect.GoValue → option K.
Variable range_order : gmap K (list V) → list (K * list V).
Hypothesis range_order_perm : ∀ m, range_order m ≡ₚ map_to_list m.

Lemma GroupBy_loop_group fieldName (slice : list V) (keys : list K) :
  Forall2 (resolves_to reflect_V assert_K fieldName) slice keys →
  ∀ acc, GroupBy_loop reflect_V assert_K fieldName slice acc
         = Ok (Some (group_into acc (zip keys slice)), None).
Proof.
  induction 1 as [|item key slice keys (fv & i & Hget & Hvalid & Hi & Hkey) _ IH];
    intros acc; [done|].
  cbn [GroupBy_loop]. rewrite Hget. cbn [mbind result_bind].
  rewrite Hvalid. cbn [negb]. rewrite Hi. cbn [mbind result_bind].
  rewrite Hkey. by rewrite IH.
Qed.

Lemma lookup_group_into (kvs : list (K * V)) : ∀ (acc : gmap K (list V)) k,
  group_into acc kvs !! k
  = match (filter (λ kv, kv.1 = k) kvs).*2 with
    | [] => acc !! k
    | vs => Some (default [] (acc !! k) ++ vs)
    end.
Proof.
  induction kvs as [|[k0 v0] kvs IH]; intros acc k; [done|].
  unfold group_into in *. cbn [foldl fst snd]. rewrite IH.
  rewrite filter_cons. cbn [fst]. destruct (decide (k0 = k)) as [->|Hne].
  - rewrite lookup_insert_eq. cbn [fmap list_fmap snd default].
    destruct ((filter (λ kv, kv.1 = k) kvs).*2) as [|v vs]; [done|].
    unfold id. by rewrite <- app_assoc.
  - by rewrite lookup_insert_ne.
Qed.

Lemma filter_key_nil (kvs : list (K * V)) k :
  k ∉ kvs.*1 → filter (λ kv, kv.1 = k) kvs = [].
Proof.
  induction kvs as [|[k0 v0] kvs IH]; intros Hk; [done|].
  cbn [fmap list_fmap fst] in Hk. apply not_elem_of_cons in Hk as [Hne Hk].
  rewrite filter_cons. cbn [fst]. rewrite decide_False by done. by apply IH.
Qed.

Lemma filter_key_NoDup (kvs : list (K * V)) k :
  NoDup kvs.*1 → length (filter (λ kv, kv.1 = k) kvs) ≤ 1.
Proof.
  induction kvs as [|[k0 v0] kvs IH]; intros Hnd; [simpl; lia|].
  cbn [fmap list_fmap fst] in Hnd. apply NoDup_cons in Hnd as [Hk0 Hnd].
  rewrite filter_cons. cbn [fst]. destruct (decide (k0 = k)) as [->|Hne].
  - rewrite (filter_key_nil _ _ Hk0). simpl. lia.
  - by apply IH.
Qed.

Lemma filter_key_dup (kvs : list (K * V)) :
  ¬ NoDup kvs.*1 → ∃ k, 2 ≤ length (filter (λ kv, kv.1 = k) kvs).
Proof.
  induction kvs as [|[k0 v0] kvs IH]; intros Hnd.
  - destruct Hnd. constructor.
  - cbn [fmap list_fmap fst] in Hnd.
    destruct (decide (k0 ∈ kvs.*1)) as [Hin|Hnotin].
    + exists k0. rewrite filter_cons. cbn [fst]. rewrite decide_True by done.
      apply list_elem_of_fmap in Hin as ([k1 v1] & Heq & Hin).
      cbn [fst] in Heq. subst k0.
      assert ((k1, v1) ∈ filter (λ kv, kv.1 = k1) kvs) as Hf.
      { apply list_elem_of_filter. by split. }
      destruct (filter (λ kv, kv.1 = k1) kvs); [by apply elem_of_nil in Hf|].
      simpl. lia.
    + destruct IH as [k Hk].
      { intros Hnd'. apply Hnd. by apply NoDup_cons. }
      exists k. rewrite filter_cons. destruct (decide _); simpl; lia.
Qed.

Lemma GroupBy1By1_unique_ok fieldName (entries : list (K * list V)) :
  NoDup entries.*1 →
  Forall (λ kv, length kv.2 = 1) entries →
  ∀ acc, ∃ m,
    GroupBy1By1_unique fieldName entries acc = Ok (Some m, None) ∧
    ∀ k, m !! k = match (list_to_map entries : gmap K (list V)) !! k with
                  | Some (v :: _) => Some v
                  | _ => acc !! k
                  end.
Proof.
  induction entries as [|[k0 value] entries IH]; intros Hnd Hone acc.
  - exists acc. split; [done|]. intros k.
    change (list_to_map [] : gmap K (list V)) with (∅ : gmap K (list V)).
    by rewrite lookup_empty.
  - cbn [fmap list_fmap fst] in Hnd. apply NoDup_cons in Hnd as [Hk0 Hnd].
    apply Forall_cons in Hone as [Hvalue Hone]. cbn [snd] in Hvalue.
    destruct value as [|v0 [|? ?]]; try done.
    destruct (IH Hnd Hone (<[k0 := v0]> acc)) as (m & Hm & Hlookup).
    exists m. split; [exact Hm|]. intros k. rewrite Hlookup.
    cbn [list_to_map foldr uncurry]. 
    destruct (decide (k0 = k)) as [->|Hne].
    + rewrite (not_elem_of_list_to_map_1 _ _ Hk0).
      by rewrite !lookup_insert_eq.
    + by rewrite !lookup_insert_ne.
Qed.

Lemma GroupBy1By1_unique_err fieldName (entries : list (K * list V)) :
  Exists (λ kv, 1 < length kv.2) entries →
  Forall (λ kv, kv.2 ≠ []) entries →
  ∀ acc, GroupBy1By1_unique fieldName entries acc
         = Ok (None, Some (is_not_unique fieldName)).
Proof.
  induction entries as [|[k0 value] entries IH]; intros Hex Hne acc.
  - by apply Exists_nil in Hex.
  - apply Forall_cons in Hne as [Hvalue Hne]. cbn [snd] in Hvalue.
    cbn [GroupBy1By1_unique].
    destruct (1 <? length value)%nat eqn:Hlen; [done|].
    apply Nat.ltb_ge in Hlen.
    apply Exists_cons in Hex as [Hex|Hex]; [cbn [snd] in Hex; lia|].
    destruct value as [|v0 ?]; [done|]. by apply IH.
Qed.

(** C6.  Let every element resolve the path to a key.  If some key is
    shared by two elements the call fails with the error that names
    the path as not unique and returns a nil map; if the keys are all
    different it returns the map from each key to its element.  This
    holds for every order in which the map of groups is ranged
    over. *)
Theorem GroupBy1By1_unique_or_error
    (slice : list V) (fieldName : string) (keys : list K) :
  Forall2 (resolves_to reflect_V assert_K fieldName) slice keys →
  (¬ NoDup keys →
     GroupBy1By1 reflect_V assert_K range_order slice fieldName
     = Ok (None, Some (errors.New ("groupBy: field " +:+ fieldName
                                     +:+ " is not unique")))) ∧
  (NoDup keys →
     GroupBy1By1 reflect_V assert_K range_order slice fieldName
     = Ok (Some (list_to_map (zip keys slice)), None)).
Proof.
  intros Hres. pose proof (Forall2_length _ _ _ Hres) as Hlen.
  unfold GroupBy1By1. rewrite (GroupBy_loop_group _ _ _ Hres).
  cbn [mbind result_bind].
  set (kvs := zip keys slice). set (grouped := group_into ∅ kvs).
  assert (kvs.*1 = keys) as Hkeys by (apply fst_zip; lia).
  assert (∀ k, grouped !! k
               = match (filter (λ kv, kv.1 = k) kvs).*2 with
                 | [] => None | vs => Some vs end) as Hgrouped.
  { intros k. unfold grouped. rewrite lookup_group_into, lookup_empty.
    by destruct ((filter (λ kv, kv.1 = k) kvs).*2). }
  assert (NoDup (range_order grouped).*1) as Hnd.
  { rewrite range_order_perm. apply NoDup_fst_map_to_list. }
  assert (list_to_map (range_order grouped) = grouped) as Hmap.
  { rewrite <- (list_to_map_to_list grouped) at 2.
    by apply list_to_map_proper. }
  split; intros Hdup.
  - apply GroupBy1By1_unique_err.
    + rewrite <- Hkeys in Hdup. apply filter_key_dup in Hdup as [k Hk].
      rewrite range_order_perm. apply Exists_exists.
      exists (k, (filter (λ kv, kv.1 = k) kvs).*2). split.
      * apply elem_of_map_to_list. rewrite Hgrouped.
        destruct (filter (λ kv, kv.1 = k) kvs); [simpl in Hk; lia|done].
      * cbn [snd]. rewrite length_fmap. lia.
    + rewrite range_order_perm. apply Forall_forall. intros [k vs] Hin.
      apply elem_of_map_to_list in Hin. rewrite Hgrouped in Hin.
      cbn [snd]. by destruct ((filter (λ kv, kv.1 = k) kvs).*2); simplify_eq.
  - destruct (GroupBy1By1_unique_ok fieldName (range_order grouped) Hnd)
      with (acc := (∅ : gmap K V)) as (m & -> & Hm).
    + rewrite range_order_perm. apply Forall_forall. intros [k vs] Hin.
      apply elem_of_map_to_list in Hin. rewrite Hgrouped in Hin.
      cbn [snd]. rewrite <- Hkeys in Hdup.
      pose proof (filter_key_NoDup kvs k Hdup) as Hone.
      destruct (filter (λ kv, kv.1 = k) kvs) as [|kv [|? ?]];
        simplify_eq/=; [done|lia].
    + do 3 f_equal. apply map_eq. intros k. rewrite Hm, Hmap, Hgrouped.
      rewrite lookup_empty. rewrite <- Hkeys in Hdup.
      pose proof (filter_key_NoDup kvs k Hdup) as Hone.
      destruct (filter (λ kv, kv.1 = k) kvs) as [|[k' v] [|? ?]] eqn:Hf;
        cbn [fmap list_fmap snd]; [| |simpl in Hone; lia].
      * symmetry. apply not_elem_of_list_to_map_1. intros Hin.
        apply list_elem_of_fmap in Hin as ([k1 v1] & Heq & Hin).
        cbn [fst] in Heq. subst k.
        assert ((k1, v1) ∈ filter (λ kv, kv.1 = k1) kvs) as Hin'.
        { apply list_elem_of_filter. by split. }
        rewrite Hf in Hin'. by apply elem_of_nil in Hin'.
      * symmetry. apply elem_of_list_to_map_1; [done|].
        assert ((k', v) ∈ filter (λ kv, kv.1 = k) kvs) as Hin.
        { rewrite Hf. left. }
        apply list_elem_of_filter in Hin as [Hk' Hin]. by simplify_eq/=.
Qed.

End grouping_facts.

Lemma GroupBy1By1_unique_or_error_witness :
  GroupBy1By1 id Examples.assert_int map_to_list
    Examples.people_shared_age "Age"
  = Ok (None, Some (errors.New "groupBy: field Age is not unique")) ∧
  GroupBy1By1 id Examples.assert_int map_to_list
    Examples.people_distinct_age "Age"
  = Ok (Some (list_to_map
                (zip [30; 31; 25]%Z Examples.people_distinct_age)), None).
Proof.
  split.
  - refine (proj1 (GroupBy1By1_unique_or_error id Examples.assert_int
      map_to_list (λ m, reflexivity _) Examples.people_shared_age "Age"
      [30; 30; 25]%Z _) _).
    + repeat constructor; eexists _, _; repeat split; vm_compute; reflexivity.
    + intros Hnd. apply NoDup_cons in Hnd as [Hin _]. apply Hin. left.
  - refine (proj2 (GroupBy1By1_unique_or_error id Examples.assert_int
      map_to_list (λ m, reflexivity _) Examples.people_distinct_age "Age"
      [30; 31; 25]%Z _) _).
    + repeat constructor; eexists _, _; repeat split; vm_compute; reflexivity.
    + by apply (bool_decide_unpack (NoDup [30; 31; 25]%Z)).
Defined.

Section isort_sorted.
Context {T : Type}.
Variable lt : T → T → bool.
Hypothesis lt_asym : ∀ a b, lt a b = true → lt b a = false.
Hypothesis lt_negtrans :
  ∀ a b c, lt a b = false → lt b c = false → lt a c = false.

Lemma insert_rev_sorted (v : T) (r : list T) :
  StronglySorted (λ a b, lt a b = false) r →
  StronglySorted (λ a b, lt a b = false) (insert_rev lt v r).
Proof.
  induction r as [|y r IH]; intros Hr; simpl.
  - repeat constructor.
  - apply StronglySorted_cons in Hr as [Hy Hr].
    destruct (lt v y) eqn:Hlt.
    + apply StronglySorted_cons. split; [|by apply IH].
      rewrite insert_rev_perm. apply Forall_cons. split; [by apply lt_asym|done].
    + apply StronglySorted_cons. split; [|by apply StronglySorted_cons].
      apply Forall_cons. split; [done|].
      eapply Forall_impl; [exact Hy|]. intros z Hz. by eapply lt_negtrans.
Qed.

Lemma isort_rev_sorted (l : list T) :
  StronglySorted (λ a b, lt a b = false) (isort_rev lt l).
Proof.
  induction l as [|v l IH] using rev_ind; [constructor|].
  rewrite isort_rev_snoc. by apply insert_rev_sorted.
Qed.

Lemma StronglySorted_reverse {A} (R : relation A) (l : list A) :
  StronglySorted R l → StronglySorted (flip R) (reverse l).
Proof.
  induction 1 as [|x l Hl IH Hx]; [constructor|].
  rewrite reverse_cons. apply StronglySorted_app. split_and!.
  - intros y z Hy ->%list_elem_of_singleton.
    rewrite elem_of_reverse in Hy. unfold flip.
    eapply Forall_forall in Hx; [exact Hx|exact Hy].
  - done.
  - repeat constructor.
Qed.

Lemma isort_sorted (l : list T) :
  StronglySorted (λ a b, lt b a = false) (isort lt l).
Proof. apply (StronglySorted_reverse _ _ (isort_rev_sorted l)). Qed.

Lemma isort_perm (l : list T) : isort lt l ≡ₚ l.
Proof. unfold isort. by rewrite reverse_Permutation, isort_rev_perm. Qed.

End isort_sorted.

Lemma String_ltb_leb (s t : string) : String.ltb t s = negb (String.leb s t).
Proof.
  unfold String.ltb, String.leb. rewrite (String.compare_antisym s t).
  by destruct (String.compare t s).
Qed.

Lemma StronglySorted_mono {A} (R1 R2 : relation A) (l : list A) :
  (∀ a b, R1 a b → R2 a b) → StronglySorted R1 l → StronglySorted R2 l.
Proof.
  intros HR. induction 1 as [|x l Hl IH Hx]; constructor; [done|].
  eapply Forall_impl; [exact Hx|]. intros. by apply HR.
Qed.

(** Up to twelve elements, and for a comparator that is a strict weak
    order, [Sort] leaves the elements of the slice in ascending
    order. *)
Lemma Sort_sorts_up_to_12 {T} (lt : T → T → bool)
    (x : nat) (h : gmap nat (list T)) (l : list T) :
  (∀ a b, lt a b = true → lt b a = false) →
  (∀ a b c, lt a b = false → lt b c = false → lt a c = false) →
  h !! x = Some l → length l ≤ 12 →
  ∃ l', Sort x (less_by lt x) h = Ok (x, <[x := l']> h) ∧
        l' ≡ₚ l ∧ StronglySorted (λ a b, lt b a = false) l'.
Proof.
  intros Hasym Hneg Hx Hlen. exists (isort lt l). split_and!.
  - by apply Sort_insertion.
  - apply isort_perm.
  - by apply isort_sorted.
Qed.

(** ** Correctness of [sort.Slice] on slices of any length *)

Section ranges.
Context {T : Type} `{!Inhabited T}.
Implicit Types (l : list T) (a b i j k : nat).

Lemma swapl_length i j l : length (swapl i j l) = length l.
Proof. unfold swapl. by rewrite !length_insert. Qed.

Lemma swapl_lookup i j l k :
  i < length l → j < length l →
  swapl i j l !!! k
  = if decide (k = j) then l !!! i
    else if decide (k = i) then l !!! j else l !!! k.
Proof.
  intros Hi Hj. unfold swapl.
  destruct (decide (k = j)) as [->|Hkj].
  - rewrite list_lookup_total_insert_eq; [done|]. by rewrite length_insert.
  - rewrite list_lookup_total_insert_ne by done.
    destruct (decide (k = i)) as [->|Hki].
    + by rewrite list_lookup_total_insert_eq.
    + by rewrite list_lookup_total_insert_ne.
Qed.

Lemma swapl_perm i j l : i < length l → j < length l → swapl i j l ≡ₚ l.
Proof.
  intros Hi Hj. unfold swapl.
  apply Permutation_insert_swap; by apply list_lookup_lookup_total_lt.
Qed.

Lemma sub_length a b l : a ≤ b → b ≤ length l → length (sub a b l) = b - a.
Proof. intros. unfold sub. rewrite length_take, length_drop. lia. Qed.

Lemma sub_lookup a b l k :
  k < b - a → sub a b l !!! k = l !!! (a + k).
Proof.
  intros. unfold sub. rewrite lookup_total_take_lt by done.
  by rewrite lookup_total_drop.
Qed.

Lemma sub_split a c b l :
  a ≤ c → c ≤ b → sub a b l = sub a c l ++ sub c b l.
Proof.
  intros Hac Hcb. unfold sub.
  replace (b - a) with ((c - a) + (b - c)) by lia.
  rewrite <- take_take_drop. rewrite drop_drop.
  by replace (a + (c - a)) with c by lia.
Qed.

Lemma split_at a b l :
  a ≤ b → l = take a l ++ sub a b l ++ drop b l.
Proof.
  intros Hab. unfold sub.
  rewrite <- (take_drop a l) at 1. f_equal.
  rewrite <- (take_drop (b - a) (drop a l)) at 1. f_equal.
  rewrite drop_drop. by replace (a + (b - a)) with b by lia.
Qed.

Lemma sub_ext a b l l' :
  length l' = length l →
  (∀ k, a ≤ k → k < b → l' !!! k = l !!! k) → sub a b l' = sub a b l.
Proof.
  intros Hlen Heq. apply list_eq. intros k. unfold sub.
  destruct (decide (k < b - a)) as [Hk|Hk].
  - rewrite !lookup_take_lt, !lookup_drop by done.
    destruct (decide (a + k < length l)) as [Hin|Hout].
    + rewrite !list_lookup_lookup_total_lt by lia. f_equal. apply Heq; lia.
    + rewrite !lookup_ge_None_2 by lia. done.
  - by rewrite !lookup_take_ge by lia.
Qed.

Lemma take_ext a l l' :
  length l' = length l →
  (∀ k, k < a → l' !!! k = l !!! k) → take a l' = take a l.
Proof.
  intros Hlen Heq. apply list_eq. intros k.
  destruct (decide (k < a)) as [Hk|Hk].
  - rewrite !lookup_take_lt by done.
    destruct (decide (k < length l)) as [Hin|Hout].
    + rewrite !list_lookup_lookup_total_lt by lia. f_equal. by apply Heq.
    + rewrite !lookup_ge_None_2 by lia. done.
  - by rewrite !lookup_take_ge by lia.
Qed.

Lemma drop_ext b l l' :
  length l' = length l →
  (∀ k, b ≤ k → l' !!! k = l !!! k) → drop b l' = drop b l.
Proof.
  intros Hlen Heq. apply list_eq. intros k. rewrite !lookup_drop.
  destruct (decide (b + k < length l)) as [Hin|Hout].
  - rewrite !list_lookup_lookup_total_lt by lia. f_equal. apply Heq. lia.
  - rewrite !lookup_ge_None_2 by lia. done.
Qed.

(** A rearrangement of the whole list that leaves the outside of
    [[a, b)] alone rearranges [l[a:b]]. *)
Lemma perm_in_intro a b l l' :
  a ≤ b → l' ≡ₚ l →
  (∀ k, k < a ∨ b ≤ k → l' !!! k = l !!! k) →
  perm_in a b l l'.
Proof.
  intros Hab Hperm Hframe.
  assert (length l' = length l) as Hlen by by rewrite Hperm.
  split_and!; [done..|].
  rewrite (split_at a b l Hab), (split_at a b l' Hab) in Hperm.
  rewrite (take_ext a l l'), (drop_ext b l l') in Hperm by auto.
  apply Permutation_app_inv_l in Hperm.
  by apply Permutation_app_inv_r in Hperm.
Qed.

Lemma perm_in_refl a b l : perm_in a b l l.
Proof. by split_and!. Qed.

Lemma perm_in_trans a b l1 l2 l3 :
  perm_in a b l1 l2 → perm_in a b l2 l3 → perm_in a b l1 l3.
Proof.
  intros (Hlen1 & Hf1 & Hp1) (Hlen2 & Hf2 & Hp2). split_and!.
  - congruence.
  - intros k Hk. rewrite Hf2, Hf1; done.
  - by rewrite Hp2.
Qed.

Lemma perm_in_perm a b l l' : a ≤ b → perm_in a b l l' → l' ≡ₚ l.
Proof.
  intros Hab (Hlen & Hf & Hp).
  rewrite (split_at a b l Hab), (split_at a b l' Hab).
  rewrite (take_ext a l l'), (drop_ext b l l') by auto.
  by rewrite Hp.
Qed.

Lemma perm_in_mono a b a' b' l l' :
  a ≤ a' → a' ≤ b' → b' ≤ b →
  perm_in a' b' l l' → perm_in a b l l'.
Proof.
  intros Ha Hab Hb Hp. pose proof Hp as (Hlen & Hf & _).
  apply perm_in_intro; [lia| |].
  - by apply (perm_in_perm a' b').
  - intros k Hk. apply Hf. lia.
Qed.

Lemma swapl_perm_in a b i j l :
  a ≤ i → i < b → a ≤ j → j < b → b ≤ length l →
  perm_in a b l (swapl i j l).
Proof.
  intros. apply perm_in_intro; [lia|apply swapl_perm; lia|].
  intros k Hk. rewrite swapl_lookup by lia.
  repeat case_decide; first [done | exfalso; lia].
Qed.

Lemma all_in_sub a b (P : T → Prop) l :
  a ≤ b → b ≤ length l → all_in a b P l ↔ Forall P (sub a b l).
Proof.
  intros Hab Hb. rewrite Forall_lookup. split.
  - intros Hall k v Hk.
    assert (k < b - a) as Hlt.
    { apply lookup_lt_Some in Hk. by rewrite sub_length in Hk. }
    apply list_lookup_total_correct in Hk as <-.
    rewrite sub_lookup by done. apply Hall; lia.
  - intros Hall k Hak Hkb. replace k with (a + (k - a)) by lia.
    rewrite <- (sub_lookup a b) by lia. apply (Hall (k - a)).
    apply list_lookup_lookup_total_lt. rewrite sub_length; lia.
Qed.

Lemma perm_in_all_in a b (P : T → Prop) l l' :
  a ≤ b → b ≤ length l →
  perm_in a b l l' → all_in a b P l → all_in a b P l'.
Proof.
  intros Hab Hb (Hlen & Hf & Hp) Hall.
  apply all_in_sub; [done|lia|]. rewrite Hp. by apply all_in_sub.
Qed.

Lemma perm_in_all_in_outside a b c d (P : T → Prop) l l' :
  (d ≤ a ∨ b ≤ c) →
  perm_in a b l l' → all_in c d P l → all_in c d P l'.
Proof.
  intros Hdisj (Hlen & Hf & Hp) Hall k Hck Hkd.
  rewrite Hf by lia. by apply Hall.
Qed.

End ranges.

Section pdq_partition.
Context {T : Type} `{!Inhabited T}.
Variable lt : T → T → bool.
Variable x : nat.
Variable h0 : gmap nat (list T).

Local Abbreviation D := (sort.mkLessSwap (less_by lt x) (Swapper x)).
Local Abbreviation st l := (<[x := l]> h0).

Implicit Types (l : list T) (a b i j k : nat).

Local Ltac lia_false := first [lia | exfalso; lia].

Lemma Less_st i j l :
  i < length l → j < length l →
  sort.Less D i j (st l) = Ok (lt (l !!! i) (l !!! j)).
Proof.
  intros Hi Hj. cbn [sort.Less].
  apply less_by_insert; by apply list_lookup_lookup_total_lt.
Qed.

Lemma Swap_st i j l :
  i < length l → j < length l →
  sort.Swap D i j (st l) = Ok (st (swapl i j l)).
Proof.
  intros Hi Hj. cbn [sort.Swap].
  apply Swapper_insert; by apply list_lookup_lookup_total_lt.
Qed.

Lemma scan_up_spec fuel : ∀ a i j l,
  a < length l → j < length l → i ≤ j + 1 → j + 1 - i < fuel →
  ∃ i', sort.scan_up D fuel a i j (st l) = Ok i' ∧
        i ≤ i' ∧ i' ≤ j + 1 ∧
        all_in i i' (λ v, lt v (l !!! a) = true) l ∧
        (i' ≤ j → lt (l !!! i') (l !!! a) = false).
Proof.
  induction fuel as [|fuel IH]; intros a i j l Ha Hj Hij Hfuel; [lia|].
  cbn [sort.scan_up]. destruct (i <=? j)%nat eqn:Hle.
  - apply Nat.leb_le in Hle. rewrite Less_st by lia. cbn [mbind result_bind].
    destruct (lt (l !!! i) (l !!! a)) eqn:Hlt.
    + destruct (IH a (i + 1) j l) as (i' & -> & Hi1 & Hi2 & Hall & Hstop);
        [lia..|].
      exists i'. split_and!; [done|lia|lia| |done].
      intros k Hk1 Hk2. destruct (decide (k = i)) as [->|]; [done|].
      apply Hall; lia.
    + exists i. split_and!; [done|lia|lia| |done].
      intros k ? ?. lia.
  - apply Nat.leb_gt in Hle. exists i. split_and!; [done|lia|lia| |lia].
    intros k ? ?. lia.
Qed.

Lemma scan_down_spec fuel : ∀ a i j l,
  a < length l → j < length l → 1 ≤ i → i ≤ j + 1 → j + 1 - i < fuel →
  ∃ j', sort.scan_down D fuel a i j (st l) = Ok j' ∧
        j' ≤ j ∧ i ≤ j' + 1 ∧
        all_in (j' + 1) (j + 1) (λ v, lt v (l !!! a) = false) l ∧
        (i ≤ j' → lt (l !!! j') (l !!! a) = true).
Proof.
  induction fuel as [|fuel IH]; intros a i j l Ha Hj Hi Hij Hfuel; [lia|].
  cbn [sort.scan_down]. destruct (i <=? j)%nat eqn:Hle.
  - apply Nat.leb_le in Hle. rewrite Less_st by lia. cbn [mbind result_bind].
    destruct (lt (l !!! j) (l !!! a)) eqn:Hlt.
    + exists j. split_and!; [done|lia|lia| |done].
      intros k ? ?. lia.
    + destruct (IH a i (j - 1) l) as (j' & -> & Hj1 & Hj2 & Hall & Hstop);
        [lia..|].
      exists j'. split_and!; [done|lia|lia| |done].
      intros k Hk1 Hk2. destruct (decide (k = j)) as [->|]; [done|].
      apply Hall; lia.
  - apply Nat.leb_gt in Hle. exists j. split_and!; [done|lia|lia| |lia].
    intros k ? ?. lia.
Qed.

Lemma partition_loop_spec fuel : ∀ a b i j l,
  b ≤ length l → a < i → i ≤ j + 1 → j < b → j + 1 - i < fuel →
  all_in (a + 1) i (λ v, lt v (l !!! a) = true) l →
  all_in (j + 1) b (λ v, lt v (l !!! a) = false) l →
  ∃ j' l', sort.partition_loop D fuel a b i j (st l) = Ok (j', st l') ∧
           perm_in (a + 1) b l l' ∧ a ≤ j' ∧ j' < b ∧
           all_in (a + 1) (j' + 1) (λ v, lt v (l !!! a) = true) l' ∧
           all_in (j' + 1) b (λ v, lt v (l !!! a) = false) l'.
Proof.
  induction fuel as [|fuel IH]; intros a b i j l Hb Hai Hij Hjb Hfuel Hlo Hhi;
    [lia|].
  cbn [sort.partition_loop].
  destruct (scan_up_spec (S b) a i j l) as (i1 & -> & Hi1 & Hi2 & Hup & Hupstop);
    [lia..|].
  cbn [mbind result_bind].
  destruct (scan_down_spec (S b) a i1 j l)
    as (j1 & -> & Hj1 & Hj2 & Hdown & Hdownstop); [lia..|].
  cbn [mbind result_bind].
  destruct (j1 <? i1)%nat eqn:Hcmp.
  - apply Nat.ltb_lt in Hcmp. exists j1, l.
    split_and!; [done|apply perm_in_refl|lia|lia| |].
    + intros k Hk1 Hk2. destruct (decide (k < i)); [apply Hlo|apply Hup]; lia.
    + intros k Hk1 Hk2.
      destruct (decide (k < j + 1)); [apply Hdown|apply Hhi]; lia.
  - apply Nat.ltb_ge in Hcmp.
    specialize (Hupstop ltac:(lia)). specialize (Hdownstop ltac:(lia)).
    assert (i1 ≠ j1) as Hne by (intros ->; congruence).
    rewrite Swap_st by lia. cbn [mbind result_bind].
    assert (swapl i1 j1 l !!! a = l !!! a) as Hpivot.
    { rewrite swapl_lookup by lia. repeat case_decide; subst; first [done | lia_false]. }
    destruct (IH a b (i1 + 1) (j1 - 1) (swapl i1 j1 l))
      as (j' & l' & -> & Hperm & Hj'1 & Hj'2 & Hlo' & Hhi').
    + by rewrite swapl_length.
    + lia.
    + lia.
    + lia.
    + lia.
    + rewrite Hpivot. intros k Hk1 Hk2. rewrite swapl_lookup by lia.
      repeat case_decide; subst; try done; try lia_false.
      destruct (decide (k < i)); [apply Hlo|apply Hup]; lia.
    + rewrite Hpivot. intros k Hk1 Hk2. rewrite swapl_lookup by lia.
      repeat case_decide; subst; try done; try lia_false.
      destruct (decide (k < j + 1)); [apply Hdown|apply Hhi]; lia.
    + rewrite Hpivot in Hlo', Hhi'. exists j', l'.
      split_and!; [done| |lia|lia|done|done].
      eapply perm_in_trans; [|exact Hperm].
      apply swapl_perm_in; lia.
Qed.

(** [partitionLessFunc]: the pivot's value ends at [mid], smaller
    elements before it and the others after it. *)
Lemma partitionLessFunc_spec a b pivot l :
  a ≤ pivot → pivot < b → b ≤ length l →
  ∃ mid alreadyPartitioned l',
    sort.partitionLessFunc D a b pivot (st l)
      = Ok (mid, alreadyPartitioned, st l') ∧
    perm_in a b l l' ∧ a ≤ mid ∧ mid < b ∧
    all_in a mid (λ v, lt v (l' !!! mid) = true) l' ∧
    all_in (mid + 1) b (λ v, lt v (l' !!! mid) = false) l'.
Proof.
  intros Hap Hpb Hb. unfold sort.partitionLessFunc.
  rewrite Swap_st by lia. cbn [mbind result_bind].
  set (l1 := swapl a pivot l).
  assert (length l1 = length l) as Hlen1 by apply swapl_length.
  assert (perm_in a b l l1) as Hperm1 by (apply swapl_perm_in; lia).
  destruct (scan_up_spec (S b) a (a + 1) (b - 1) l1)
    as (i1 & -> & Hi1 & Hi2 & Hup & Hupstop); [lia..|].
  cbn [mbind result_bind].
  destruct (scan_down_spec (S b) a i1 (b - 1) l1)
    as (j1 & -> & Hj1 & Hj2 & Hdown & Hdownstop); [lia..|].
  cbn [mbind result_bind].
  replace (b - 1 + 1) with b in * by lia.
  destruct (j1 <? i1)%nat eqn:Hcmp.
  - apply Nat.ltb_lt in Hcmp. assert (i1 = j1 + 1) as -> by lia.
    rewrite Swap_st by lia. cbn [mbind result_bind].
    exists j1, true, (swapl j1 a l1).
    assert (swapl j1 a l1 !!! j1 = l1 !!! a) as Hmid.
    { rewrite swapl_lookup by lia. repeat case_decide; subst; first [done | lia_false]. }
    split_and!; [done| |lia|lia| |].
    + eapply perm_in_trans; [exact Hperm1|]. apply swapl_perm_in; lia.
    + rewrite Hmid. intros k Hk1 Hk2. rewrite swapl_lookup by lia.
      repeat case_decide; subst; try lia_false; apply Hup; lia.
    + rewrite Hmid. intros k Hk1 Hk2. rewrite swapl_lookup by lia.
      repeat case_decide; subst; try lia_false; apply Hdown; lia.
  - apply Nat.ltb_ge in Hcmp.
    specialize (Hupstop ltac:(lia)). specialize (Hdownstop ltac:(lia)).
    assert (i1 ≠ j1) as Hne by (intros ->; congruence).
    rewrite Swap_st by lia. cbn [mbind result_bind].
    set (l2 := swapl i1 j1 l1).
    assert (l2 !!! a = l1 !!! a) as Hpivot.
    { unfold l2. rewrite swapl_lookup by lia.
      repeat case_decide; subst; first [done | lia_false]. }
    destruct (partition_loop_spec (S b) a b (i1 + 1) (j1 - 1) l2)
      as (j' & l3 & -> & Hperm3 & Hj'1 & Hj'2 & Hlo & Hhi).
    + unfold l2. rewrite swapl_length. lia.
    + lia.
    + lia.
    + lia.
    + lia.
    + rewrite Hpivot. intros k Hk1 Hk2. unfold l2.
      rewrite swapl_lookup by lia.
      repeat case_decide; subst; try done; try lia_false. apply Hup; lia.
    + rewrite Hpivot. intros k Hk1 Hk2. unfold l2.
      rewrite swapl_lookup by lia.
      repeat case_decide; subst; try done; try lia_false. apply Hdown; lia.
    + cbn [mbind result_bind].
      pose proof Hperm3 as (Hlen3 & Hframe3 & _).
      assert (length l2 = length l) as Hlen2.
      { unfold l2. by rewrite swapl_length. }
      rewrite Swap_st by lia. cbn [mbind result_bind].
      exists j', false, (swapl j' a l3).
      assert (l3 !!! a = l1 !!! a) as Hpivot3.
      { rewrite Hframe3 by lia. done. }
      assert (swapl j' a l3 !!! j' = l1 !!! a) as Hmid.
      { rewrite swapl_lookup by lia. repeat case_decide; subst; first [done | lia_false]. }
      split_and!; [done| |lia|lia| |].
      * eapply perm_in_trans; [exact Hperm1|].
        eapply perm_in_trans; [apply (swapl_perm_in a b i1 j1); lia|].
        eapply perm_in_trans;
          [apply (perm_in_mono a b (a + 1) b); [lia..|exact Hperm3]|].
        apply swapl_perm_in; lia.
      * rewrite Hmid, <- Hpivot. intros k Hk1 Hk2.
        rewrite swapl_lookup by lia.
        repeat case_decide; subst; try lia_false; apply Hlo; lia.
      * rewrite Hmid, <- Hpivot. intros k Hk1 Hk2.
        rewrite swapl_lookup by lia.
        repeat case_decide; subst; try lia_false; apply Hhi; lia.
Qed.

End pdq_partition.

Section pdq_partitionEqual.
Context {T : Type} `{!Inhabited T}.
Variable lt : T → T → bool.
Variable x : nat.
Variable h0 : gmap nat (list T).

Local Abbreviation D := (sort.mkLessSwap (less_by lt x) (Swapper x)).
Local Abbreviation st l := (<[x := l]> h0).

Implicit Types (l : list T) (a b i j k : nat).

Local Ltac lia_false := first [lia | exfalso; lia].

Lemma scanEqual_up_spec fuel : ∀ a i j l,
  a < length l → j < length l → i ≤ j + 1 → j + 1 - i < fuel →
  ∃ i', sort.scanEqual_up D fuel a i j (st l) = Ok i' ∧
        i ≤ i' ∧ i' ≤ j + 1 ∧
        all_in i i' (λ v, lt (l !!! a) v = false) l ∧
        (i' ≤ j → lt (l !!! a) (l !!! i') = true).
Proof.
  induction fuel as [|fuel IH]; intros a i j l Ha Hj Hij Hfuel; [lia|].
  cbn [sort.scanEqual_up]. destruct (i <=? j)%nat eqn:Hle.
  - apply Nat.leb_le in Hle. rewrite Less_st by lia. cbn [mbind result_bind].
    destruct (lt (l !!! a) (l !!! i)) eqn:Hlt.
    + exists i. split_and!; [done|lia|lia| |done].
      intros k ? ?. lia.
    + destruct (IH a (i + 1) j l) as (i' & -> & Hi1 & Hi2 & Hall & Hstop);
        [lia..|].
      exists i'. split_and!; [done|lia|lia| |done].
      intros k Hk1 Hk2. destruct (decide (k = i)) as [->|]; [done|].
      apply Hall; lia.
  - apply Nat.leb_gt in Hle. exists i. split_and!; [done|lia|lia| |lia].
    intros k ? ?. lia.
Qed.

Lemma scanEqual_down_spec fuel : ∀ a i j l,
  a < length l → j < length l → 1 ≤ i → i ≤ j + 1 → j + 1 - i < fuel →
  ∃ j', sort.scanEqual_down D fuel a i j (st l) = Ok j' ∧
        j' ≤ j ∧ i ≤ j' + 1 ∧
        all_in (j' + 1) (j + 1) (λ v, lt (l !!! a) v = true) l ∧
        (i ≤ j' → lt (l !!! a) (l !!! j') = false).
Proof.
  induction fuel as [|fuel IH]; intros a i j l Ha Hj Hi Hij Hfuel; [lia|].
  cbn [sort.scanEqual_down]. destruct (i <=? j)%nat eqn:Hle.
  - apply Nat.leb_le in Hle. rewrite Less_st by lia. cbn [mbind result_bind].
    destruct (lt (l !!! a) (l !!! j)) eqn:Hlt.
    + destruct (IH a i (j - 1) l) as (j' & -> & Hj1 & Hj2 & Hall & Hstop);
        [lia..|].
      exists j'. split_and!; [done|lia|lia| |done].
      intros k Hk1 Hk2. destruct (decide (k = j)) as [->|]; [done|].
      apply Hall; lia.
    + exists j. split_and!; [done|lia|lia| |done].
      intros k ? ?. lia.
  - apply Nat.leb_gt in Hle. exists j. split_and!; [done|lia|lia| |lia].
    intros k ? ?. lia.
Qed.

Lemma partitionEqual_loop_spec fuel : ∀ a b i j l,
  b ≤ length l → a < i → i ≤ j + 1 → j < b → j + 1 - i < fuel →
  all_in (a + 1) i (λ v, lt (l !!! a) v = false) l →
  all_in (j + 1) b (λ v, lt (l !!! a) v = true) l →
  ∃ i' l', sort.partitionEqual_loop D fuel a b i j (st l) = Ok (i', st l') ∧
           perm_in (a + 1) b l l' ∧ a < i' ∧ i' ≤ b ∧
           all_in (a + 1) i' (λ v, lt (l !!! a) v = false) l' ∧
           all_in i' b (λ v, lt (l !!! a) v = true) l'.
Proof.
  induction fuel as [|fuel IH]; intros a b i j l Hb Hai Hij Hjb Hfuel Hlo Hhi;
    [lia|].
  cbn [sort.partitionEqual_loop].
  destruct (scanEqual_up_spec (S b) a i j l)
    as (i1 & -> & Hi1 & Hi2 & Hup & Hupstop); [lia..|].
  cbn [mbind result_bind].
  destruct (scanEqual_down_spec (S b) a i1 j l)
    as (j1 & -> & Hj1 & Hj2 & Hdown & Hdownstop); [lia..|].
  cbn [mbind result_bind].
  destruct (j1 <? i1)%nat eqn:Hcmp.
  - apply Nat.ltb_lt in Hcmp. exists i1, l.
    split_and!; [done|apply perm_in_refl|lia|lia| |].
    + intros k Hk1 Hk2. destruct (decide (k < i)); [apply Hlo|apply Hup]; lia.
    + intros k Hk1 Hk2.
      destruct (decide (k < j + 1)); [apply Hdown|apply Hhi]; lia.
  - apply Nat.ltb_ge in Hcmp.
    specialize (Hupstop ltac:(lia)). specialize (Hdownstop ltac:(lia)).
    assert (i1 ≠ j1) as Hne by (intros ->; congruence).
    rewrite Swap_st by lia. cbn [mbind result_bind].
    assert (swapl i1 j1 l !!! a = l !!! a) as Hpivot.
    { rewrite swapl_lookup by lia.
      repeat case_decide; subst; first [done | lia_false]. }
    destruct (IH a b (i1 + 1) (j1 - 1) (swapl i1 j1 l))
      as (i' & l' & -> & Hperm & Hi'1 & Hi'2 & Hlo' & Hhi').
    + by rewrite swapl_length.
    + lia.
    + lia.
    + lia.
    + lia.
    + rewrite Hpivot. intros k Hk1 Hk2. rewrite swapl_lookup by lia.
      repeat case_decide; subst; try done; try lia_false.
      destruct (decide (k < i)); [apply Hlo|apply Hup]; lia.
    + rewrite Hpivot. intros k Hk1 Hk2. rewrite swapl_lookup by lia.
      repeat case_decide; subst; try done; try lia_false.
      destruct (decide (k < j + 1)); [apply Hdown|apply Hhi]; lia.
    + rewrite Hpivot in Hlo', Hhi'. exists i', l'.
      split_and!; [done| |lia|lia|done|done].
      eapply perm_in_trans; [|exact Hperm].
      apply swapl_perm_in; lia.
Qed.

(** [partitionEqualLessFunc]: the elements that are not greater than
    the pivot come first, the greater ones from [mid] on. *)
Lemma partitionEqualLessFunc_spec a b pivot l :
  (∀ v, lt v v = false) →
  a ≤ pivot → pivot < b → b ≤ length l →
  ∃ mid l',
    sort.partitionEqualLessFunc D a b pivot (st l) = Ok (mid, st l') ∧
    perm_in a b l l' ∧ a < mid ∧ mid ≤ b ∧
    all_in a mid (λ v, lt (l !!! pivot) v = false) l' ∧
    all_in mid b (λ v, lt (l !!! pivot) v = true) l'.
Proof.
  intros Hirr Hap Hpb Hb. unfold sort.partitionEqualLessFunc.
  rewrite Swap_st by lia. cbn [mbind result_bind].
  set (l1 := swapl a pivot l).
  assert (length l1 = length l) as Hlen1 by apply swapl_length.
  assert (perm_in a b l l1) as Hperm1 by (apply swapl_perm_in; lia).
  assert (l1 !!! a = l !!! pivot) as Hpivot.
  { unfold l1. rewrite swapl_lookup by lia.
    repeat case_decide; subst; first [done | lia_false]. }
  destruct (partitionEqual_loop_spec (S b) a b (a + 1) (b - 1) l1)
    as (mid & l2 & -> & Hperm2 & Hmid1 & Hmid2 & Hlo & Hhi).
  - lia.
  - lia.
  - lia.
  - lia.
  - lia.
  - intros k ? ?. lia.
  - intros k ? ?. lia.
  - rewrite Hpivot in Hlo, Hhi. exists mid, l2.
    pose proof Hperm2 as (Hlen2 & Hframe2 & _).
    split_and!; [done| |lia|lia| |done].
    + eapply perm_in_trans; [exact Hperm1|].
      apply (perm_in_mono a b (a + 1) b); [lia..|exact Hperm2].
    + intros k Hk1 Hk2. destruct (decide (k = a)) as [->|Hne].
      * rewrite Hframe2 by lia. rewrite Hpivot. apply Hirr.
      * apply Hlo; lia.
Qed.

End pdq_partitionEqual.

Section pdq_pivot.
Context {T : Type} `{!Inhabited T}.
Variable lt : T → T → bool.
Variable x : nat.
Variable h0 : gmap nat (list T).

Local Abbreviation D := (sort.mkLessSwap (less_by lt x) (Swapper x)).
Local Abbreviation st l := (<[x := l]> h0).

Implicit Types (l : list T) (a b i j k : nat).

Lemma order2LessFunc_spec a b swaps l :
  a < length l → b < length l →
  ∃ a' b' swaps',
    sort.order2LessFunc D a b swaps (st l) = Ok (a', b', swaps') ∧
    (a' = a ∧ b' = b ∨ a' = b ∧ b' = a).
Proof.
  intros Ha Hb. unfold sort.order2LessFunc.
  rewrite (Less_st lt x h0) by lia. cbn [mbind result_bind].
  destruct (lt (l !!! b) (l !!! a)); eexists _, _, _; (split; [done|]); lia.
Qed.

Lemma medianLessFunc_spec a b c swaps l :
  a < length l → b < length l → c < length l →
  ∃ m swaps',
    sort.medianLessFunc D a b c swaps (st l) = Ok (m, swaps') ∧
    (m = a ∨ m = b ∨ m = c).
Proof.
  intros Ha Hb Hc. unfold sort.medianLessFunc.
  destruct (order2LessFunc_spec a b swaps l) as (a1 & b1 & s1 & -> & H1);
    [done..|].
  cbn [mbind result_bind].
  destruct (order2LessFunc_spec b1 c s1 l) as (b2 & c2 & s2 & -> & H2);
    [lia..|].
  cbn [mbind result_bind].
  destruct (order2LessFunc_spec a1 b2 s2 l) as (a3 & b3 & s3 & -> & H3);
    [lia..|].
  cbn [mbind result_bind]. eexists _, _. split; [done|]. lia.
Qed.

Lemma choosePivotLessFunc_spec a b l :
  8 ≤ b - a → b ≤ length l →
  ∃ pivot hint,
    sort.choosePivotLessFunc D a b (st l) = Ok (pivot, hint) ∧
    a ≤ pivot ∧ pivot < b.
Proof.
  intros Hlen Hb. unfold sort.choosePivotLessFunc.
  replace (8 <=? b - a)%nat with true by (symmetry; by apply Nat.leb_le).
  pose proof (Nat.div_mod_eq (b - a) 4) as Hdiv.
  pose proof (Nat.mod_upper_bound (b - a) 4 ltac:(lia)) as Hmod.
  set (q := (b - a) / 4) in *. clearbody q.
  enough (∃ i j k swaps,
    (if (50 <=? b - a)%nat
     then
       '(i, swaps) ← sort.medianAdjacentLessFunc D (a + q * 1) 0 (st l);
       '(j, swaps) ← sort.medianAdjacentLessFunc D (a + q * 2) swaps (st l);
       '(k, swaps) ← sort.medianAdjacentLessFunc D (a + q * 3) swaps (st l);
       Ok (i, j, k, swaps)
     else Ok (a + q * 1, a + q * 2, a + q * 3, 0))
    = Ok (i, j, k, swaps) ∧
    a ≤ i ∧ i < b ∧ a ≤ j ∧ j < b ∧ a ≤ k ∧ k < b)
    as (i & j & k & swaps & -> & Hi).
  { cbn [mbind result_bind].
    destruct (medianLessFunc_spec i j k swaps l) as (m & s' & -> & Hm);
      [lia..|].
    cbn [mbind result_bind].
    destruct (s' =? 0)%nat; [|destruct (s' =? 4 * 3)%nat];
      eexists _, _; (split; [done|]); lia. }
  destruct (50 <=? b - a)%nat eqn:H50.
  - apply Nat.leb_le in H50. unfold sort.medianAdjacentLessFunc.
    destruct (medianLessFunc_spec (a + q * 1 - 1) (a + q * 1) (a + q * 1 + 1)
                0 l) as (i & s1 & -> & Hi); [lia..|].
    cbn [mbind result_bind].
    destruct (medianLessFunc_spec (a + q * 2 - 1) (a + q * 2) (a + q * 2 + 1)
                s1 l) as (j & s2 & -> & Hj); [lia..|].
    cbn [mbind result_bind].
    destruct (medianLessFunc_spec (a + q * 3 - 1) (a + q * 3) (a + q * 3 + 1)
                s2 l) as (k & s3 & -> & Hk); [lia..|].
    cbn [mbind result_bind].
    exists i, j, k, s3. split; [done|]. lia.
  - eexists _, _, _, _. split; [done|]. lia.
Qed.

Lemma reverseRange_loop_spec a b fuel : ∀ i j l,
  b ≤ length l → a ≤ i → j < b → j - i < fuel →
  ∃ l', sort.reverseRange_loop D fuel i j (st l) = Ok (st l') ∧
        perm_in a b l l'.
Proof.
  induction fuel as [|fuel IH]; intros i j l Hb Hi Hj Hfuel; [lia|].
  cbn [sort.reverseRange_loop]. destruct (i <? j)%nat eqn:Hlt.
  - apply Nat.ltb_lt in Hlt.
    rewrite (Swap_st lt x h0) by lia. cbn [mbind result_bind].
    destruct (IH (i + 1) (j - 1) (swapl i j l)) as (l' & -> & Hperm).
    + by rewrite swapl_length.
    + lia.
    + lia.
    + lia.
    + exists l'. split; [done|].
      eapply perm_in_trans; [|exact Hperm]. apply swapl_perm_in; lia.
  - exists l. split; [done|apply perm_in_refl].
Qed.

Lemma reverseRangeLessFunc_spec a b l :
  a < b → b ≤ length l →
  ∃ l', sort.reverseRangeLessFunc D a b (st l) = Ok (st l') ∧
        perm_in a b l l'.
Proof.
  intros Hab Hb. unfold sort.reverseRangeLessFunc.
  apply reverseRange_loop_spec; lia.
Qed.

Lemma nextPowerOfTwo_bound length :
  0 < length → (sort.nextPowerOfTwo length ≤ 2 * N.of_nat length)%N.
Proof.
  intros Hpos. unfold sort.nextPowerOfTwo, sort.bits_Len.
  destruct length as [|n]; [lia|]. set (m := S n) in *.
  rewrite N.shiftl_1_l.
  pose proof (Nat.log2_spec m Hpos) as [Hlo _].
  rewrite Nat2N.inj_succ, N.pow_succ_r'.
  apply N.mul_le_mono_l.
  replace 2%N with (N.of_nat 2) by done.
  rewrite <- Nat2N.inj_pow. lia.
Qed.

Lemma breakPatterns_other_bound length (random : N) :
  0 < length →
  let other := N.to_nat (N.land random (sort.nextPowerOfTwo length - 1)) in
  (if (length <=? other)%nat then other - length else other) < length.
Proof.
  intros Hpos other.
  assert (other < 2 * length) as Hother.
  { unfold other. pose proof (nextPowerOfTwo_bound length Hpos) as Hbound.
    assert (N.land random (sort.nextPowerOfTwo length - 1)
            < sort.nextPowerOfTwo length)%N as Hland; [|lia].
    unfold sort.nextPowerOfTwo in *.
    rewrite N.sub_1_r, N.shiftl_1_l, <- N.ones_equiv, N.land_ones.
    apply N.mod_lt. by apply N.pow_nonzero. }
  destruct (length <=? other)%nat eqn:Hle.
  - apply Nat.leb_le in Hle. lia.
  - by apply Nat.leb_gt in Hle.
Qed.

Lemma breakPatterns_loop_spec a b idx modulus steps : ∀ i random l,
  b ≤ length l → a < b →
  modulus = sort.nextPowerOfTwo (b - a) →
  a ≤ idx → idx + 3 ≤ b → i + steps ≤ 3 →
  ∃ l', sort.breakPatterns_loop D steps a (b - a) idx i random modulus (st l)
        = Ok (st l') ∧
        perm_in a b l l'.
Proof.
  induction steps as [|steps IH]; intros i random l Hb Hab -> Hidx1 Hidx2 Hi.
  - exists l. split; [done|apply perm_in_refl].
  - cbn [sort.breakPatterns_loop].
    pose proof (breakPatterns_other_bound (b - a) (sort.xorshift_Next random)
                  ltac:(lia)) as Hother.
    cbn zeta in Hother.
    set (other := if (b - a <=? _)%nat then _ else _) in *. clearbody other.
    rewrite (Swap_st lt x h0) by lia. cbn [mbind result_bind].
    destruct (IH (i + 1) (sort.xorshift_Next random)
                 (swapl (idx + i) (a + other) l)) as (l' & -> & Hperm).
    + by rewrite swapl_length.
    + done.
    + done.
    + done.
    + done.
    + lia.
    + exists l'. split; [done|].
      eapply perm_in_trans; [|exact Hperm]. apply swapl_perm_in; lia.
Qed.

Lemma breakPatternsLessFunc_spec a b l :
  a < b → b ≤ length l →
  ∃ l', sort.breakPatternsLessFunc D a b (st l) = Ok (st l') ∧
        perm_in a b l l'.
Proof.
  intros Hab Hb. unfold sort.breakPatternsLessFunc.
  destruct (8 <=? b - a)%nat eqn:H8.
  - apply Nat.leb_le in H8.
    pose proof (Nat.div_mod_eq (b - a) 4) as Hdiv.
    pose proof (Nat.mod_upper_bound (b - a) 4 ltac:(lia)) as Hmod.
    apply breakPatterns_loop_spec; try done; lia.
  - exists l. split; [done|apply perm_in_refl].
Qed.

End pdq_pivot.

Section pdq_insertion.
Context {T : Type} `{!Inhabited T}.
Variable lt : T → T → bool.
Hypothesis lt_asym : ∀ a b, lt a b = true → lt b a = false.
Hypothesis lt_negtrans :
  ∀ a b c, lt a b = false → lt b c = false → lt a c = false.
Variable x : nat.
Variable h0 : gmap nat (list T).

Local Abbreviation D := (sort.mkLessSwap (less_by lt x) (Swapper x)).
Local Abbreviation st l := (<[x := l]> h0).

Implicit Types (l : list T) (a b i j k : nat).

Local Ltac lia_false := first [lia | exfalso; lia].

Lemma lt_irrefl v : lt v v = false.
Proof.
  destruct (lt v v) eqn:Hv; [|done].
  pose proof (lt_asym v v Hv). congruence.
Qed.

Lemma sorted_in_snoc a k l :
  a ≤ k → sorted_in lt a k l →
  (a < k → lt (l !!! k) (l !!! (k - 1)) = false) →
  sorted_in lt a (k + 1) l.
Proof.
  intros Hak Hsorted Hlast i j Hi Hij Hj.
  destruct (decide (j = k)) as [->|Hne]; [|apply Hsorted; lia].
  destruct (decide (i = k - 1)) as [->|Hne]; [apply Hlast; lia|].
  apply (lt_negtrans _ (l !!! (k - 1))); [apply Hlast; lia|].
  apply Hsorted; lia.
Qed.

Lemma sorted_in_perm_in_outside a b c d l l' :
  d ≤ a ∨ b ≤ c → perm_in a b l l' → sorted_in lt c d l → sorted_in lt c d l'.
Proof.
  intros Hdisj (Hlen & Hf & _) Hsorted i j Hi Hij Hj.
  rewrite !Hf by lia. by apply Hsorted.
Qed.

(** The inner loop of the insertion sort, run from [j] with the lower
    bound [a'] of the loop: [l[a:j]] is sorted, [l[j]] is the element
    on the move, it is the least of [l[j:i+1]], which is sorted and
    above [l[a:j]].  When the loop may go below [a], the element just
    below [a] stops it. *)
Lemma insertionSort_inner_range a' a i : ∀ j l,
  a' ≤ a → a ≤ j → j ≤ i → i < length l →
  sorted_in lt a j l →
  sorted_in lt j (i + 1) l →
  (∀ p q, a ≤ p → p < j → j < q → q ≤ i →
          lt (l !!! q) (l !!! p) = false) →
  (a' < a → lt (l !!! j) (l !!! (a - 1)) = false) →
  ∃ l', sort.insertionSort_inner D a' j (st l) = Ok (st l') ∧
        perm_in a (i + 1) l l' ∧ sorted_in lt a (i + 1) l'.
Proof.
  induction j as [|j IH]; intros l Ha' Haj Hji Hi Hleft Hright Hcross Hbar.
  - exists l. split_and!; [done|apply perm_in_refl|].
    assert (a = 0) as -> by lia. done.
  - cbn [sort.insertionSort_inner].
    destruct (a' <? S j)%nat eqn:Hbound.
    + apply Nat.ltb_lt in Hbound.
      rewrite (Less_st lt x h0) by lia. cbn [mbind result_bind].
      destruct (lt (l !!! S j) (l !!! j)) eqn:Hlt.
      * assert (a ≤ j) as Haj'.
        { destruct (decide (a = S j)) as [->|]; [exfalso|lia].
          specialize (Hbar ltac:(lia)).
          replace (S j - 1) with j in Hbar by lia. congruence. }
        rewrite (Swap_st lt x h0) by lia. cbn [mbind result_bind].
        set (l1 := swapl (S j) j l).
        assert (∀ k, l1 !!! k = if decide (k = j) then l !!! S j
                                else if decide (k = S j) then l !!! j
                                else l !!! k) as Hl1.
        { intros k. unfold l1. by rewrite swapl_lookup by lia. }
        destruct (IH l1) as (l' & -> & Hperm & Hsorted).
        -- done.
        -- done.
        -- lia.
        -- unfold l1. rewrite swapl_length. lia.
        -- intros p q Hp Hpq Hq. rewrite !Hl1.
           repeat case_decide; subst; try lia_false. apply Hleft; lia.
        -- intros p q Hp Hpq Hq. rewrite !Hl1.
           repeat case_decide; subst; try lia_false.
           ++ by apply lt_asym.
           ++ apply Hright; lia.
           ++ apply Hcross; lia.
           ++ apply Hright; lia.
        -- intros p q Hp Hpj Hjq Hqi. rewrite !Hl1.
           repeat case_decide; subst; try lia_false.
           ++ apply Hleft; lia.
           ++ apply Hcross; lia.
        -- intros Ha'a. rewrite !Hl1.
           repeat case_decide; subst; try lia_false. by apply Hbar.
        -- exists l'. split_and!; [done| |done].
           eapply perm_in_trans; [|exact Hperm].
           apply swapl_perm_in; lia.
      * exists l. split_and!; [done|apply perm_in_refl|].
        intros p q Hp Hpq Hq.
        destruct (decide (q < S j)); [apply Hleft; lia|].
        destruct (decide (S j ≤ p)); [apply Hright; lia|].
        destruct (decide (q = S j)) as [->|]; [|apply Hcross; lia].
        destruct (decide (p = j)) as [->|]; [done|].
        apply (lt_negtrans _ (l !!! j)); [done|]. apply Hleft; lia.
    + apply Nat.ltb_ge in Hbound. assert (a = S j) as -> by lia.
      exists l. split_and!; [done|apply perm_in_refl|done].
Qed.

Lemma insertionSort_outer_range a b : ∀ n i l,
  i + n = b → a < i → b ≤ length l →
  sorted_in lt a i l →
  ∃ l', foldlM (λ σ i, sort.insertionSort_inner D a i σ) (st l) (seq i n)
        = Ok (st l') ∧
        perm_in a b l l' ∧ sorted_in lt a b l'.
Proof.
  induction n as [|n IH]; intros i l Hin Hai Hb Hsorted.
  - exists l. split_and!; [done|apply perm_in_refl|].
    by replace b with i by lia.
  - cbn [seq foldlM].
    assert (sorted_in lt i (i + 1) l) as Hone by (intros p q ? ? ?; lia).
    assert (∀ p q, a ≤ p → p < i → i < q → q ≤ i →
              lt (l !!! q) (l !!! p) = false) as Hcross
      by (intros p q ? ? ? ?; lia).
    destruct (insertionSort_inner_range a a i i l
                ltac:(lia) ltac:(lia) ltac:(lia) ltac:(lia)
                Hsorted Hone Hcross ltac:(lia))
      as (l1 & -> & Hperm1 & Hsorted1).
    + cbn [mbind result_bind]. pose proof Hperm1 as (Hlen1 & _ & _).
      destruct (IH (S i) l1) as (l' & -> & Hperm & Hsorted').
      * lia.
      * lia.
      * lia.
      * by replace (S i) with (i + 1) by lia.
      * exists l'. split_and!; [done| |done].
        eapply perm_in_trans; [|exact Hperm].
        apply (perm_in_mono a b a (i + 1)); [lia..|done].
Qed.

(** [insertionSortLessFunc] sorts [l[a:b]] and nothing else. *)
Lemma insertionSortLessFunc_range a b l :
  a ≤ b → b ≤ length l →
  ∃ l', sort.insertionSortLessFunc D a b (st l) = Ok (st l') ∧
        perm_in a b l l' ∧ sorted_in lt a b l'.
Proof.
  intros Hab Hb. unfold sort.insertionSortLessFunc.
  destruct (decide (a = b)) as [->|Hne].
  - replace (b - (b + 1)) with 0 by lia.
    exists l. split_and!; [done|apply perm_in_refl|].
    intros p q ? ? ?. lia.
  - apply insertionSort_outer_range; [lia..|].
    intros p q ? ? ?. lia.
Qed.

End pdq_insertion.

Section pdq_partial.
Context {T : Type} `{!Inhabited T}.
Variable lt : T → T → bool.
Hypothesis lt_asym : ∀ a b, lt a b = true → lt b a = false.
Hypothesis lt_negtrans :
  ∀ a b c, lt a b = false → lt b c = false → lt a c = false.
Variable x : nat.
Variable h0 : gmap nat (list T).

Local Abbreviation D := (sort.mkLessSwap (less_by lt x) (Swapper x)).
Local Abbreviation st l := (<[x := l]> h0).

Implicit Types (l : list T) (a b i j k : nat).

Local Ltac lia_false := first [lia | exfalso; lia].

Lemma shift_left_inner j (σ : gmap nat (list T)) :
  sort.shift_left D j σ = sort.insertionSort_inner D 0 j σ.
Proof.
  revert σ. induction j as [|j IH]; intros σ; [done|].
  cbn [sort.shift_left sort.insertionSort_inner].
  replace (0 <? S j)%nat with true by done.
  destruct (sort.Less D (S j) j σ) as [[]| |]; cbn [mbind result_bind];
    try done.
  destruct (sort.Swap D (S j) j σ); cbn [mbind result_bind]; try done.
Qed.

Lemma scan_sorted_spec fuel : ∀ b i l,
  1 ≤ i → i ≤ b → b ≤ length l → b - i < fuel →
  ∃ i', sort.scan_sorted D fuel b i (st l) = Ok i' ∧
        i ≤ i' ∧ i' ≤ b ∧
        (∀ k, i ≤ k → k < i' → lt (l !!! k) (l !!! (k - 1)) = false) ∧
        (i' < b → lt (l !!! i') (l !!! (i' - 1)) = true).
Proof.
  induction fuel as [|fuel IH]; intros b i l Hi Hib Hb Hfuel; [lia|].
  cbn [sort.scan_sorted]. destruct (i <? b)%nat eqn:Hlt.
  - apply Nat.ltb_lt in Hlt.
    rewrite (Less_st lt x h0) by lia. cbn [mbind result_bind].
    destruct (lt (l !!! i) (l !!! (i - 1))) eqn:Hless.
    + exists i. split_and!; [done|lia|lia| |done]. intros k ? ?. lia.
    + destruct (IH b (i + 1) l) as (i' & -> & Hi1 & Hi2 & Hall & Hstop);
        [lia..|].
      exists i'. split_and!; [done|lia|lia| |done].
      intros k Hk1 Hk2. destruct (decide (k = i)) as [->|]; [done|].
      apply Hall; lia.
  - apply Nat.ltb_ge in Hlt. exists i.
    split_and!; [done|lia|lia| |lia]. intros k ? ?. lia.
Qed.

Lemma shift_right_spec n : ∀ j l,
  1 ≤ j → j + n ≤ length l →
  ∃ l', sort.shift_right D n j (st l) = Ok (st l') ∧
        perm_in (j - 1) (j + n) l l'.
Proof.
  induction n as [|n IH]; intros j l Hj Hlen.
  - exists l. split; [done|apply perm_in_refl].
  - cbn [sort.shift_right].
    rewrite (Less_st lt x h0) by lia. cbn [mbind result_bind].
    destruct (lt (l !!! j) (l !!! (j - 1))).
    + rewrite (Swap_st lt x h0) by lia. cbn [mbind result_bind].
      destruct (IH (j + 1) (swapl j (j - 1) l)) as (l' & -> & Hperm).
      * lia.
      * rewrite swapl_length. lia.
      * exists l'. split; [done|].
        apply (perm_in_trans _ _ _ (swapl j (j - 1) l));
          [apply swapl_perm_in; lia|].
        apply (perm_in_mono _ _ (j + 1 - 1) (j + 1 + n)); [lia..|done].
    + exists l. split; [done|apply perm_in_refl].
Qed.

Lemma partialInsertionSort_loop_spec a b steps : ∀ i l,
  a < i → i ≤ b → b ≤ length l →
  sorted_in lt a i l →
  (0 < a → all_in a b (λ v, lt v (l !!! (a - 1)) = false) l) →
  ∃ sorted l',
    sort.partialInsertionSort_loop D steps a b i (st l) = Ok (sorted, st l') ∧
    perm_in a b l l' ∧ (sorted = true → sorted_in lt a b l').
Proof.
  induction steps as [|steps IH]; intros i l Hai Hib Hb Hsorted Hbar.
  - exists false, l. split_and!; [done|apply perm_in_refl|done].
  - cbn [sort.partialInsertionSort_loop].
    destruct (scan_sorted_spec (S b) b i l)
      as (i1 & -> & Hi1 & Hi2 & Hscan & Hstop); [lia..|].
    cbn [mbind result_bind].
    assert (sorted_in lt a i1 l) as Hsorted1.
    { clear Hstop. induction i1 as [|i1 IHi1]; [lia|].
      destruct (decide (i = S i1)) as [<-|Hne]; [done|].
      replace (S i1) with (i1 + 1) by lia.
      apply (sorted_in_snoc lt lt_negtrans); [lia| |].
      - apply IHi1; [lia..|]. intros k ? ?. apply Hscan; lia.
      - intros _. apply Hscan; lia. }
    destruct (i1 =? b)%nat eqn:Hend.
    { apply Nat.eqb_eq in Hend as ->.
      exists true, l. split_and!; [done|apply perm_in_refl|done]. }
    apply Nat.eqb_neq in Hend.
    destruct (b - a <? 50)%nat eqn:Hshort.
    { exists false, l. split_and!; [done|apply perm_in_refl|done]. }
    rewrite (Swap_st lt x h0) by lia. cbn [mbind result_bind].
    set (l1 := swapl i1 (i1 - 1) l).
    assert (length l1 = length l) as Hlen1 by apply swapl_length.
    assert (perm_in a b l l1) as Hperm1 by (apply swapl_perm_in; lia).
    assert (∀ k, k < i1 - 1 → l1 !!! k = l !!! k) as Hl1.
    { intros k Hk. unfold l1. rewrite swapl_lookup by lia.
      repeat case_decide; subst; first [done | lia_false]. }
    assert (0 < a → all_in a b (λ v, lt v (l1 !!! (a - 1)) = false) l1)
      as Hbar1.
    { intros Ha. rewrite Hl1 by lia.
      by apply (perm_in_all_in a b _ l); [lia|lia|done|apply Hbar]. }
    assert (∃ l2, (if (2 <=? i1 - a)%nat
                   then sort.shift_left D (i1 - 1) (st l1) else Ok (st l1))
                  = Ok (st l2) ∧
                  perm_in a b l1 l2 ∧ sorted_in lt a i1 l2)
      as (l2 & -> & Hperm2 & Hsorted2).
    { destruct (2 <=? i1 - a)%nat eqn:Htwo.
      - apply Nat.leb_le in Htwo. rewrite shift_left_inner.
        assert (sorted_in lt a (i1 - 1) l1) as HA.
        { intros p q Hp Hpq Hq. rewrite !Hl1 by lia. apply Hsorted1; lia. }
        assert (sorted_in lt (i1 - 1) (i1 - 1 + 1) l1) as HB
          by (intros p q ? ? ?; lia).
        assert (∀ p q, a ≤ p → p < i1 - 1 → i1 - 1 < q → q ≤ i1 - 1 →
                  lt (l1 !!! q) (l1 !!! p) = false) as HC
          by (intros p q ? ? ? ?; lia).
        assert (0 < a → lt (l1 !!! (i1 - 1)) (l1 !!! (a - 1)) = false) as HD.
        { intros Ha. apply Hbar1; lia. }
        destruct (insertionSort_inner_range lt lt_asym lt_negtrans x h0
                    0 a (i1 - 1) (i1 - 1) l1
                    ltac:(lia) ltac:(lia) ltac:(lia) ltac:(lia) HA HB HC HD)
          as (l2 & -> & Hperm2 & Hsorted2).
        replace (i1 - 1 + 1) with i1 in * by lia.
        exists l2. split_and!; [done| |done].
        apply (perm_in_mono a b a i1); [lia..|done].
      - apply Nat.leb_gt in Htwo. exists l1.
        split_and!; [done|apply perm_in_refl|].
        intros p q ? ? ?. lia. }
    cbn [mbind result_bind].
    pose proof Hperm2 as (Hlen2 & Hframe2 & _).
    assert (∃ l3, (if (2 <=? b - i1)%nat
                   then sort.shift_right D (b - (i1 + 1)) (i1 + 1) (st l2)
                   else Ok (st l2))
                  = Ok (st l3) ∧
                  perm_in i1 b l2 l3) as (l3 & -> & Hperm3).
    { destruct (2 <=? b - i1)%nat eqn:Htwo.
      - apply Nat.leb_le in Htwo.
        destruct (shift_right_spec (b - (i1 + 1)) (i1 + 1) l2)
          as (l3 & -> & Hperm3); [lia..|].
        exists l3. split; [done|].
        by replace (i1 + 1 - 1) with i1 in Hperm3 by lia;
           replace (i1 + 1 + (b - (i1 + 1))) with b in Hperm3 by lia.
      - exists l2. split; [done|apply perm_in_refl]. }
    cbn [mbind result_bind].
    pose proof Hperm3 as (Hlen3 & Hframe3 & _).
    assert (perm_in a b l l3) as Hperm.
    { eapply perm_in_trans; [exact Hperm1|].
      eapply perm_in_trans; [exact Hperm2|].
      apply (perm_in_mono a b i1 b); [lia..|done]. }
    destruct (IH i1 l3) as (sorted & l' & -> & Hperm' & Hsorted').
    + lia.
    + lia.
    + lia.
    + apply (sorted_in_perm_in_outside lt i1 b a i1 l2); [lia|done|done].
    + intros Ha. pose proof Hperm as (_ & Hframe & _).
      rewrite Hframe by lia.
      by apply (perm_in_all_in a b _ l); [lia|lia|done|apply Hbar].
    + exists sorted, l'. split_and!; [done| |done].
      by eapply perm_in_trans.
Qed.

(** [partialInsertionSortLessFunc] rearranges [l[a:b]] only, and
    [l[a:b]] is sorted when it answers true. *)
Lemma partialInsertionSortLessFunc_spec a b l :
  a < b → b ≤ length l →
  (0 < a → all_in a b (λ v, lt v (l !!! (a - 1)) = false) l) →
  ∃ sorted l',
    sort.partialInsertionSortLessFunc D a b (st l) = Ok (sorted, st l') ∧
    perm_in a b l l' ∧ (sorted = true → sorted_in lt a b l').
Proof.
  intros Hab Hb Hbar. unfold sort.partialInsertionSortLessFunc.
  apply partialInsertionSort_loop_spec; [lia..| |done].
  intros p q ? ? ?. lia.
Qed.

End pdq_partial.

Section pdq_heap.
Context {T : Type} `{!Inhabited T}.
Variable lt : T → T → bool.
Hypothesis lt_asym : ∀ a b, lt a b = true → lt b a = false.
Hypothesis lt_negtrans :
  ∀ a b c, lt a b = false → lt b c = false → lt a c = false.
Variable x : nat.
Variable h0 : gmap nat (list T).

Local Abbreviation D := (sort.mkLessSwap (less_by lt x) (Swapper x)).
Local Abbreviation st l := (<[x := l]> h0).

Implicit Types (l : list T) (a b i j k : nat).

Local Ltac lia_false := first [lia | exfalso; lia].

Lemma siftDownLessFunc_spec first lo hi fuel : ∀ root l,
  first + hi ≤ length l → lo ≤ root → hi - root < fuel →
  heap_except lt first lo hi (Some root) l →
  heap_grandparent lt first lo hi root l →
  ∃ l', sort.siftDownLessFunc D fuel root hi first (st l) = Ok (st l') ∧
        perm_in (first + lo) (first + hi) l l' ∧
        heap_except lt first lo hi None l'.
Proof.
  induction fuel as [|fuel IH]; intros root l Hlen Hlo Hfuel Hheap Hgp.
  - lia.
  - cbn [sort.siftDownLessFunc]. cbn zeta.
    destruct (hi <=? 2 * root + 1)%nat eqn:Hleaf.
    { apply Nat.leb_le in Hleaf. exists l.
      split_and!; [done|apply perm_in_refl|].
      intros k c Hk _ Hc Hchi.
      destruct (decide (k = root)) as [->|Hne]; [lia|].
      apply Hheap; [done|congruence|done|done]. }
    apply Nat.leb_gt in Hleaf.
    assert (∃ child,
      (if (2 * root + 1 + 1 <? hi)%nat
       then lt' ← sort.Less D (first + (2 * root + 1))
                              (first + (2 * root + 1) + 1) (st l);
            Ok (if lt' : bool then 2 * root + 1 + 1 else 2 * root + 1)
       else Ok (2 * root + 1)) = Ok child ∧
      (child = 2 * root + 1 ∨ child = 2 * root + 2) ∧ child < hi ∧
      ∀ c, c = 2 * root + 1 ∨ c = 2 * root + 2 → c < hi →
           lt (l !!! (first + child)) (l !!! (first + c)) = false)
      as (child & -> & Hchild & Hchildhi & Hmax).
    { destruct (2 * root + 1 + 1 <? hi)%nat eqn:Htwo.
      - apply Nat.ltb_lt in Htwo.
        rewrite (Less_st lt x h0) by lia. cbn [mbind result_bind].
        replace (first + (2 * root + 1) + 1) with (first + (2 * root + 2))
          by lia.
        destruct (lt (l !!! (first + (2 * root + 1)))
                     (l !!! (first + (2 * root + 2)))) eqn:Hlt.
        + exists (2 * root + 1 + 1). split_and!; [done|lia|lia|].
          replace (2 * root + 1 + 1) with (2 * root + 2) by lia.
          intros c [-> | ->] _; [by apply lt_asym|].
          apply (lt_irrefl lt lt_asym).
        + exists (2 * root + 1). split_and!; [done|lia|lia|].
          intros c [-> | ->] _; [|done]. apply (lt_irrefl lt lt_asym).
      - apply Nat.ltb_ge in Htwo.
        exists (2 * root + 1). split_and!; [done|lia|lia|].
        intros c [-> | ->] ?; [|lia]. apply (lt_irrefl lt lt_asym). }
    cbn [mbind result_bind].
    rewrite (Less_st lt x h0) by lia. cbn [mbind result_bind].
    destruct (lt (l !!! (first + root)) (l !!! (first + child))) eqn:Hlt;
      cbn [negb].
    + rewrite (Swap_st lt x h0) by lia. cbn [mbind result_bind].
      set (l1 := swapl (first + root) (first + child) l).
      assert (∀ k, l1 !!! (first + k)
                   = if decide (k = child) then l !!! (first + root)
                     else if decide (k = root) then l !!! (first + child)
                     else l !!! (first + k)) as Hl1.
      { intros k. unfold l1. rewrite swapl_lookup by lia.
        repeat case_decide; first [done | lia_false]. }
      destruct (IH child l1) as (l' & -> & Hperm & Hheap').
      * unfold l1. by rewrite swapl_length.
      * lia.
      * lia.
      * intros k c Hk Hkc Hc Hchi. rewrite !Hl1.
        assert (k ≠ child) by congruence.
        repeat case_decide; subst; try lia_false.
        -- by apply lt_asym.
        -- by apply Hmax.
        -- apply (Hgp k child); [done|lia|lia|lia].
        -- apply Hheap; [done|congruence|done|done].
      * intros p c Hp Hroot Hc Hchi. rewrite !Hl1.
        repeat case_decide; subst; try lia_false.
        apply Hheap; [lia|intros [=]; lia|done|done].
      * exists l'. split_and!; [done| |done].
        eapply perm_in_trans; [|exact Hperm].
        apply swapl_perm_in; lia.
    + exists l. split_and!; [done|apply perm_in_refl|].
      intros k c Hk _ Hc Hchi.
      destruct (decide (k = root)) as [->|Hne].
      * apply (lt_negtrans _ (l !!! (first + child))); [done|by apply Hmax].
      * apply Hheap; [done|congruence|done|done].
Qed.

Lemma heap_root_max first n l :
  heap_except lt first 0 n None l →
  ∀ k, k < n → lt (l !!! (first + 0)) (l !!! (first + k)) = false.
Proof.
  intros Hheap k. induction k as [k IH] using lt_wf_ind. intros Hk.
  destruct (decide (k = 0)) as [->|Hne]; [apply (lt_irrefl lt lt_asym)|].
  pose proof (Nat.div_mod_eq (k - 1) 2) as Hdiv.
  pose proof (Nat.mod_upper_bound (k - 1) 2 ltac:(lia)) as Hmod.
  set (p := (k - 1) / 2) in *. clearbody p.
  apply (lt_negtrans _ (l !!! (first + p))).
  - apply IH; lia.
  - apply Hheap; [lia|done|lia|done].
Qed.

Lemma reverse_seq_S n : reverse (seq 0 (S n)) = n :: reverse (seq 0 n).
Proof. by rewrite seq_S, reverse_app. Qed.

Lemma heapify_spec first hi : ∀ n l,
  first + hi ≤ length l →
  heap_except lt first n hi None l →
  ∃ l', foldlM (λ σ i, sort.siftDownLessFunc D (S hi) i hi first σ)
               (st l) (reverse (seq 0 n)) = Ok (st l') ∧
        perm_in first (first + hi) l l' ∧
        heap_except lt first 0 hi None l'.
Proof.
  induction n as [|n IH]; intros l Hlen Hheap.
  - exists l. split_and!; [done|apply perm_in_refl|done].
  - rewrite reverse_seq_S. cbn [foldlM].
    destruct (siftDownLessFunc_spec first n hi (S hi) n l)
      as (l1 & -> & Hperm1 & Hheap1).
    + done.
    + done.
    + lia.
    + intros k c Hk Hkn Hc Hchi.
      apply Hheap; [|done..]. assert (k ≠ n) by congruence. lia.
    + intros p c Hp Hroot Hc Hchi. lia.
    + cbn [mbind result_bind]. pose proof Hperm1 as (Hlen1 & _ & _).
      destruct (IH l1) as (l' & -> & Hperm & Hheap'); [lia|done|].
      exists l'. split_and!; [done| |done].
      eapply perm_in_trans; [|exact Hperm].
      destruct (decide (n ≤ hi)).
      * apply (perm_in_mono _ _ (first + n) (first + hi)); [lia..|done].
      * destruct Hperm1 as (? & Hframe & _).
        apply perm_in_intro; [lia| |].
        -- assert (l1 = l) as ->; [|done].
           apply list_eq_same_length with (length l); [done..|].
           intros i v w Hi Hv Hw.
           apply list_lookup_total_correct in Hv, Hw. subst.
           apply Hframe. lia.
        -- intros k Hk. apply Hframe. lia.
Qed.

Lemma heap_pop_spec first hi : ∀ n l,
  n ≤ hi → first + hi ≤ length l →
  heap_except lt first 0 n None l →
  sorted_in lt (first + n) (first + hi) l →
  (∀ p q, p < n → n ≤ q → q < hi →
          lt (l !!! (first + q)) (l !!! (first + p)) = false) →
  ∃ l', foldlM (λ σ i, σ ← sort.Swap D first (first + i) σ;
                       sort.siftDownLessFunc D (S hi) 0 i first σ)
               (st l) (reverse (seq 0 n)) = Ok (st l') ∧
        perm_in first (first + hi) l l' ∧
        sorted_in lt first (first + hi) l'.
Proof.
  induction n as [|n IH]; intros l Hn Hlen Hheap Hsorted Hcross.
  - exists l. split_and!; [done|apply perm_in_refl|].
    by rewrite Nat.add_0_r in Hsorted.
  - rewrite reverse_seq_S. cbn [foldlM].
    rewrite (Swap_st lt x h0) by lia. cbn [mbind result_bind].
    set (l1 := swapl first (first + n) l).
    assert (length l1 = length l) as Hlen1 by apply swapl_length.
    assert (∀ k, l1 !!! (first + k)
                 = if decide (k = n) then l !!! (first + 0)
                   else if decide (k = 0) then l !!! (first + n)
                   else l !!! (first + k)) as Hl1.
    { intros k. unfold l1. rewrite swapl_lookup by lia.
      rewrite Nat.add_0_r.
      repeat case_decide; first [done | lia_false]. }
    pose proof (heap_root_max first (S n) l Hheap) as Hmax.
    destruct (siftDownLessFunc_spec first 0 n (S hi) 0 l1)
      as (l2 & -> & Hperm2 & Hheap2).
    + lia.
    + done.
    + lia.
    + intros k c Hk Hk0 Hc Hchi. rewrite !Hl1.
      assert (k ≠ 0) by congruence.
      repeat case_decide; subst; try lia_false.
      apply Hheap; [done|done|done|lia].
    + intros p c Hp Hroot Hc Hchi. lia.
    + cbn [mbind result_bind].
      pose proof Hperm2 as (Hlen2 & Hframe2 & _).
      rewrite Nat.add_0_r in Hperm2, Hframe2.
      destruct (IH l2) as (l' & -> & Hperm & Hsorted').
      * lia.
      * lia.
      * done.
      * intros i j Hi Hij Hj. rewrite !Hframe2 by lia.
        replace i with (first + (i - first)) by lia.
        replace j with (first + (j - first)) by lia.
        rewrite !Hl1. repeat case_decide; subst; try lia_false.
        -- apply Hcross; lia.
        -- replace (first + (i - first)) with i by lia.
           replace (first + (j - first)) with j by lia.
           apply Hsorted; lia.
      * intros p q Hp Hq Hqhi. rewrite (Hframe2 (first + q)) by lia.
        assert (all_in first (first + n)
                  (λ v, lt (l1 !!! (first + q)) v = false) l1) as Hall.
        { intros k Hk1 Hk2. replace k with (first + (k - first)) by lia.
          rewrite !Hl1. repeat case_decide; subst; try lia_false.
          - apply Hmax; lia.
          - apply Hmax; lia.
          - apply Hcross; lia.
          - apply Hcross; lia. }
        eapply (perm_in_all_in first (first + n)) in Hall;
          [|lia|lia|exact Hperm2].
        apply Hall; lia.
      * exists l'. split_and!; [done| |done].
        apply (perm_in_trans _ _ _ l1); [apply swapl_perm_in; lia|].
        apply (perm_in_trans _ _ _ l2); [|done].
        apply (perm_in_mono _ _ first (first + n)); [lia..|done].
Qed.

(** [heapSortLessFunc] sorts [l[a:b]] and nothing else. *)
Lemma heapSortLessFunc_spec a b l :
  a ≤ b → b ≤ length l →
  ∃ l', sort.heapSortLessFunc D a b (st l) = Ok (st l') ∧
        perm_in a b l l' ∧ sorted_in lt a b l'.
Proof.
  intros Hab Hb. unfold sort.heapSortLessFunc. cbn zeta.
  pose proof (Nat.div_mod_eq (b - a - 1) 2) as Hdiv.
  pose proof (Nat.mod_upper_bound (b - a - 1) 2 ltac:(lia)) as Hmod.
  destruct (heapify_spec a (b - a) ((b - a - 1) / 2 + 1) l)
    as (l1 & -> & Hperm1 & Hheap1).
  - lia.
  - intros k c Hk _ Hc Hchi. lia.
  - cbn [mbind result_bind]. pose proof Hperm1 as (Hlen1 & _ & _).
    destruct (heap_pop_spec a (b - a) (b - a) l1)
      as (l' & -> & Hperm & Hsorted).
    + done.
    + lia.
    + done.
    + intros i j ? ? ?. lia.
    + intros p q ? ? ?. lia.
    + replace (a + (b - a)) with b in * by lia.
      exists l'. split_and!; [done| |done]. by eapply perm_in_trans.
Qed.

End pdq_heap.

Section pdq_main.
Context {T : Type} `{!Inhabited T}.
Variable lt : T → T → bool.
Hypothesis lt_asym : ∀ a b, lt a b = true → lt b a = false.
Hypothesis lt_negtrans :
  ∀ a b c, lt a b = false → lt b c = false → lt a c = false.
Variable x : nat.
Variable h0 : gmap nat (list T).

Local Abbreviation D := (sort.mkLessSwap (less_by lt x) (Swapper x)).
Local Abbreviation st l := (<[x := l]> h0).

Implicit Types (l : list T) (a b i j k : nat).

Local Ltac lia_false := first [lia | exfalso; lia].

Lemma barrier_perm_in a b l l' :
  a ≤ b → b ≤ length l →
  perm_in a b l l' → barrier lt a b l → barrier lt a b l'.
Proof.
  intros Hab Hb Hperm Hbar Ha. pose proof Hperm as (_ & Hframe & _).
  rewrite Hframe by lia.
  apply (perm_in_all_in a b _ l); [done..|]. by apply Hbar.
Qed.

Lemma barrier_sub a b a' b' l :
  a' = a → b' ≤ b → barrier lt a b l → barrier lt a' b' l.
Proof.
  intros -> Hb Hbar Ha k Hk1 Hk2. apply Hbar; [done|done|lia].
Qed.

Lemma sorted_in_join a mid b l :
  a ≤ mid → mid < b →
  sorted_in lt a mid l → sorted_in lt (mid + 1) b l →
  all_in a mid (λ v, lt v (l !!! mid) = true) l →
  all_in (mid + 1) b (λ v, lt v (l !!! mid) = false) l →
  sorted_in lt a b l.
Proof.
  intros Hamid Hmidb Hleft Hright Hlo Hhi i j Hi Hij Hj.
  destruct (decide (j < mid)); [apply Hleft; lia|].
  destruct (decide (mid < i)); [apply Hright; lia|].
  destruct (decide (j = mid)) as [->|Hjm].
  - apply lt_asym, Hlo; lia.
  - destruct (decide (i = mid)) as [->|Him]; [apply Hhi; lia|].
    apply (lt_negtrans _ (l !!! mid)); [apply Hhi; lia|].
    apply lt_asym, Hlo; lia.
Qed.

Lemma sorted_in_join_equal a mid b l p :
  all_in a mid (λ v, lt p v = false ∧ lt v p = false) l →
  all_in mid b (λ v, lt p v = true) l →
  sorted_in lt mid b l →
  sorted_in lt a b l.
Proof.
  intros Heq Hgt Hright i j Hi Hij Hj.
  destruct (decide (mid ≤ i)); [apply Hright; lia|].
  destruct (Heq i) as [Hpi Hip]; [lia..|].
  destruct (decide (j < mid)).
  - destruct (Heq j) as [Hpj Hjp]; [lia..|].
    by apply (lt_negtrans _ p).
  - apply (lt_negtrans _ p); [|done]. apply lt_asym, Hgt; lia.
Qed.

(** Both halves of a partitioned range have been sorted, the left one
    first: the whole range is sorted. *)
Lemma partition_join_left_first a mid b l4 l5 l6 :
  a ≤ mid → mid < b → b ≤ length l4 →
  all_in a mid (λ v, lt v (l4 !!! mid) = true) l4 →
  all_in (mid + 1) b (λ v, lt v (l4 !!! mid) = false) l4 →
  perm_in a mid l4 l5 → sorted_in lt a mid l5 →
  perm_in (mid + 1) b l5 l6 → sorted_in lt (mid + 1) b l6 →
  perm_in a b l4 l6 ∧ sorted_in lt a b l6.
Proof.
  intros Ham Hmb Hb Hlo Hhi Hp5 Hs5 Hp6 Hs6.
  pose proof Hp5 as (Hlen5 & Hf5 & _). pose proof Hp6 as (Hlen6 & Hf6 & _).
  assert (l6 !!! mid = l4 !!! mid) as Hmid.
  { rewrite Hf6, Hf5 by lia. done. }
  split.
  - apply (perm_in_trans _ _ _ l5).
    + apply (perm_in_mono _ _ a mid); [lia..|done].
    + apply (perm_in_mono _ _ (mid + 1) b); [lia..|done].
  - apply (sorted_in_join a mid b); [lia|lia| |done| |].
    + intros i j Hi Hij Hj. rewrite !Hf6 by lia. by apply Hs5.
    + rewrite Hmid. intros k Hk1 Hk2. rewrite Hf6 by lia.
      by apply (perm_in_all_in a mid (λ v, lt v (l4 !!! mid) = true) l4 l5
                  ltac:(lia) ltac:(lia) Hp5 Hlo).
    + rewrite Hmid. apply (perm_in_all_in (mid + 1) b _ l5); [lia|lia|done|].
      intros k Hk1 Hk2. rewrite Hf5 by lia. by apply Hhi.
Qed.

(** The same with the right half sorted first. *)
Lemma partition_join_right_first a mid b l4 l5 l6 :
  a ≤ mid → mid < b → b ≤ length l4 →
  all_in a mid (λ v, lt v (l4 !!! mid) = true) l4 →
  all_in (mid + 1) b (λ v, lt v (l4 !!! mid) = false) l4 →
  perm_in (mid + 1) b l4 l5 → sorted_in lt (mid + 1) b l5 →
  perm_in a mid l5 l6 → sorted_in lt a mid l6 →
  perm_in a b l4 l6 ∧ sorted_in lt a b l6.
Proof.
  intros Ham Hmb Hb Hlo Hhi Hp5 Hs5 Hp6 Hs6.
  pose proof Hp5 as (Hlen5 & Hf5 & _). pose proof Hp6 as (Hlen6 & Hf6 & _).
  assert (l6 !!! mid = l4 !!! mid) as Hmid.
  { rewrite Hf6, Hf5 by lia. done. }
  split.
  - apply (perm_in_trans _ _ _ l5).
    + apply (perm_in_mono _ _ (mid + 1) b); [lia..|done].
    + apply (perm_in_mono _ _ a mid); [lia..|done].
  - apply (sorted_in_join a mid b); [lia|lia|done| | |].
    + intros i j Hi Hij Hj. rewrite !Hf6 by lia. by apply Hs5.
    + rewrite Hmid. apply (perm_in_all_in a mid _ l5); [lia|lia|done|].
      intros k Hk1 Hk2. rewrite Hf5 by lia. by apply Hlo.
    + rewrite Hmid. intros k Hk1 Hk2. rewrite Hf6 by lia.
      by apply (perm_in_all_in (mid + 1) b
                  (λ v, lt v (l4 !!! mid) = false) l4 l5
                  ltac:(lia) ltac:(lia) Hp5 Hhi).
Qed.

Lemma pdqsort_loop_spec fuel : ∀ a b limit wasBalanced wasPartitioned l,
  a ≤ b → b ≤ length l → b - a < fuel → barrier lt a b l →
  ∃ l', sort.pdqsort_loop D fuel a b limit wasBalanced wasPartitioned (st l)
        = Ok (st l') ∧
        perm_in a b l l' ∧ sorted_in lt a b l'.
Proof.
  induction fuel as [|fuel IH];
    intros a b limit wasBalanced wasPartitioned l Hab Hb Hfuel Hbar; [lia|].
  cbn [sort.pdqsort_loop]. cbn zeta.
  destruct (b - a <=? 12)%nat eqn:Hsmall.
  { by apply insertionSortLessFunc_range. }
  apply Nat.leb_gt in Hsmall.
  destruct (limit =? 0)%nat eqn:Hlimit.
  { by apply heapSortLessFunc_spec. }
  assert (∃ limit1 l1,
    (if negb wasBalanced
     then sort.breakPatternsLessFunc D a b (st l)
          ≫= λ σ, Ok (limit - 1, σ)
     else Ok (limit, st l)) = Ok (limit1, st l1) ∧ perm_in a b l l1)
    as (limit1 & l1 & -> & Hperm1).
  { destruct (negb wasBalanced).
    - destruct (breakPatternsLessFunc_spec lt x h0 a b l)
        as (l1 & -> & Hperm1); [lia..|].
      by exists (limit - 1), l1.
    - exists limit, l. split; [done|apply perm_in_refl]. }
  cbn [mbind result_bind].
  pose proof Hperm1 as (Hlen1 & _ & _).
  destruct (choosePivotLessFunc_spec lt x h0 a b l1)
    as (pivot & hint & -> & Hpivot1 & Hpivot2); [lia..|].
  cbn [mbind result_bind].
  assert (∃ pivot2 hint2 l2,
    match hint with
    | sort.decreasingHint =>
        sort.reverseRangeLessFunc D a b (st l1)
        ≫= λ σ0, Ok (b - 1 - (pivot - a), sort.increasingHint, σ0)
    | _ => Ok (pivot, hint, st l1)
    end = Ok (pivot2, hint2, st l2) ∧
    perm_in a b l1 l2 ∧ a ≤ pivot2 ∧ pivot2 < b)
    as (pivot2 & hint2 & l2 & -> & Hperm2 & Hpivot3 & Hpivot4).
  { destruct hint.
    - exists pivot, sort.unknownHint, l1.
      split_and!; [done|apply perm_in_refl|done..].
    - exists pivot, sort.increasingHint, l1.
      split_and!; [done|apply perm_in_refl|done..].
    - destruct (reverseRangeLessFunc_spec lt x h0 a b l1)
        as (l2 & -> & Hperm2); [lia..|].
      exists (b - 1 - (pivot - a)), sort.increasingHint, l2.
      split_and!; [done|done|lia|lia]. }
  cbn [mbind result_bind].
  pose proof Hperm2 as (Hlen2 & _ & _).
  assert (perm_in a b l l2) as Hperm12 by by eapply perm_in_trans.
  assert (barrier lt a b l2) as Hbar2 by by eapply barrier_perm_in.
  assert (∃ sorted l3,
    (if wasBalanced && wasPartitioned
     then match hint2 with
          | sort.increasingHint =>
              sort.partialInsertionSortLessFunc D a b (st l2)
          | _ => Ok (false, st l2)
          end
     else Ok (false, st l2)) = Ok (sorted, st l3) ∧
    perm_in a b l2 l3 ∧ (sorted = true → sorted_in lt a b l3))
    as (sorted & l3 & -> & Hperm3 & Hsorted3).
  { assert (∃ sorted l3,
      Ok (false, st l2) = Ok (sorted, st l3) ∧
      perm_in a b l2 l3 ∧ (sorted = true → sorted_in lt a b l3)) as Hskip.
    { exists false, l2. split_and!; [done|apply perm_in_refl|done]. }
    destruct (wasBalanced && wasPartitioned); [|done].
    destruct hint2; [done| |done].
    apply (partialInsertionSortLessFunc_spec lt lt_asym lt_negtrans);
      [lia|lia|done]. }
  cbn [mbind result_bind].
  pose proof Hperm3 as (Hlen3 & Hframe3 & _).
  assert (perm_in a b l l3) as Hperm13 by by eapply perm_in_trans.
  assert (barrier lt a b l3) as Hbar3 by by eapply barrier_perm_in.
  destruct sorted.
  { exists l3. split_and!; [done|done|by apply Hsorted3]. }
  assert (∃ equal,
    (if (0 <? a)%nat
     then sort.Less D (a - 1) pivot2 (st l3) ≫= λ lt0, Ok (negb lt0)
     else Ok false) = Ok equal ∧
    (equal = true →
     0 < a ∧ lt (l3 !!! (a - 1)) (l3 !!! pivot2) = false))
    as (equal & -> & Hequal).
  { destruct (0 <? a)%nat eqn:Ha.
    - apply Nat.ltb_lt in Ha.
      rewrite (Less_st lt x h0) by lia. cbn [mbind result_bind].
      eexists. split; [done|]. intros Hneg.
      split; [done|]. by destruct (lt _ _).
    - by exists false. }
  cbn [mbind result_bind].
  pose proof Hperm3 as Hperm3'.
  destruct equal.
  - destruct (Hequal eq_refl) as [Ha Heq].
    destruct (partitionEqualLessFunc_spec lt x h0 a b pivot2 l3)
      as (mid & l4 & -> & Hperm4 & Hmid1 & Hmid2 & Hlo & Hhi);
      [by apply lt_irrefl|lia..|].
    cbn [mbind result_bind].
    pose proof Hperm4 as (Hlen4 & Hframe4 & _).
    assert (barrier lt a b l4) as Hbar4.
    { apply (barrier_perm_in a b l3); [lia|lia|done|done]. }
    destruct (IH mid b limit1 wasBalanced wasPartitioned l4)
      as (l5 & -> & Hperm5 & Hsorted5); [lia|lia|lia| |].
    { intros _ k Hk1 Hk2.
      apply (lt_negtrans _ (l3 !!! pivot2)).
      - apply lt_asym, Hhi; lia.
      - apply Hlo; lia. }
    pose proof Hperm5 as (Hlen5 & Hframe5 & _).
    exists l5. split_and!; [done| |].
    + apply (perm_in_trans _ _ _ l3); [done|].
      apply (perm_in_trans _ _ _ l4); [done|].
      apply (perm_in_mono _ _ mid b); [lia..|done].
    + apply (sorted_in_join_equal a mid b l5 (l3 !!! pivot2)).
      * intros k Hk1 Hk2. rewrite Hframe5 by lia. split.
        -- apply Hlo; lia.
        -- apply (lt_negtrans _ (l3 !!! (a - 1))); [|done].
           rewrite <- (Hframe4 (a - 1)) by lia.
           apply Hbar4; lia.
      * apply (perm_in_all_in mid b _ l4); [lia|lia|done|done].
      * done.
  - destruct (partitionLessFunc_spec lt x h0 a b pivot2 l3)
      as (mid & alreadyPartitioned & l4 & -> & Hperm4 & Hmid1 & Hmid2
          & Hlo & Hhi); [lia..|].
    cbn [mbind result_bind].
    pose proof Hperm4 as (Hlen4 & Hframe4 & _).
    assert (barrier lt a b l4) as Hbar4.
    { apply (barrier_perm_in a b l3); [lia|lia|done|done]. }
    assert (perm_in a b l l4) as Hperm14.
    { by apply (perm_in_trans _ _ _ l3). }
    destruct (mid - a <? b - mid)%nat.
    + destruct (IH a mid limit1 true true l4)
        as (l5 & -> & Hperm5 & Hsorted5); [lia|lia|lia| |].
      { apply (barrier_sub a b); [done|lia|done]. }
      cbn [mbind result_bind].
      pose proof Hperm5 as (Hlen5 & Hframe5 & _).
      destruct (IH (mid + 1) b limit1
                  ((b - a) `div` 8 <=? mid - a)%nat alreadyPartitioned l5)
        as (l6 & -> & Hperm6 & Hsorted6); [lia|lia|lia| |].
      { intros _ k Hk1 Hk2.
        replace (mid + 1 - 1) with mid by lia.
        rewrite !Hframe5 by lia. apply Hhi; lia. }
      exists l6. split; [done|].
      destruct (partition_join_left_first a mid b l4 l5 l6)
        as [Hperm46 Hsorted]; [lia|lia|lia|done..|].
      split; [|done]. by apply (perm_in_trans _ _ _ l4).
    + destruct (IH (mid + 1) b limit1 true true l4)
        as (l5 & -> & Hperm5 & Hsorted5); [lia|lia|lia| |].
      { intros _ k Hk1 Hk2.
        replace (mid + 1 - 1) with mid by lia. apply Hhi; lia. }
      cbn [mbind result_bind].
      pose proof Hperm5 as (Hlen5 & Hframe5 & _).
      destruct (IH a mid limit1
                  ((b - a) `div` 8 <=? b - mid)%nat alreadyPartitioned l5)
        as (l6 & -> & Hperm6 & Hsorted6); [lia|lia|lia| |].
      { intros Ha k Hk1 Hk2.
        rewrite (Hframe5 (a - 1)), (Hframe5 k) by lia.
        apply Hbar4; lia. }
      exists l6. split; [done|].
      destruct (partition_join_right_first a mid b l4 l5 l6)
        as [Hperm46 Hsorted]; [lia|lia|lia|done..|].
      split; [|done]. by apply (perm_in_trans _ _ _ l4).
Qed.

End pdq_main.

Section pdq_top.
Context {T : Type}.
Variable lt : T → T → bool.
Hypothesis lt_asym : ∀ a b, lt a b = true → lt b a = false.
Hypothesis lt_negtrans :
  ∀ a b c, lt a b = false → lt b c = false → lt a c = false.

Lemma sorted_in_StronglySorted `{!Inhabited T} (l : list T) :
  sorted_in lt 0 (length l) l →
  StronglySorted (λ a b, lt b a = false) l.
Proof.
  induction l as [|v l IH]; intros Hsorted; constructor.
  - apply IH. intros i j Hi Hij Hj.
    apply (Hsorted (S i) (S j)); cbn [length]; lia.
  - apply Forall_lookup. intros i y Hy.
    pose proof (lookup_lt_Some _ _ _ Hy) as Hi.
    specialize (Hsorted 0 (S i) ltac:(lia) ltac:(lia) ltac:(cbn [length]; lia)).
    change (lt (l !!! i) v = false) in Hsorted.
    by rewrite (list_lookup_total_correct _ _ _ Hy) in Hsorted.
Qed.

(** [Sort] sorts: for a comparator that is a strict weak order the
    slice holds, after the call, a rearrangement of its elements in
    ascending order. *)
Lemma Sort_sorts (x : nat) (h : gmap nat (list T)) (l : list T) :
  h !! x = Some l →
  ∃ l', Sort x (less_by lt x) h = Ok (x, <[x := l']> h) ∧
        l' ≡ₚ l ∧ StronglySorted (λ a b, lt b a = false) l'.
Proof.
  intros Hx. destruct l as [|v l0] eqn:Hl.
  { apply Sort_sorts_up_to_12; [done|done|done|cbn; lia]. }
  rewrite <- Hl in *. clear Hl l0.
  pose (populate v : Inhabited T) as HT.
  unfold Sort, sort_Slice, Len. rewrite Hx.
  cbn [mbind result_bind]. unfold sort.pdqsortLessFunc.
  destruct (pdqsort_loop_spec lt lt_asym lt_negtrans x h
              (S (length l - 0)) 0 (length l)
              (sort.bits_Len (length l)) true true l)
    as (l' & Hrun & Hperm & Hsorted); [lia|lia|lia| |].
  { intros Ha. lia. }
  rewrite (insert_id h x l Hx) in Hrun. rewrite Hrun.
  cbn [mbind result_bind]. exists l'.
  pose proof Hperm as (Hlen & _ & _).
  split_and!; [done| |].
  - apply (perm_in_perm 0 (length l)); [lia|done].
  - apply sorted_in_StronglySorted. by rewrite Hlen.
Qed.

End pdq_top.

Section maps_facts.
Context `{Countable K} {V1 V2 : Type}.
Variable Sprintf_v : K → string.
Variable zero_V1 : V1.

#[local] Instance key_le_dec : RelDecision (key_le Sprintf_v).
Proof. intros a b. unfold key_le. apply _. Defined.

#[local] Instance key_le_trans : Transitive (key_le Sprintf_v).
Proof. intros a b c. unfold key_le. apply transitivity. Qed.

#[local] Instance key_le_total : Total (key_le Sprintf_v).
Proof. intros a b. unfold key_le. apply total, _. Qed.

Lemma key_less_le a b : key_less Sprintf_v b a = false ↔ key_le Sprintf_v a b.
Proof.
  unfold key_less, key_le, String.le. rewrite String_ltb_leb.
  destruct (String.leb (Sprintf_v a) (Sprintf_v b)); simpl;
    split; (done || by intros []).
Qed.

Lemma key_less_asym a b :
  key_less Sprintf_v a b = true → key_less Sprintf_v b a = false.
Proof.
  intros Hab. apply key_less_le.
  destruct (total (key_le Sprintf_v) a b) as [Hle|Hle]; [done|].
  apply key_less_le in Hle. congruence.
Qed.

Lemma key_less_negtrans a b c :
  key_less Sprintf_v a b = false → key_less Sprintf_v b c = false →
  key_less Sprintf_v a c = false.
Proof. rewrite !key_less_le. intros ? ?. by etrans. Qed.

Lemma collect_keys (entries : list (K * V1)) :
  foldl (λ keys kv, keys ++ [kv.1]) [] entries = entries.*1.
Proof.
  enough (∀ acc, foldl (λ keys (kv : K * V1), keys ++ [kv.1]) acc entries
                 = acc ++ entries.*1) as Hgen by apply Hgen.
  induction entries as [|kv entries IH]; intros acc; simpl.
  - by rewrite app_nil_r.
  - by rewrite IH, <- app_assoc.
Qed.

(** C8 as amended.  When different keys of the map have different
    string representations, [MapHashMapToList] applies [mappingFunc] along the keys in
    ascending order of their string representation: the result is the
    same for every order in which the map is ranged over. *)
Theorem MapHashMapToList_ascending_keys
    (range_order : gmap K V1 → list (K * V1))
    (source : gmap K V1) (mappingFunc : K → V1 → V2) :
  (∀ m, range_order m ≡ₚ map_to_list m) →
  (∀ k1 k2, is_Some (source !! k1) → is_Some (source !! k2) →
            Sprintf_v k1 = Sprintf_v k2 → k1 = k2) →
  MapHashMapToList Sprintf_v zero_V1 range_order source mappingFunc
  = Ok ((λ key, mappingFunc key (default zero_V1 (source !! key)))
          <$> merge_sort (key_le Sprintf_v) (map_to_list source).*1).
Proof.
  intros Horder Hinj. unfold MapHashMapToList.
  rewrite collect_keys.
  destruct (Sort_sorts (key_less Sprintf_v) key_less_asym key_less_negtrans
              0 {[0 := (range_order source).*1]} (range_order source).*1)
    as (l' & -> & Hperm & Hsorted).
  - apply lookup_singleton_eq.
  - cbn [mbind result_bind]. unfold index_all. rewrite lookup_insert_eq.
    cbn [mbind result_bind]. rewrite Map_fmap. do 2 f_equal.
    apply (StronglySorted_unique_strong (key_le Sprintf_v)).
    + intros k1 k2 Hk1 Hk2 H12 H21. apply Hinj.
      * rewrite Hperm, Horder in Hk1.
        apply list_elem_of_fmap in Hk1 as ([k v] & -> & Hk1).
        apply elem_of_map_to_list in Hk1. by eexists.
      * rewrite merge_sort_Permutation in Hk2.
        apply list_elem_of_fmap in Hk2 as ([k v] & -> & Hk2).
        apply elem_of_map_to_list in Hk2. by eexists.
      * unfold key_le in *. by apply (anti_symm String.le).
    + eapply StronglySorted_mono; [|exact Hsorted].
      intros a b. apply key_less_le.
    + apply StronglySorted_merge_sort; apply _.
    + by rewrite Hperm, Horder, merge_sort_Permutation.
Qed.

End maps_facts.

Lemma MapHashMapToList_ascending_keys_witness :
  MapHashMapToList Examples.Sprintf_string 0 (reverse ∘ map_to_list)
    Examples.fruit_map (λ key value, (key, value))
  = Ok ((λ key, (key, default 0 (Examples.fruit_map !! key)))
          <$> merge_sort (key_le Examples.Sprintf_string)
                (map_to_list Examples.fruit_map).*1).
Proof.
  apply MapHashMapToList_ascending_keys.
  - intros m. apply reverse_Permutation.
  - by intros k1 k2 _ _ ?.
Defined.

Example MapHashMapToList_fruit :
  MapHashMapToList Examples.Sprintf_string 0 (reverse ∘ map_to_list)
    Examples.fruit_map (λ key value, key +:+ " " +:+ pretty value)
  = Ok ["apple 1"; "banana 2"; "cherry 3"].
Proof. vm_compute. reflexivity. Qed.

(** C8 fails when two keys have the same string representation: the
    keys [{"a b", "c"}] and [{"a", "b c"}] both print as [{a b c}],
    the comparator finds neither less than the other, and the result
    depends on the order in which the map was ranged over. *)
Lemma MapHashMapToList_depends_on_range_order :
  Examples.Sprintf_pair ("a b", "c") = Examples.Sprintf_pair ("a", "b c") ∧
  (∀ m : gmap (string * string) nat, map_to_list m ≡ₚ map_to_list m) ∧
  (∀ m : gmap (string * string) nat,
     (reverse ∘ map_to_list) m ≡ₚ map_to_list m) ∧
  MapHashMapToList Examples.Sprintf_pair 0 map_to_list
    Examples.pair_map (λ key value, value)
  ≠ MapHashMapToList Examples.Sprintf_pair 0 (reverse ∘ map_to_list)
      Examples.pair_map (λ key value, value).
Proof.
  split_and!.
  - reflexivity.
  - done.
  - intros m. apply reverse_Permutation.
  - vm_compute. discriminate.
Qed.

(** * Part III: the other helpers of the packages *)

(** ** Lists: [Map], [Filter], [FlatMap], [Reduce], [ForAll] *)

Section list_helpers.
Context {T1 T2 T3 : Type}.

Lemma FlatMap_concat (source : list (list T1)) :
  FlatMap source = mjoin source.
Proof.
  unfold FlatMap.
  enough (∀ acc, foldl (λ result item : list T1, result ++ item) acc source
                 = acc ++ mjoin source) as Hgen by apply Hgen.
  induction source as [|x l IH]; intros acc; simpl.
  - by rewrite app_nil_r.
  - rewrite IH. by rewrite <- app_assoc.
Qed.

Lemma ForAll_forallb (elements : list T1) (condition : T1 → bool) :
  ForAll elements condition = forallb condition elements.
Proof.
  induction elements as [|e rest IH]; [done|]. simpl.
  by destruct (condition e).
Qed.

(** [Map] returns a slice of the length of its input whose element at
    each index is the transform of the input's element there; two
    [Map]s in a row are one [Map] with the composed transform. *)
Theorem Map_keeps_positions (source : list T1) (f : T1 → T2) (g : T2 → T3) :
  length (Map source f) = length source ∧
  (∀ i, Map source f !! i = f <$> source !! i) ∧
  Map (Map source f) g = Map source (λ item, g (f item)).
Proof.
  rewrite !Map_fmap. split_and!.
  - apply length_fmap.
  - intros i. apply list_lookup_fmap.
  - by rewrite <- list_fmap_compose.
Qed.

Lemma filter_both (p r : T1 → bool) (source : list T1) :
  filter (λ x, r x = true) (filter (λ x, p x = true) source)
  = filter (λ x, p x && r x = true) source.
Proof.
  induction source as [|x l IH]; [done|].
  rewrite !filter_cons. destruct (p x) eqn:Hp; simpl.
  - rewrite filter_cons. destruct (decide (r x = true)); by rewrite IH.
  - by rewrite IH.
Qed.

(** [Filter] keeps exactly the items that pass the test, in the order
    of the input: the result is a subsequence of the input.
    Filtering twice is filtering once with both tests, and a [Filter]
    after a [Map] is the [Map] after the [Filter] that tests the
    transformed item. *)
Theorem Filter_keeps_matching_in_order
    (source : list T1) (p q : T1 → bool) (f : T1 → T2) (r : T2 → bool) :
  sublist (Filter source p) source ∧
  (∀ item, item ∈ Filter source p ↔ item ∈ source ∧ p item = true) ∧
  Filter (Filter source p) q = Filter source (λ item, p item && q item) ∧
  Filter (Map source f) r = Map (Filter source (λ item, r (f item))) f.
Proof.
  rewrite !Map_fmap, !Filter_filter. split_and!.
  - apply sublist_filter.
  - intros item. rewrite list_elem_of_filter. tauto.
  - apply filter_both.
  - induction source as [|x l IH]; [done|].
    rewrite fmap_cons, !filter_cons. simpl.
    destruct (decide (r (f x) = true)); [rewrite fmap_cons|]; by rewrite IH.
Qed.

(** [FlatMap source] is the inner slices put end to end, in the order
    of [source] and each in its own order: the result for an inner
    slice followed by others is that slice followed by the result for
    the others.  So its length is the sum of the lengths of the inner
    slices, [FlatMap] of slices put end to end is the [FlatMap]s put
    end to end, and [FlatMap] undoes a [Map] that wraps every item in
    a slice of its own. *)
Theorem FlatMap_items (source s1 s2 : list (list T1)) (inner l : list T1) :
  FlatMap source = mjoin source ∧
  FlatMap ([] : list (list T1)) = [] ∧
  FlatMap (inner :: source) = inner ++ FlatMap source ∧
  (∀ item, item ∈ FlatMap source ↔ ∃ inner, inner ∈ source ∧ item ∈ inner) ∧
  length (FlatMap source) = sum_list (length <$> source) ∧
  FlatMap (s1 ++ s2) = FlatMap s1 ++ FlatMap s2 ∧
  FlatMap (Map l (λ item, [item])) = l.
Proof.
  split_and!.
  - apply FlatMap_concat.
  - done.
  - by rewrite !FlatMap_concat.
  - intros item. rewrite FlatMap_concat, list_elem_of_join.
    split; intros (inner' & ? & ?); exists inner'; tauto.
  - rewrite FlatMap_concat. induction source as [|x xs IH]; [done|].
    simpl. by rewrite length_app, IH.
  - rewrite !FlatMap_concat. apply join_app.
  - rewrite FlatMap_concat, Map_fmap.
    induction l as [|x xs IH]; [done|]. simpl. f_equal. exact IH.
Qed.

(** [ForAll] holds exactly when every element passes the condition, so
    it holds of the empty slice; it holds exactly when [Filter] with
    the same condition keeps the whole slice. *)
Theorem ForAll_every_element (elements : list T1) (condition : T1 → bool) :
  (ForAll elements condition = true
   ↔ ∀ e, e ∈ elements → condition e = true) ∧
  (ForAll elements condition = true ↔ Filter elements condition = elements) ∧
  ForAll (Filter elements condition) condition = true.
Proof.
  rewrite !ForAll_forallb, Filter_filter.
  assert (∀ l, forallb condition l = true ↔ ∀ e, e ∈ l → condition e = true)
    as Hall.
  { intros l. rewrite forallb_forall.
    split; intros Hl e He; apply Hl; by apply list_elem_of_In. }
  split_and!.
  - apply Hall.
  - rewrite Hall. split.
    + intros Hl. induction elements as [|x l IH]; [done|].
      rewrite filter_cons, decide_True by (apply Hl; left).
      f_equal. apply IH. intros e He. apply Hl. by right.
    + intros Heq e He. rewrite <- Heq in He.
      by apply list_elem_of_filter in He as [? _].
  - apply Hall. intros e He. by apply list_elem_of_filter in He as [? _].
Qed.

End list_helpers.

Section reduce_facts.
Context {T : Type}.

(** For an associative [reduceFunc] with the neutral element
    [initialValue], a slice can be reduced in two parts. *)
Theorem Reduce_app (s1 s2 : list T) (reduceFunc : T → T → T)
    (initialValue : T) :
  (∀ a b c, reduceFunc (reduceFunc a b) c = reduceFunc a (reduceFunc b c)) →
  (∀ a, reduceFunc initialValue a = a) →
  (∀ a, reduceFunc a initialValue = a) →
  Reduce (s1 ++ s2) reduceFunc initialValue
  = reduceFunc (Reduce s1 reduceFunc initialValue)
               (Reduce s2 reduceFunc initialValue).
Proof.
  intros Hassoc Hleft Hright. unfold Reduce. rewrite foldl_app.
  generalize (foldl (λ acc item, reduceFunc acc item) initialValue s1).
  intros a.
  assert (∀ l b, foldl (λ acc item, reduceFunc acc item) (reduceFunc a b) l
                 = reduceFunc a (foldl (λ acc item, reduceFunc acc item) b l))
    as Hgen.
  { induction l as [|x l IH]; intros b; [done|].
    simpl. by rewrite Hassoc, IH. }
  by rewrite <- Hgen, Hright.
Qed.

End reduce_facts.

Lemma Reduce_app_witness :
  Reduce ([1; 2] ++ [3; 4]) Nat.add 0
  = Reduce [1; 2] Nat.add 0 + Reduce [3; 4] Nat.add 0.
Proof.
  apply (Reduce_app [1; 2] [3; 4] Nat.add 0); intros; lia.
Defined.

(** ** [Sum] at the integer types *)

Section sum_facts.
Variable w : Z.
Hypothesis w_pos : (0 < w)%Z.

Lemma half_lt_modulus : (0 < 2 ^ (w - 1) ∧ 2 ^ w = 2 * 2 ^ (w - 1))%Z.
Proof.
  split; [apply Z.pow_pos_nonneg; lia|].
  rewrite <- Z.pow_succ_r by lia. f_equal. lia.
Qed.

Lemma wrap_in_range z : in_range w (wrap w z).
Proof.
  unfold in_range, wrap. destruct half_lt_modulus as [Hpos Hmod].
  pose proof (Z.mod_pos_bound (z + 2 ^ (w - 1)) (2 ^ w) ltac:(lia)). lia.
Qed.

Lemma wrap_small z : in_range w z → wrap w z = z.
Proof.
  unfold in_range, wrap. destruct half_lt_modulus as [Hpos Hmod].
  intros Hz. rewrite Z.mod_small by lia. lia.
Qed.

Lemma wrap_add_l a b : wrap w (wrap w a + b) = wrap w (a + b).
Proof.
  unfold wrap. destruct half_lt_modulus as [Hpos Hmod]. f_equal.
  replace ((a + 2 ^ (w - 1)) mod 2 ^ w - 2 ^ (w - 1) + b + 2 ^ (w - 1))%Z
    with ((a + 2 ^ (w - 1)) mod 2 ^ w + b)%Z by lia.
  rewrite Zplus_mod_idemp_l. f_equal. lia.
Qed.

Lemma Sum_loop l : ∀ acc,
  foldl (λ total v, wrap w (total + v)) (wrap w acc) l
  = wrap w (acc + exact_sum l).
Proof.
  induction l as [|x l IH]; intros acc; simpl.
  - by rewrite Z.add_0_r.
  - rewrite wrap_add_l, IH. f_equal. lia.
Qed.

Lemma Sum_wrap l : Sum w l = wrap w (exact_sum l).
Proof.
  unfold Sum. rewrite <- (wrap_small 0) at 1.
  - by rewrite Sum_loop.
  - unfold in_range. destruct half_lt_modulus. lia.
Qed.

(** At a [w]-bit integer type [Sum] is the exact sum of the elements
    brought back into the range of the type by wrapping around.  So
    the result is the exact sum whenever that fits the type, even when
    sums on the way overflow, and it does not depend on the order of
    the elements. *)
Theorem Sum_is_wrapped_exact_sum (l l' : list Z) :
  Sum w l = wrap w (exact_sum l) ∧
  in_range w (Sum w l) ∧
  (in_range w (exact_sum l) → Sum w l = exact_sum l) ∧
  (l ≡ₚ l' → Sum w l = Sum w l').
Proof.
  rewrite !Sum_wrap.
  split_and!; [done|apply wrap_in_range|apply wrap_small|].
  intros Hperm. f_equal. unfold exact_sum.
  induction Hperm; simpl; lia.
Qed.

End sum_facts.

Lemma Sum_is_wrapped_exact_sum_witness :
  Sum 8 [100; 100; -100]%Z = wrap 8 (exact_sum [100; 100; -100]%Z) ∧
  in_range 8 (Sum 8 [100; 100; -100]%Z) ∧
  (in_range 8 (exact_sum [100; 100; -100]%Z)
   → Sum 8 [100; 100; -100]%Z = exact_sum [100; 100; -100]%Z) ∧
  ([100; 100; -100]%Z ≡ₚ [-100; 100; 100]%Z
   → Sum 8 [100; 100; -100]%Z = Sum 8 [-100; 100; 100]%Z).
Proof.
  apply (Sum_is_wrapped_exact_sum 8). lia.
Defined.

(** ** [Distinct] *)

Section distinct_more.
Context `{Countable T}.

Local Abbreviation same := (λ a b : T, bool_decide (a = b)).

Lemma existsb_same (kept : list T) (x : T) :
  existsb (λ k, same k x) kept = true ↔ x ∈ kept.
Proof.
  rewrite existsb_exists. split.
  - intros (k & Hk & Heq). apply bool_decide_eq_true in Heq as ->.
    by apply list_elem_of_In.
  - intros Hx. exists x. split; [by apply list_elem_of_In|].
    by apply bool_decide_eq_true.
Qed.

Lemma pairwise_distinct_loop_kept (seq : list T) : ∀ kept,
  pairwise_distinct_loop same kept seq
  = kept ++ filter (λ y, y ∉ kept) (pairwise_distinct_loop same [] seq).
Proof.
  induction seq as [|x rest IH]; intros kept.
  - simpl. by rewrite filter_nil, app_nil_r.
  - cbn [pairwise_distinct_loop existsb orb app].
    rewrite (IH [x]). cbn [app]. rewrite filter_cons.
    destruct (existsb (λ k, bool_decide (k = x)) kept) eqn:Hex.
    + apply existsb_same in Hex.
      rewrite decide_False by (intros Hn; by apply Hn).
      rewrite IH. f_equal. rewrite list_filter_filter.
      apply list_filter_iff. intros y. split; [|tauto].
      intros Hy. split; [done|]. rewrite list_elem_of_singleton.
      by intros ->.
    + assert (x ∉ kept) as Hx.
      { intros Hx. apply existsb_same in Hx. congruence. }
      rewrite decide_True by done. rewrite IH, <- app_assoc. cbn [app].
      do 2 f_equal. rewrite list_filter_filter.
      apply list_filter_iff. intros y.
      rewrite elem_of_app, !list_elem_of_singleton. tauto.
Qed.

Lemma Distinct_cons (x : T) (s : list T) :
  Distinct (x :: s) = x :: filter (λ y, y ≠ x) (Distinct s).
Proof.
  rewrite !Distinct_pairwise_eq. unfold pairwise_distinct.
  cbn [pairwise_distinct_loop existsb].
  rewrite pairwise_distinct_loop_kept. cbn [app]. f_equal.
  apply list_filter_iff. intros y. by rewrite list_elem_of_singleton.
Qed.

Lemma Distinct_nil : Distinct ([] : list T) = [].
Proof. done. Qed.

Lemma elem_of_Distinct (s : list T) x : x ∈ Distinct s ↔ x ∈ s.
Proof.
  induction s as [|y s IH]; [by rewrite Distinct_nil|].
  rewrite Distinct_cons, !elem_of_cons, list_elem_of_filter, IH.
  destruct (decide (x = y)); tauto.
Qed.

Lemma NoDup_Distinct (s : list T) : NoDup (Distinct s).
Proof.
  induction s as [|y s IH]; [rewrite Distinct_nil; constructor|].
  rewrite Distinct_cons. apply NoDup_cons. split.
  - rewrite list_elem_of_filter. by intros [? _].
  - by apply NoDup_filter.
Qed.

Lemma sublist_Distinct (s : list T) : sublist (Distinct s) s.
Proof.
  induction s as [|y s IH]; [by rewrite Distinct_nil|].
  rewrite Distinct_cons. apply sublist_skip.
  etrans; [apply sublist_filter|done].
Qed.

Lemma filter_ne_id (y : T) (l : list T) :
  y ∉ l → filter (λ z, z ≠ y) l = l.
Proof.
  induction l as [|z l IH]; intros Hy; [done|].
  apply not_elem_of_cons in Hy as [Hne Hy].
  rewrite filter_cons, decide_True by done. f_equal. by apply IH.
Qed.

Lemma Distinct_NoDup (s : list T) : NoDup s → Distinct s = s.
Proof.
  induction s as [|y s IH]; intros Hnd; [done|].
  apply NoDup_cons in Hnd as [Hy Hnd].
  rewrite Distinct_cons, IH by done. f_equal. by apply filter_ne_id.
Qed.

Lemma pairwise_distinct_loop_app (s1 s2 : list T) : ∀ kept,
  pairwise_distinct_loop same kept (s1 ++ s2)
  = pairwise_distinct_loop same (pairwise_distinct_loop same kept s1) s2.
Proof.
  induction s1 as [|x s1 IH]; intros kept; [done|].
  cbn [app pairwise_distinct_loop].
  destruct (existsb _ kept); apply IH.
Qed.

(** [Distinct] returns the items of the slice without repetition: no
    item occurs twice in the result, the result has the items of the
    input and no others, and it is a subsequence of the input.  So
    [Distinct] applied twice is [Distinct] applied once. *)
Theorem Distinct_no_duplicates (s : list T) :
  NoDup (Distinct s) ∧
  (∀ item, item ∈ Distinct s ↔ item ∈ s) ∧
  sublist (Distinct s) s ∧
  Distinct (Distinct s) = Distinct s.
Proof.
  split_and!;
    [apply NoDup_Distinct|intros; apply elem_of_Distinct|apply sublist_Distinct|].
  apply Distinct_NoDup, NoDup_Distinct.
Qed.

(** [Distinct] keeps the first occurrence of every item: the head of
    the slice stays at the head and its later copies go; the result
    for two slices put end to end is the result for the first
    followed by the new items of the second. *)
Theorem Distinct_keeps_first_occurrences (x : T) (s1 s2 : list T) :
  Distinct (x :: s1) = x :: filter (λ y, y ≠ x) (Distinct s1) ∧
  Distinct (s1 ++ s2) = Distinct s1 ++ filter (λ y, y ∉ s1) (Distinct s2).
Proof.
  split; [apply Distinct_cons|].
  rewrite !Distinct_pairwise_eq. unfold pairwise_distinct.
  rewrite pairwise_distinct_loop_app, pairwise_distinct_loop_kept.
  f_equal. apply list_filter_iff. intros y.
  fold (pairwise_distinct same s1).
  by rewrite <- Distinct_pairwise_eq, elem_of_Distinct.
Qed.

End distinct_more.

(** ** [SliceToHashMap] and [MapToHashMap] *)

Section list_to_map_facts.
Context `{Countable K} {T1 T2 : Type}.

Lemma SliceToHashMap_loop (l : list K) : ∀ (acc : gmap K bool) k,
  foldl (λ result item, <[item := true]> result) acc l !! k
  = if decide (k ∈ l) then Some true else acc !! k.
Proof.
  induction l as [|x l IH]; intros acc k; cbn [foldl].
  - by rewrite decide_False by apply not_elem_of_nil.
  - rewrite IH. destruct (decide (k ∈ l)) as [Hin|Hnotin].
    + by rewrite decide_True by (by right).
    + destruct (decide (k = x)) as [->|Hne].
      * rewrite decide_True by left. by rewrite lookup_insert_eq.
      * rewrite decide_False by (by intros [?|?]%elem_of_cons).
        by rewrite lookup_insert_ne.
Qed.

Lemma SliceToHashMap_lookup (l : list K) k :
  SliceToHashMap l !! k = if decide (k ∈ l) then Some true else None.
Proof. unfold SliceToHashMap. by rewrite SliceToHashMap_loop, lookup_empty. Qed.

(** The map of [SliceToHashMap] holds [true] at the items of the slice
    and has no other key; it has as many keys as [Distinct] keeps
    items. *)
Theorem SliceToHashMap_is_membership (l : list K) :
  (∀ k, k ∈ l → SliceToHashMap l !! k = Some true) ∧
  (∀ k, k ∉ l → SliceToHashMap l !! k = None) ∧
  size (SliceToHashMap l) = length (Distinct l).
Proof.
  split_and!.
  - intros k Hk. by rewrite SliceToHashMap_lookup, decide_True.
  - intros k Hk. by rewrite SliceToHashMap_lookup, decide_False.
  - rewrite <- size_dom.
    assert (dom (SliceToHashMap l) = list_to_set (Distinct l)) as ->.
    { apply set_eq. intros k.
      rewrite elem_of_dom, elem_of_list_to_set, elem_of_Distinct.
      rewrite SliceToHashMap_lookup.
      destruct (decide (k ∈ l)); [by split; eauto|].
      split; [by intros [? ?]|done]. }
    apply size_list_to_set, NoDup_Distinct.
Qed.

Lemma MapToHashMap_loop (f : T1 → K * T2) (source : list T1) :
  ∀ (acc : gmap K T2) k,
    foldl (λ result item, let '(key, value) := f item in <[key := value]> result)
          acc source !! k
    = match last (filter (λ kv, kv.1 = k) (f <$> source)) with
      | Some kv => Some kv.2
      | None => acc !! k
      end.
Proof.
  induction source as [|x l IH]; intros acc k; [done|].
  cbn [foldl]. rewrite IH. rewrite fmap_cons, filter_cons.
  destruct (f x) as [key value] eqn:Hfx. cbn [fst].
  destruct (decide (key = k)) as [->|Hne].
  - destruct (filter (λ kv, kv.1 = k) (f <$> l)) as [|kv kvs] eqn:Hf.
    + by rewrite lookup_insert_eq.
    + rewrite (last_cons (k, value)).
      destruct (last (kv :: kvs)); [done|]. by rewrite lookup_insert_eq.
  - destruct (last _); [done|]. by rewrite lookup_insert_ne.
Qed.

(** In the map of [MapToHashMap] a key holds the value of the last
    item of the slice that maps to it, and a key that no item maps to
    is absent.  When the items map to different keys the map has one
    entry for each item. *)
Theorem MapToHashMap_last_item_wins (source : list T1) (f : T1 → K * T2) :
  (∀ k, MapToHashMap source f !! k
        = snd <$> last (filter (λ kv, kv.1 = k) (f <$> source))) ∧
  (NoDup (f <$> source).*1 →
     MapToHashMap source f = list_to_map (f <$> source) ∧
     size (MapToHashMap source f) = length source).
Proof.
  assert (∀ k, MapToHashMap source f !! k
               = snd <$> last (filter (λ kv, kv.1 = k) (f <$> source)))
    as Hlookup.
  { intros k. unfold MapToHashMap. rewrite MapToHashMap_loop, lookup_empty.
    by destruct (last _). }
  split; [done|]. intros Hnd.
  assert (MapToHashMap source f = list_to_map (f <$> source)) as Heq.
  { apply map_eq. intros k. rewrite Hlookup.
    pose proof (filter_key_NoDup (f <$> source) k Hnd) as Hone.
    destruct (filter (λ kv, kv.1 = k) (f <$> source)) as [|[k' v] [|? ?]]
      eqn:Hf; cbn [last fmap option_fmap option_map snd];
      [| |simpl in Hone; lia].
    - symmetry. apply not_elem_of_list_to_map_1. intros Hin.
      apply list_elem_of_fmap in Hin as ([k1 v1] & Heq & Hin).
      cbn [fst] in Heq. subst k.
      assert ((k1, v1) ∈ filter (λ kv, kv.1 = k1) (f <$> source)) as Hin'.
      { apply list_elem_of_filter. by split. }
      rewrite Hf in Hin'. by apply elem_of_nil in Hin'.
    - symmetry. apply elem_of_list_to_map_1; [done|].
      assert ((k', v) ∈ filter (λ kv, kv.1 = k) (f <$> source)) as Hin.
      { rewrite Hf. left. }
      apply list_elem_of_filter in Hin as [Hk' Hin]. by simplify_eq/=. }
  split; [done|]. rewrite Heq.
  rewrite <- size_dom, dom_list_to_map_L, size_list_to_set by done.
  by rewrite !length_fmap.
Qed.

End list_to_map_facts.

(** ** Loops over a map: [FilterMap], [CloneMap],
    [MapHashMapToHashMap] *)

Section range_loops.
Context `{Countable K} {V V2 : Type}.
Variable range_order : gmap K V → list (K * V).
Hypothesis range_order_perm : ∀ m, range_order m ≡ₚ map_to_list m.

Lemma NoDup_range_order (m : gmap K V) : NoDup (range_order m).*1.
Proof. rewrite range_order_perm. apply NoDup_fst_map_to_list. Qed.

Lemma list_to_map_range_order (m : gmap K V) :
  list_to_map (range_order m) = m.
Proof.
  rewrite <- (list_to_map_to_list m) at 2.
  apply list_to_map_proper; [apply NoDup_range_order|done].
Qed.

(** A loop over entries with different keys that sets [result[key]]
    to [y] when [g key value] is [Some y] and leaves [result] alone
    otherwise. *)
Lemma fold_entries_lookup (g : K → V → option V2)
    (step : gmap K V2 → K * V → gmap K V2) :
  (∀ r kv k, step r kv !! k
             = if decide (kv.1 = k)
               then from_option Some (r !! k) (g kv.1 kv.2) else r !! k) →
  ∀ entries, NoDup entries.*1 → ∀ acc k,
    foldl step acc entries !! k
    = match (list_to_map entries : gmap K V) !! k with
      | Some v => from_option Some (acc !! k) (g k v)
      | None => acc !! k
      end.
Proof.
  intros Hstep entries. induction entries as [|[k0 v0] entries IH];
    intros Hnd acc k.
  - change (list_to_map [] : gmap K V) with (∅ : gmap K V).
    by rewrite lookup_empty.
  - cbn [fmap list_fmap fst] in Hnd. apply NoDup_cons in Hnd as [Hk0 Hnd].
    cbn [foldl list_to_map foldr uncurry]. rewrite (IH Hnd), Hstep.
    cbn [fst snd]. destruct (decide (k0 = k)) as [->|Hne].
    + rewrite lookup_insert_eq.
      by rewrite (not_elem_of_list_to_map_1 _ _ Hk0).
    + by rewrite lookup_insert_ne.
Qed.

Lemma fold_range_lookup (g : K → V → option V2)
    (step : gmap K V2 → K * V → gmap K V2) (source : gmap K V) k :
  (∀ r kv k, step r kv !! k
             = if decide (kv.1 = k)
               then from_option Some (r !! k) (g kv.1 kv.2) else r !! k) →
  foldl step ∅ (range_order source) !! k = source !! k ≫= g k.
Proof.
  intros Hstep.
  rewrite (fold_entries_lookup g step Hstep _ (NoDup_range_order source)).
  rewrite list_to_map_range_order, lookup_empty.
  destruct (source !! k) as [v|]; [|done]. simpl. by destruct (g k v).
Qed.

End range_loops.

Section collection_maps_facts.
Context `{Countable K} {V V2 : Type}.
Variable range_order : gmap K V → list (K * V).
Hypothesis range_order_perm : ∀ m, range_order m ≡ₚ map_to_list m.

Lemma FilterMap_lookup (source : gmap K V) (f : K → V → bool) k :
  FilterMap range_order source f !! k
  = source !! k ≫= λ v, if f k v then Some v else None.
Proof.
  unfold FilterMap.
  apply (fold_range_lookup range_order range_order_perm
           (λ k v, if f k v then Some v else None)).
  intros r [k0 v0] k'. cbn [fst snd].
  destruct (f k0 v0); destruct (decide (k0 = k')) as [->|Hne]; cbn;
    by rewrite ?lookup_insert_eq, ?lookup_insert_ne.
Qed.

(** [FilterMap] returns the entries of the map that pass the test, and
    no others, whatever the order in which the map is ranged over. *)
Theorem FilterMap_keeps_matching_entries
    (source : gmap K V) (filteringFunc : K → V → bool) :
  (∀ key value,
     FilterMap range_order source filteringFunc !! key = Some value
     ↔ source !! key = Some value ∧ filteringFunc key value = true) ∧
  FilterMap range_order source filteringFunc ⊆ source.
Proof.
  assert (∀ key value,
     FilterMap range_order source filteringFunc !! key = Some value
     ↔ source !! key = Some value ∧ filteringFunc key value = true) as Hiff.
  { intros key value. rewrite FilterMap_lookup.
    destruct (source !! key) as [v|]; cbn; [|by split; [|intros []]].
    destruct (filteringFunc key v) eqn:Hf; split.
    - by intros [= <-].
    - by intros [[= <-] _].
    - done.
    - intros [[= <-] ?]. congruence. }
  split; [done|]. apply map_subseteq_spec. intros key value Hkey.
  by apply Hiff in Hkey as [? _].
Qed.

(** [CloneMap] returns a map with the entries of its argument,
    whatever the order in which the map is ranged over; it is
    [FilterMap] with a test that always passes. *)
Theorem CloneMap_same_entries (source : gmap K V) :
  CloneMap range_order source = source ∧
  CloneMap range_order source = FilterMap range_order source (λ _ _, true).
Proof.
  assert (CloneMap range_order source = source) as Hclone.
  { apply map_eq. intros k. unfold CloneMap.
    rewrite (fold_range_lookup range_order range_order_perm (λ _ v, Some v)).
    - by destruct (source !! k).
    - intros r [k0 v0] k'. cbn [fst snd].
      destruct (decide (k0 = k')) as [->|Hne]; cbn;
        by rewrite ?lookup_insert_eq, ?lookup_insert_ne. }
  split; [done|]. rewrite Hclone. apply map_eq. intros k.
  rewrite FilterMap_lookup. by destruct (source !! k).
Qed.

(** [MapHashMapToHashMap] returns a map with the keys of its argument
    in which every key holds the transform of its entry, whatever the
    order in which the map is ranged over. *)
Theorem MapHashMapToHashMap_maps_entries
    (source : gmap K V) (mappingFunc : K → V → V2) :
  (∀ key, MapHashMapToHashMap range_order source mappingFunc !! key
          = mappingFunc key <$> source !! key) ∧
  dom (MapHashMapToHashMap range_order source mappingFunc) = dom source.
Proof.
  assert (∀ key, MapHashMapToHashMap range_order source mappingFunc !! key
                 = mappingFunc key <$> source !! key) as Hlookup.
  { intros k. unfold MapHashMapToHashMap.
    rewrite (fold_range_lookup range_order range_order_perm
               (λ k v, Some (mappingFunc k v))).
    - by destruct (source !! k).
    - intros r [k0 v0] k'. cbn [fst snd].
      destruct (decide (k0 = k')) as [->|Hne]; cbn;
        by rewrite ?lookup_insert_eq, ?lookup_insert_ne. }
  split; [done|]. apply set_eq. intros k.
  rewrite !elem_of_dom, Hlookup. by rewrite fmap_is_Some.
Qed.

End collection_maps_facts.

Lemma FilterMap_keeps_matching_entries_witness :
  (∀ key value,
     FilterMap (reverse ∘ map_to_list) Examples.fruit_map
       (λ _ n, (n <? 3)%nat) !! key = Some value
     ↔ Examples.fruit_map !! key = Some value ∧ (value <? 3)%nat = true) ∧
  FilterMap (reverse ∘ map_to_list) Examples.fruit_map (λ _ n, (n <? 3)%nat)
    ⊆ Examples.fruit_map.
Proof.
  apply (FilterMap_keeps_matching_entries (reverse ∘ map_to_list)).
  intros m. apply reverse_Permutation.
Defined.

Lemma CloneMap_same_entries_witness :
  CloneMap (reverse ∘ map_to_list) Examples.fruit_map = Examples.fruit_map ∧
  CloneMap (reverse ∘ map_to_list) Examples.fruit_map
  = FilterMap (reverse ∘ map_to_list) Examples.fruit_map (λ _ _, true).
Proof.
  apply (CloneMap_same_entries (reverse ∘ map_to_list)).
  intros m. apply reverse_Permutation.
Defined.

Lemma MapHashMapToHashMap_maps_entries_witness :
  (∀ key, MapHashMapToHashMap (reverse ∘ map_to_list) Examples.fruit_map
            (λ key value, key +:+ pretty value) !! key
          = (λ value, key +:+ pretty value) <$> Examples.fruit_map !! key) ∧
  dom (MapHashMapToHashMap (reverse ∘ map_to_list) Examples.fruit_map
         (λ key value, key +:+ pretty value))
  = dom Examples.fruit_map.
Proof.
  apply (MapHashMapToHashMap_maps_entries (reverse ∘ map_to_list)).
  intros m. apply reverse_Permutation.
Defined.

(** ** Loops with effects and errors *)

Section effects.
Context {T T2 St : Type}.

Lemma ForEachWithError_cases
    (source : list T) (action : T → St → option error * St) : ∀ s,
  (∃ s', all_done action source s s' ∧
     ForEachWithError source action s = (None, s'))
  ∨ (∃ pre item post s1 cause s2,
       source = pre ++ item :: post ∧
       all_done action pre s s1 ∧
       action item s1 = (Some cause, s2) ∧
       ForEachWithError source action s = (Some cause, s2)).
Proof.
  induction source as [|item rest IH]; intros s.
  - left. exists s. split; [constructor|done].
  - cbn [ForEachWithError]. destruct (action item s) as [[cause|] s1] eqn:Ha.
    + right. exists [], item, rest, s, cause, s1.
      split_and!; [done|constructor|done|done].
    + destruct (IH s1) as [(s' & Hok & Heq)
                          |(pre & it & post & s2 & c & s3 & -> & Hok & Hf & Heq)].
      * left. exists s'. split; [by econstructor|done].
      * right. exists (item :: pre), it, post, s2, c, s3.
        split_and!; [done|by econstructor|done|done].
Qed.

(** [ForEachWithError] calls the action on the items in order.  Either
    every call returns a nil error and so does [ForEachWithError]; or
    there is a first failing item: its error is returned as it is, not
    wrapped, and no later item is visited.  With an action that never
    fails [ForEachWithError] is [ForEach]. *)
Theorem ForEachWithError_first_failure
    (source : list T) (action : T → St → option error * St)
    (act : T → St → St) (s : St) :
  ((∃ s', all_done action source s s' ∧
      ForEachWithError source action s = (None, s'))
   ∨ (∃ pre item post s1 cause s2,
        source = pre ++ item :: post ∧
        all_done action pre s s1 ∧
        action item s1 = (Some cause, s2) ∧
        ForEachWithError source action s = (Some cause, s2))) ∧
  ForEachWithError source (λ item s, (None, act item s)) s
  = (None, ForEach source act s).
Proof.
  split; [apply ForEachWithError_cases|].
  unfold ForEach. revert s.
  induction source as [|item rest IH]; intros s; [done|].
  cbn [ForEachWithError foldl]. apply IH.
Qed.

End effects.

Section MapToHashMapReturnWithError_facts.
Context {T1 T2 St : Type} `{Countable K}.
Implicit Types (f : T1 → St → (K * T2 * option error) * St).

Lemma MapToHashMapReturnWithError_loop_cases f source : ∀ idx result s,
  (∃ kvs s', all_mapped f source s kvs s' ∧
     MapToHashMapReturnWithError_loop f idx source result s
       = ((Some (foldl (λ r kv, let '(key, value) := kv in <[key := value]> r)
                       result kvs), None), s'))
  ∨ (∃ pre item post kvs s1 key value cause s2,
       source = pre ++ item :: post ∧
       all_mapped f pre s kvs s1 ∧
       f item s1 = ((key, value, Some cause), s2) ∧
       MapToHashMapReturnWithError_loop f idx source result s
         = ((None, Some (errors.Wrap cause
                           (index_message (idx + length pre)))), s2)).
Proof.
  induction source as [|item rest IH]; intros idx result s.
  - left. exists [], s. split; [constructor|done].
  - cbn [MapToHashMapReturnWithError_loop].
    destruct (f item s) as [[[key value] [cause|]] s1] eqn:Hf.
    + right. exists [], item, rest, [], s, key, value, cause, s1.
      simpl. rewrite Nat.add_0_r. split_and!; try done. constructor.
    + destruct (IH (S idx) (<[key := value]> result) s1)
        as [(kvs & s' & Hok & Heq)
           |(pre & it & post & kvs & s2 & k & v & c & s3
             & -> & Hok & Hf' & Heq)].
      * left. exists ((key, value) :: kvs), s'.
        split; [by econstructor|]. by rewrite Heq.
      * right. exists (item :: pre), it, post, ((key, value) :: kvs),
          s2, k, v, c, s3.
        split_and!; try done; [by econstructor|].
        rewrite Heq. simpl. by rewrite Nat.add_succ_r.
Qed.

(** [MapToHashMapReturnWithError] calls [mappingFunc] on the items in
    order.  Either every call succeeds and the map holds the entries
    produced, a later entry replacing an earlier one of the same key;
    or there is a first failing item, at zero-based index
    [length pre]: the map returned is nil, the error wraps the cause
    under the message naming that index, and no later item is
    visited. *)
Theorem MapToHashMapReturnWithError_first_failure f
    (source : list T1) (s : St) :
  (∃ kvs s', all_mapped f source s kvs s' ∧
     MapToHashMapReturnWithError source f s
       = ((Some (MapToHashMap kvs (λ kv, kv)), None), s'))
  ∨ (∃ pre item post kvs s1 key value cause s2,
       source = pre ++ item :: post ∧
       all_mapped f pre s kvs s1 ∧
       f item s1 = ((key, value, Some cause), s2) ∧
       MapToHashMapReturnWithError source f s
         = ((None, Some (errors.Wrap cause (index_message (length pre)))), s2) ∧
       errors.Error (errors.Wrap cause (index_message (length pre)))
         = "error mapping at index:'" +:+ pretty (length pre)
             +:+ "', error: " +:+ errors.Error cause).
Proof.
  unfold MapToHashMapReturnWithError.
  destruct (MapToHashMapReturnWithError_loop_cases f source 0 ∅ s)
    as [(kvs & s' & Hok & Heq)
       |(pre & it & post & kvs & s1 & k & v & c & s2 & -> & Hok & Hf & Heq)].
  - left. exists kvs, s'. split; [done|]. by rewrite Heq.
  - right. exists pre, it, post, kvs, s1, k, v, c, s2.
    split_and!; try done.
    simpl. unfold index_message. by rewrite !string_app_assoc.
Qed.

End MapToHashMapReturnWithError_facts.

Section MapHashMapToHashMapReturnWithError_facts.
Context `{Countable K} {V1 V2 : Type}.
Variable Sprintf_v : K → string.
Variable range_order : gmap K V1 → list (K * V1).
Hypothesis range_order_perm : ∀ m, range_order m ≡ₚ map_to_list m.
Implicit Types (f : K → V1 → V2 * option error).

Lemma MapHashMapToHashMapReturnWithError_loop_cases f entries : ∀ result,
  (Forall (λ kv, (f kv.1 kv.2).2 = None) entries ∧
   MapHashMapToHashMapReturnWithError_loop Sprintf_v f entries result
   = (Some (foldl (λ r kv, <[kv.1 := (f kv.1 kv.2).1]> r) result entries),
      None))
  ∨ (∃ pre key value post cause,
       entries = pre ++ (key, value) :: post ∧
       Forall (λ kv, (f kv.1 kv.2).2 = None) pre ∧
       (f key value).2 = Some cause ∧
       MapHashMapToHashMapReturnWithError_loop Sprintf_v f entries result
       = (None, Some (errors.Wrap cause (key_message Sprintf_v key)))).
Proof.
  induction entries as [|[key value] rest IH]; intros result.
  - left. split; [constructor|done].
  - cbn [MapHashMapToHashMapReturnWithError_loop].
    destruct (f key value) as [res [cause|]] eqn:Hf.
    + right. exists [], key, value, rest, cause.
      split_and!; [done|constructor|by rewrite Hf|done].
    + destruct (IH (<[key := res]> result))
        as [(Hok & Heq)|(pre & k & v & post & c & -> & Hok & Hf' & Heq)].
      * left. split; [constructor; [cbn [fst snd]; by rewrite Hf|done]|].
        rewrite Heq. cbn [foldl fst snd]. by rewrite Hf.
      * right. exists ((key, value) :: pre), k, v, post, c.
        split_and!; [done|constructor; [cbn [fst snd]; by rewrite Hf|done]|done|done].
Qed.

(** [MapHashMapToHashMapReturnWithError]: when [mappingFunc] succeeds
    on every entry, the map returned holds the result for every key of
    the source, whatever the order of the [range].  Otherwise the map
    returned is nil and the error wraps the cause of a failing entry
    under the message naming its key: the entry is the first failing
    one in the order of the [range]. *)
Theorem MapHashMapToHashMapReturnWithError_cases (source : gmap K V1) f :
  ((∀ key value, source !! key = Some value → (f key value).2 = None) ∧
   ∃ m, MapHashMapToHashMapReturnWithError Sprintf_v range_order source f
        = (Some m, None) ∧
        ∀ key, m !! key = (λ value, (f key value).1) <$> source !! key)
  ∨ (∃ pre key value post cause,
       range_order source = pre ++ (key, value) :: post ∧
       source !! key = Some value ∧
       Forall (λ kv, (f kv.1 kv.2).2 = None) pre ∧
       (f key value).2 = Some cause ∧
       MapHashMapToHashMapReturnWithError Sprintf_v range_order source f
       = (None, Some (errors.Wrap cause (key_message Sprintf_v key))) ∧
       errors.Error (errors.Wrap cause (key_message Sprintf_v key))
       = "error mapping at key:'" +:+ Sprintf_v key
           +:+ "', error: " +:+ errors.Error cause).
Proof.
  unfold MapHashMapToHashMapReturnWithError.
  destruct (MapHashMapToHashMapReturnWithError_loop_cases f
              (range_order source) ∅)
    as [(Hok & Heq)|(pre & k & v & post & c & Hsplit & Hok & Hf & Heq)].
  - left. split.
    + intros key value Hkey.
      rewrite Forall_forall in Hok. apply (Hok (key, value)).
      rewrite range_order_perm. by apply elem_of_map_to_list.
    + eexists. split; [exact Heq|]. intros key.
      rewrite (fold_range_lookup range_order range_order_perm
                 (λ k v, Some (f k v).1)).
      * by destruct (source !! key).
      * intros r [k0 v0] k'. cbn [fst snd].
        destruct (decide (k0 = k')) as [->|Hne]; cbn;
          by rewrite ?lookup_insert_eq, ?lookup_insert_ne.
  - right. exists pre, k, v, post, c. split_and!; try done.
    + apply elem_of_map_to_list. rewrite <- range_order_perm, Hsplit.
      apply elem_of_app. right. left.
    + simpl. unfold key_message. by rewrite !string_app_assoc.
Qed.

End MapHashMapToHashMapReturnWithError_facts.

Lemma MapHashMapToHashMapReturnWithError_cases_witness :
  ((∀ key value, Examples.fruit_map !! key = Some value →
                 (pretty value, None : option error).2 = None) ∧
   ∃ m, MapHashMapToHashMapReturnWithError Examples.Sprintf_string
          (reverse ∘ map_to_list) Examples.fruit_map
          (λ _ value, (pretty value, None))
        = (Some m, None) ∧
        ∀ key, m !! key
               = (λ value, (pretty value, None : option error).1)
                   <$> Examples.fruit_map !! key)
  ∨ (∃ pre key value post cause,
       (reverse ∘ map_to_list) Examples.fruit_map
         = pre ++ (key, value) :: post ∧
       Examples.fruit_map !! key = Some value ∧
       Forall (λ kv, (pretty kv.2, None : option error).2 = None) pre ∧
       (pretty value, None : option error).2 = Some cause ∧
       MapHashMapToHashMapReturnWithError Examples.Sprintf_string
         (reverse ∘ map_to_list) Examples.fruit_map
         (λ _ value, (pretty value, None))
       = (None, Some (errors.Wrap cause
                        (key_message Examples.Sprintf_string key))) ∧
       errors.Error (errors.Wrap cause
                       (key_message Examples.Sprintf_string key))
       = "error mapping at key:'" +:+ Examples.Sprintf_string key
           +:+ "', error: " +:+ errors.Error cause).
Proof.
  apply (MapHashMapToHashMapReturnWithError_cases Examples.Sprintf_string
           (reverse ∘ map_to_list)).
  intros m. apply reverse_Permutation.
Defined.

(** ** [Sort] on a slice that is in order already *)

Section pdq_sorted_input.
Context {T : Type} `{!Inhabited T}.
Variable lt : T → T → bool.
Variable x : nat.
Variable h0 : gmap nat (list T).

Local Abbreviation D := (sort.mkLessSwap (less_by lt x) (Swapper x)).
Local Abbreviation st l := (<[x := l]> h0).

Implicit Types (l : list T) (a b i j k : nat).

Lemma Less_sorted i j l :
  sorted_in lt 0 (length l) l → j < i → i < length l →
  sort.Less D i j (st l) = Ok false.
Proof.
  intros Hsorted Hji Hi. rewrite (Less_st lt x h0) by lia.
  f_equal. apply Hsorted; lia.
Qed.

Lemma insertionSort_inner_sorted a j l :
  sorted_in lt 0 (length l) l → j < length l →
  sort.insertionSort_inner D a j (st l) = Ok (st l).
Proof.
  intros Hsorted Hj. destruct j as [|j]; [done|].
  cbn [sort.insertionSort_inner]. destruct (a <? S j)%nat; [|done].
  by rewrite Less_sorted by (done || lia).
Qed.

Lemma insertionSortLessFunc_sorted a b l :
  sorted_in lt 0 (length l) l → b ≤ length l →
  sort.insertionSortLessFunc D a b (st l) = Ok (st l).
Proof.
  intros Hsorted Hb. unfold sort.insertionSortLessFunc.
  assert (Forall (λ i, i < length l) (seq (a + 1) (b - (a + 1)))) as Hseq.
  { apply Forall_forall. intros i Hi%elem_of_seq. lia. }
  induction Hseq as [|i is_ Hi _ IH]; [done|].
  cbn [foldlM]. rewrite insertionSort_inner_sorted by done.
  cbn [mbind result_bind]. apply IH.
Qed.

Lemma order2LessFunc_sorted a b swaps l :
  sorted_in lt 0 (length l) l → a < b → b < length l →
  sort.order2LessFunc D a b swaps (st l) = Ok (a, b, swaps).
Proof.
  intros Hsorted Hab Hb. unfold sort.order2LessFunc.
  by rewrite Less_sorted by (done || lia).
Qed.

Lemma medianLessFunc_sorted a b c swaps l :
  sorted_in lt 0 (length l) l → a < b → b < c → c < length l →
  sort.medianLessFunc D a b c swaps (st l) = Ok (b, swaps).
Proof.
  intros Hsorted Hab Hbc Hc. unfold sort.medianLessFunc.
  rewrite order2LessFunc_sorted by (done || lia). cbn [mbind result_bind].
  rewrite order2LessFunc_sorted by (done || lia). cbn [mbind result_bind].
  by rewrite order2LessFunc_sorted by (done || lia).
Qed.

Lemma choosePivotLessFunc_sorted a b l :
  sorted_in lt 0 (length l) l → b ≤ length l → 8 ≤ b - a →
  ∃ pivot, sort.choosePivotLessFunc D a b (st l)
           = Ok (pivot, sort.increasingHint).
Proof.
  intros Hsorted Hb Hlen. unfold sort.choosePivotLessFunc. cbn zeta.
  replace (8 <=? b - a)%nat with true by (symmetry; by apply Nat.leb_le).
  assert (2 ≤ (b - a) / 4) as Hq.
  { apply Nat.div_le_lower_bound; lia. }
  assert (4 * ((b - a) / 4) ≤ b - a) as Hq4.
  { apply Nat.Div0.mul_div_le. }
  destruct (50 <=? b - a)%nat eqn:Hninther.
  - unfold sort.medianAdjacentLessFunc. apply Nat.leb_le in Hninther.
    rewrite (medianLessFunc_sorted (a + (b - a) / 4 * 1 - 1)); [|done|lia..].
    cbn [mbind result_bind].
    rewrite (medianLessFunc_sorted (a + (b - a) / 4 * 2 - 1)); [|done|lia..].
    cbn [mbind result_bind].
    rewrite (medianLessFunc_sorted (a + (b - a) / 4 * 3 - 1)); [|done|lia..].
    cbn [mbind result_bind].
    rewrite medianLessFunc_sorted; [|done|lia..].
    cbn [mbind result_bind]. by eexists.
  - cbn [mbind result_bind].
    rewrite medianLessFunc_sorted; [|done|lia..].
    cbn [mbind result_bind]. by eexists.
Qed.

Lemma scan_sorted_sorted fuel : ∀ b i l,
  sorted_in lt 0 (length l) l → b ≤ length l → 1 ≤ i → i ≤ b →
  b - i < fuel →
  sort.scan_sorted D fuel b i (st l) = Ok b.
Proof.
  induction fuel as [|fuel IH]; intros b i l Hsorted Hb Hi Hib Hfuel; [lia|].
  cbn [sort.scan_sorted]. destruct (i <? b)%nat eqn:Hlt.
  - apply Nat.ltb_lt in Hlt. rewrite Less_sorted by (done || lia).
    cbn [mbind result_bind]. apply IH; (done || lia).
  - apply Nat.ltb_ge in Hlt. f_equal. lia.
Qed.

Lemma partialInsertionSortLessFunc_sorted a b l :
  sorted_in lt 0 (length l) l → a < b → b ≤ length l →
  sort.partialInsertionSortLessFunc D a b (st l) = Ok (true, st l).
Proof.
  intros Hsorted Hab Hb. unfold sort.partialInsertionSortLessFunc.
  cbn [sort.partialInsertionSort_loop]. cbn zeta.
  rewrite scan_sorted_sorted by (done || lia). cbn [mbind result_bind].
  by rewrite Nat.eqb_refl.
Qed.

Lemma pdqsortLessFunc_sorted l :
  sorted_in lt 0 (length l) l →
  sort.pdqsortLessFunc D 0 (length l) (sort.bits_Len (length l)) (st l)
  = Ok (st l).
Proof.
  intros Hsorted. unfold sort.pdqsortLessFunc.
  cbn [sort.pdqsort_loop]. cbn zeta. rewrite Nat.sub_0_r.
  destruct (length l <=? 12)%nat eqn:Hsmall.
  { by apply insertionSortLessFunc_sorted. }
  apply Nat.leb_gt in Hsmall.
  destruct (length l) as [|n] eqn:Hlen; [lia|].
  cbn [sort.bits_Len Nat.eqb negb]. cbn [mbind result_bind].
  rewrite <- Hlen in *.
  destruct (choosePivotLessFunc_sorted 0 (length l) l) as [pivot ->];
    [done|lia|lia|].
  cbn [mbind result_bind andb].
  rewrite partialInsertionSortLessFunc_sorted by (done || lia).
  done.
Qed.

End pdq_sorted_input.

Section sort_facts.
Context {T : Type}.
Variable lt : T → T → bool.

Lemma StronglySorted_sorted_in `{!Inhabited T} (l : list T) :
  StronglySorted (λ a b, lt b a = false) l → sorted_in lt 0 (length l) l.
Proof.
  intros Hsorted i j _ Hij Hj.
  apply (StronglySorted_lookup _ l i j _ _ Hsorted Hij);
    apply list_lookup_lookup_total_lt; lia.
Qed.

Lemma Sort_sorted (x : nat) (h : gmap nat (list T)) (l : list T) :
  h !! x = Some l →
  StronglySorted (λ a b, lt b a = false) l →
  Sort x (less_by lt x) h = Ok (x, h).
Proof.
  intros Hx Hsorted. destruct l as [|v l0] eqn:Hl.
  { rewrite (Sort_insertion lt x h []) by (done || cbn; lia).
    by rewrite insert_id. }
  rewrite <- Hl in *. clear Hl l0.
  pose (populate v : Inhabited T) as HT.
  unfold Sort, sort_Slice, Len. rewrite Hx. cbn [mbind result_bind].
  rewrite <- (insert_id h x l Hx) at 1.
  rewrite pdqsortLessFunc_sorted by by apply StronglySorted_sorted_in.
  cbn [mbind result_bind]. by rewrite insert_id.
Qed.

(** [Sort] leaves a slice that is in order as it is, for every
    comparator: when no element is less than an element before it,
    the memory after the call is the memory before it, and the slice
    returned reads as the argument did. *)
Theorem Sort_leaves_sorted_slice
    (x : nat) (h : gmap nat (list T)) (l : list T) :
  h !! x = Some l →
  StronglySorted (λ a b, lt b a = false) l →
  Sort x (less_by lt x) h = Ok (x, h) ∧
  ('(y, h') ← Sort x (less_by lt x) h; index_all y h') = Ok l.
Proof.
  intros Hx Hsorted. rewrite (Sort_sorted x h l Hx Hsorted).
  split; [done|]. cbn [mbind result_bind]. unfold index_all.
  by rewrite Hx.
Qed.

Hypothesis lt_asym : ∀ a b, lt a b = true → lt b a = false.
Hypothesis lt_negtrans :
  ∀ a b c, lt a b = false → lt b c = false → lt a c = false.

(** For a comparator that is a strict weak order [Sort] returns the
    slice it was given, holding a rearrangement of its elements in
    ascending order, whatever the length; the other slices in memory
    are as before, and sorting the result again changes nothing. *)
Theorem Sort_ascending_rearrangement
    (x : nat) (h : gmap nat (list T)) (l : list T) :
  h !! x = Some l →
  ∃ l' h',
    Sort x (less_by lt x) h = Ok (x, h') ∧
    h' !! x = Some l' ∧
    (∀ y, y ≠ x → h' !! y = h !! y) ∧
    l' ≡ₚ l ∧
    StronglySorted (λ a b, lt b a = false) l' ∧
    Sort x (less_by lt x) h' = Ok (x, h').
Proof.
  intros Hx.
  destruct (Sort_sorts lt lt_asym lt_negtrans x h l Hx)
    as (l' & Hsort & Hperm & Hsorted).
  exists l', (<[x := l']> h). split_and!; [done| | |done|done|].
  - apply lookup_insert_eq.
  - intros y Hy. by apply lookup_insert_ne.
  - apply (Sort_sorted x _ l'); [apply lookup_insert_eq|done].
Qed.

End sort_facts.

Lemma by_score_asym (a b : string * nat) :
  Examples.by_score a b = true → Examples.by_score b a = false.
Proof.
  unfold Examples.by_score. intros Hab%Nat.ltb_lt. apply Nat.ltb_ge. lia.
Qed.

Lemma by_score_negtrans (a b c : string * nat) :
  Examples.by_score a b = false → Examples.by_score b c = false →
  Examples.by_score a c = false.
Proof.
  unfold Examples.by_score. intros Hab%Nat.ltb_ge Hbc%Nat.ltb_ge.
  apply Nat.ltb_ge. lia.
Qed.

Lemma Sort_leaves_sorted_slice_witness :
  Sort 0 (less_by Examples.by_score 0)
       {[0 := [("c", 0); ("a", 1); ("b", 1)]]}
  = Ok (0, {[0 := [("c", 0); ("a", 1); ("b", 1)]]}) ∧
  ('(y, h') ← Sort 0 (less_by Examples.by_score 0)
                 {[0 := [("c", 0); ("a", 1); ("b", 1)]]};
   index_all y h') = Ok [("c", 0); ("a", 1); ("b", 1)].
Proof.
  apply (Sort_leaves_sorted_slice Examples.by_score 0 _
           [("c", 0); ("a", 1); ("b", 1)]).
  - reflexivity.
  - repeat constructor.
Defined.

Lemma Sort_ascending_rearrangement_witness :
  ∃ l' h',
    Sort 0 (less_by Examples.by_score 0) {[0 := Examples.thirteen]}
      = Ok (0, h') ∧
    h' !! 0 = Some l' ∧
    (∀ y, y ≠ 0 →
          h' !! y = ({[0 := Examples.thirteen]} : gmap nat _) !! y) ∧
    l' ≡ₚ Examples.thirteen ∧
    StronglySorted (λ a b, Examples.by_score b a = false) l' ∧
    Sort 0 (less_by Examples.by_score 0) h' = Ok (0, h').
Proof.
  apply (Sort_ascending_rearrangement Examples.by_score
           by_score_asym by_score_negtrans 0 _ Examples.thirteen).
  reflexivity.
Defined.

(** ** [CloneList] *)

Section clone_facts.
Context {T : Type}.
Variable alloc : gmap nat (list T) → nat.
Hypothesis alloc_fresh : ∀ h, h !! alloc h = None.

Lemma CloneList_spec (zero : T) (source : nat) (h : gmap nat (list T)) l :
  h !! source = Some l →
  CloneList alloc zero source h = Ok (alloc h, <[alloc h := l]> h).
Proof.
  intros Hsource.
  assert (alloc h ≠ source) as Hne.
  { intros Heq. pose proof (alloc_fresh h) as Hfresh. congruence. }
  unfold CloneList, Len. rewrite Hsource. cbn [mbind result_bind].
  unfold make. cbn zeta. unfold copy, index_all.
  rewrite lookup_insert_eq. cbn [mbind result_bind].
  rewrite lookup_insert_ne, Hsource by done. cbn [mbind result_bind].
  rewrite length_replicate, Nat.min_id.
  rewrite firstn_all, drop_ge by (by rewrite length_replicate).
  by rewrite app_nil_r, insert_insert_eq.
Qed.

(** [CloneList] returns a new slice with the elements of its
    argument: its array was not in use before the call, and the
    argument and every other slice in memory are as before. *)
Theorem CloneList_new_slice
    (zero : T) (source : nat) (h : gmap nat (list T)) (l : list T) :
  h !! source = Some l →
  ∃ clone h',
    CloneList alloc zero source h = Ok (clone, h') ∧
    h !! clone = None ∧
    h' !! clone = Some l ∧
    (∀ y, y ≠ clone → h' !! y = h !! y).
Proof.
  intros Hsource. exists (alloc h), (<[alloc h := l]> h).
  split_and!; [by apply CloneList_spec|done|apply lookup_insert_eq|].
  intros y Hy. by apply lookup_insert_ne.
Qed.

Variable lt : T → T → bool.
Hypothesis lt_asym : ∀ a b, lt a b = true → lt b a = false.
Hypothesis lt_negtrans :
  ∀ a b c, lt a b = false → lt b c = false → lt a c = false.

(** Sorting the clone of a slice leaves the slice as it was: the clone
    holds its elements in ascending order. *)
Theorem Sort_of_CloneList_keeps_source
    (zero : T) (source : nat) (h : gmap nat (list T)) (l : list T) :
  h !! source = Some l →
  ∃ clone h' l',
    ('(clone, h) ← CloneList alloc zero source h;
     Sort clone (less_by lt clone) h) = Ok (clone, h') ∧
    h' !! source = Some l ∧
    h' !! clone = Some l' ∧
    l' ≡ₚ l ∧
    StronglySorted (λ a b, lt b a = false) l'.
Proof.
  intros Hsource.
  assert (alloc h ≠ source) as Hne.
  { intros Heq. pose proof (alloc_fresh h) as Hfresh. congruence. }
  rewrite (CloneList_spec zero source h l Hsource).
  cbn [mbind result_bind].
  destruct (Sort_sorts lt lt_asym lt_negtrans (alloc h)
              (<[alloc h := l]> h) l) as (l' & -> & Hperm & Hsorted).
  { apply lookup_insert_eq. }
  exists (alloc h), (<[alloc h := l']> (<[alloc h := l]> h)), l'.
  split_and!; [done| |apply lookup_insert_eq|done|done].
  by rewrite !lookup_insert_ne.
Qed.

End clone_facts.

Lemma CloneList_new_slice_witness :
  ∃ clone h',
    CloneList (λ h, fresh (dom h)) 0 7 {[7 := [3; 1; 2]]} = Ok (clone, h') ∧
    ({[7 := [3; 1; 2]]} : gmap nat (list nat)) !! clone = None ∧
    h' !! clone = Some [3; 1; 2] ∧
    (∀ y, y ≠ clone →
          h' !! y = ({[7 := [3; 1; 2]]} : gmap nat (list nat)) !! y).
Proof.
  apply (CloneList_new_slice (λ h, fresh (dom h))).
  - intros h. apply not_elem_of_dom, is_fresh.
  - reflexivity.
Defined.

Lemma Sort_of_CloneList_keeps_source_witness :
  ∃ clone h' l',
    ('(clone, h) ← CloneList (λ h, fresh (dom h)) 0 7 {[7 := [3; 1; 2]]};
     Sort clone (less_by Nat.ltb clone) h) = Ok (clone, h') ∧
    h' !! 7 = Some [3; 1; 2] ∧
    h' !! clone = Some l' ∧
    l' ≡ₚ [3; 1; 2] ∧
    StronglySorted (λ a b, (b <? a)%nat = false) l'.
Proof.
  apply (Sort_of_CloneList_keeps_source (λ h, fresh (dom h))).
  - intros h. apply not_elem_of_dom, is_fresh.
  - intros a b Hab%Nat.ltb_lt. apply Nat.ltb_ge. lia.
  - intros a b c Hab%Nat.ltb_ge Hbc%Nat.ltb_ge. apply Nat.ltb_ge. lia.
  - reflexivity.
Defined.

(** ** [MapHashMapToList] and [MapHashMapToListReturnWithError] *)

Section sorted_keys_facts.
Context `{Countable K} {V1 V2 : Type}.
Variable Sprintf_v : K → string.
Variable zero_V1 : V1.
Variable range_order : gmap K V1 → list (K * V1).
Hypothesis range_order_perm : ∀ m, range_order m ≡ₚ map_to_list m.

#[local] Existing Instances key_le_dec key_le_trans key_le_total.

Lemma lookup_key_of_entry (source : gmap K V1) (kv : K * V1) :
  kv ∈ map_to_list source → default zero_V1 (source !! kv.1) = kv.2.
Proof.
  destruct kv as [k v]. intros Hkv%elem_of_map_to_list. cbn [fst snd].
  by rewrite Hkv.
Qed.

(** [MapHashMapToList] returns one element for each entry of the map,
    the transform of the entry, whatever the string representations of
    the keys are and whatever the order of the [range]: the result is
    a rearrangement of the transforms of the entries. *)
Theorem MapHashMapToList_one_element_per_entry
    (source : gmap K V1) (mappingFunc : K → V1 → V2) :
  ∃ l, MapHashMapToList Sprintf_v zero_V1 range_order source mappingFunc
       = Ok l ∧
       l ≡ₚ (λ kv, mappingFunc kv.1 kv.2) <$> map_to_list source ∧
       length l = size source.
Proof.
  unfold MapHashMapToList. rewrite collect_keys.
  destruct (Sort_sorts (key_less Sprintf_v) (key_less_asym Sprintf_v)
              (key_less_negtrans Sprintf_v)
              0 {[0 := (range_order source).*1]} (range_order source).*1)
    as (l' & -> & Hperm & _); [apply lookup_singleton_eq|].
  cbn [mbind result_bind]. unfold index_all. rewrite lookup_insert_eq.
  cbn [mbind result_bind]. rewrite Map_fmap. eexists. split; [done|].
  assert ((λ key, mappingFunc key (default zero_V1 (source !! key))) <$> l'
          ≡ₚ (λ kv, mappingFunc kv.1 kv.2) <$> map_to_list source) as Hl.
  { rewrite Hperm, range_order_perm, <- list_fmap_compose.
    enough ((λ key, mappingFunc key (default zero_V1 (source !! key))) ∘ fst
              <$> map_to_list source
            = (λ kv, mappingFunc kv.1 kv.2) <$> map_to_list source) as ->
      by done.
    apply Forall_fmap_ext_1, Forall_forall.
    intros kv Hkv. cbn. by rewrite (lookup_key_of_entry _ _ Hkv). }
  split; [done|]. by rewrite Hl, length_fmap, length_map_to_list.
Qed.

Hypothesis Sprintf_v_inj : ∀ k1 k2, Sprintf_v k1 = Sprintf_v k2 → k1 = k2.

Lemma Sort_keys (source : gmap K V1) :
  Sort 0 (less_by (key_less Sprintf_v) 0) {[0 := (range_order source).*1]}
  = Ok (0, {[0 := merge_sort (key_le Sprintf_v) (map_to_list source).*1]}).
Proof.
  destruct (Sort_sorts (key_less Sprintf_v) (key_less_asym Sprintf_v)
              (key_less_negtrans Sprintf_v)
              0 {[0 := (range_order source).*1]} (range_order source).*1)
    as (l' & -> & Hperm & Hsorted); [apply lookup_singleton_eq|].
  rewrite insert_singleton_eq. do 3 f_equal.
  apply (StronglySorted_unique_strong (key_le Sprintf_v)).
  - intros k1 k2 _ _ H12 H21. apply Sprintf_v_inj.
    unfold key_le in *. by apply (anti_symm String.le).
  - eapply StronglySorted_mono; [|exact Hsorted].
    intros a b. apply key_less_le.
  - apply StronglySorted_merge_sort; apply _.
  - by rewrite Hperm, range_order_perm, merge_sort_Permutation.
Qed.

Implicit Types (f : K → V1 → V2 * option error).

Lemma MapHashMapToListReturnWithError_loop_cases (source : gmap K V1) f keys :
  ∀ result,
  (Forall (λ k, (f k (default zero_V1 (source !! k))).2 = None) keys ∧
   MapHashMapToListReturnWithError_loop Sprintf_v zero_V1 source f keys result
   = (Some (result
            ++ ((λ k, (f k (default zero_V1 (source !! k))).1) <$> keys)),
      None))
  ∨ (∃ pre key post cause,
       keys = pre ++ key :: post ∧
       Forall (λ k, (f k (default zero_V1 (source !! k))).2 = None) pre ∧
       (f key (default zero_V1 (source !! key))).2 = Some cause ∧
       MapHashMapToListReturnWithError_loop Sprintf_v zero_V1 source f
         keys result
       = (None, Some (errors.Wrap cause (key_message Sprintf_v key)))).
Proof.
  induction keys as [|key rest IH]; intros result.
  - left. split; [constructor|]. simpl. by rewrite app_nil_r.
  - cbn [MapHashMapToListReturnWithError_loop].
    destruct (f key (default zero_V1 (source !! key))) as [res [cause|]]
      eqn:Hf.
    + right. exists [], key, rest, cause.
      split_and!; [done|constructor|by rewrite Hf|done].
    + destruct (IH (result ++ [res]))
        as [(Hok & Heq)|(pre & k & post & c & -> & Hok & Hf' & Heq)].
      * left. split; [constructor; [by rewrite Hf|done]|].
        rewrite Heq, fmap_cons, Hf. by rewrite <- app_assoc.
      * right. exists (key :: pre), k, post, c.
        split_and!; [done|constructor; [by rewrite Hf|done]|done|done].
Qed.

(** [MapHashMapToListReturnWithError], when different keys have
    different string representations: [mappingFunc] is applied along
    the keys in ascending order of their string representation.  When
    it succeeds on every entry the results come back in that order;
    otherwise the slice returned is nil and the error wraps the cause
    for the least key on which [mappingFunc] fails under the message
    naming that key.  The outcome is the same for every order of the
    [range]. *)
Theorem MapHashMapToListReturnWithError_least_failing_key
    (source : gmap K V1) f :
  let keys := merge_sort (key_le Sprintf_v) (map_to_list source).*1 in
  let value key := default zero_V1 (source !! key) in
  (Forall (λ key, (f key (value key)).2 = None) keys ∧
   MapHashMapToListReturnWithError Sprintf_v zero_V1 range_order source f
   = Ok (Some ((λ key, (f key (value key)).1) <$> keys), None))
  ∨ (∃ pre key post cause,
       keys = pre ++ key :: post ∧
       Forall (λ key, (f key (value key)).2 = None) pre ∧
       (f key (value key)).2 = Some cause ∧
       MapHashMapToListReturnWithError Sprintf_v zero_V1 range_order source f
       = Ok (None, Some (errors.Wrap cause (key_message Sprintf_v key)))).
Proof.
  intros keys value. unfold MapHashMapToListReturnWithError.
  rewrite collect_keys, Sort_keys. cbn [mbind result_bind].
  unfold index_all. rewrite lookup_singleton_eq. cbn [mbind result_bind].
  destruct (MapHashMapToListReturnWithError_loop_cases source f keys [])
    as [(Hok & Heq)|(pre & k & post & c & Hsplit & Hok & Hf & Heq)].
  - left. split; [done|]. fold keys. by rewrite Heq.
  - right. exists pre, k, post, c. split_and!; try done.
    fold keys. by rewrite Heq.
Qed.

End sorted_keys_facts.

Lemma MapHashMapToList_one_element_per_entry_witness :
  ∃ l, MapHashMapToList Examples.Sprintf_pair 0 (reverse ∘ map_to_list)
         Examples.pair_map (λ key value, value)
       = Ok l ∧
       l ≡ₚ (λ kv, kv.2) <$> map_to_list Examples.pair_map ∧
       length l = size Examples.pair_map.
Proof.
  apply (MapHashMapToList_one_element_per_entry Examples.Sprintf_pair 0
           (reverse ∘ map_to_list)).
  intros m. apply reverse_Permutation.
Defined.

Lemma MapHashMapToListReturnWithError_least_failing_key_witness :
  let f := λ (key : string) (value : nat),
             (value, if (value <? 2)%nat then None
                     else Some (errors.New key)) in
  let keys := merge_sort (key_le Examples.Sprintf_string)
                (map_to_list Examples.fruit_map).*1 in
  let value key := default 0 (Examples.fruit_map !! key) in
  (Forall (λ key, (f key (value key)).2 = None) keys ∧
   MapHashMapToListReturnWithError Examples.Sprintf_string 0
     (reverse ∘ map_to_list) Examples.fruit_map f
   = Ok (Some ((λ key, (f key (value key)).1) <$> keys), None))
  ∨ (∃ pre key post cause,
       keys = pre ++ key :: post ∧
       Forall (λ key, (f key (value key)).2 = None) pre ∧
       (f key (value key)).2 = Some cause ∧
       MapHashMapToListReturnWithError Examples.Sprintf_string 0
         (reverse ∘ map_to_list) Examples.fruit_map f
       = Ok (None, Some (errors.Wrap cause
                           (key_message Examples.Sprintf_string key)))).
Proof.
  intros f.
  apply (MapHashMapToListReturnWithError_least_failing_key
           Examples.Sprintf_string 0 (reverse ∘ map_to_list)).
  - intros m. apply reverse_Permutation.
  - by intros k1 k2 ?.
Defined.

(** ** [GetField] along a path *)

Section Split_facts.

Lemma Split_nonempty (s : string) (sep : Ascii.ascii) :
  ∃ piece pieces, strings.Split s sep = piece :: pieces.
Proof.
  induction s as [|c s (piece & pieces & IH)]; cbn [strings.Split].
  - by eexists _, _.
  - destruct (Ascii.eqb c sep); [by eexists _, _|].
    rewrite IH. by eexists _, _.
Qed.

Lemma Split_single (name : string) :
  is_segment name = true → strings.Split name "."%char = [name].
Proof.
  induction name as [|c name IH]; [done|]. cbn [is_segment strings.Split].
  destruct (Ascii.eqb c "."%char); [done|]. cbn [negb andb].
  intros Hname. by rewrite IH.
Qed.

Lemma Split_segment (name rest : string) :
  is_segment name = true →
  strings.Split (name +:+ "." +:+ rest) "."%char
  = name :: strings.Split rest "."%char.
Proof.
  induction name as [|c name IH].
  - intros _. change ("" +:+ "." +:+ rest) with (String "."%char rest).
    done.
  - cbn [is_segment]. intros Hname.
    change (String c name +:+ "." +:+ rest)
      with (String c (name +:+ "." +:+ rest)).
    cbn [strings.Split].
    destruct (Ascii.eqb c "."%char); [done|]. by rewrite IH.
Qed.

End Split_facts.

Section GetField_paths.
Import reflect.

(** [GetField] along a path through a struct: resolving
    [name.rest] on a struct that has the field [name] is resolving
    [rest] on the value of that field, which is read-only when the
    struct is or when [name] is not exported; resolving a single
    segment is [FieldByName]. *)
Theorem GetField_struct_path
    (fields : list (string * GoValue)) (ro : bool) (name rest : string)
    (x : GoValue) :
  is_segment name = true →
  field_lookup name fields = Some x →
  GetField (mkValue (Some (VStruct fields)) ro) (name +:+ "." +:+ rest)
  = GetField (mkValue (Some x) (ro || negb (token.IsExported name))) rest ∧
  GetField (mkValue (Some (VStruct fields)) ro) name
  = Ok (mkValue (Some x) (ro || negb (token.IsExported name))).
Proof.
  intros Hname Hfield. split.
  - rewrite !GetField_unfold. unfold GetField_body.
    rewrite Split_segment by done.
    cbn [GetField_names Kind_of data mbind result_bind].
    unfold FieldByName. cbn [data flagRO]. by rewrite Hfield.
  - rewrite GetField_unfold. unfold GetField_body.
    rewrite Split_single by done.
    cbn [GetField_names Kind_of data mbind result_bind].
    unfold FieldByName. cbn [data flagRO]. by rewrite Hfield.
Qed.

(** On a slice [GetField] uses the first segment of the path only:
    whatever follows it, the result is that of the first segment. *)
Theorem GetField_slice_drops_rest
    (elems : list GoValue) (ro : bool) (name rest : string) :
  is_segment name = true →
  GetField (mkValue (Some (VSlice elems)) ro) (name +:+ "." +:+ rest)
  = GetField (mkValue (Some (VSlice elems)) ro) name.
Proof.
  intros Hname. rewrite !GetField_unfold. unfold GetField_body.
  rewrite (Split_segment name rest), (Split_single name) by done.
  by apply GetField_names_slice_rest.
Qed.

(** [GetField] looks through one pointer: on a pointer to a value that
    is not a pointer itself the result is that for the value. *)
Theorem GetField_through_pointer
    (s : GoValue) (ro : bool) (fieldName : string) :
  Kind_of (mkValue (Some s) ro) ≠ Ptr →
  GetField (mkValue (Some (VPtr (Some s))) ro) fieldName
  = GetField (mkValue (Some s) ro) fieldName.
Proof.
  intros Hkind. rewrite !GetField_unfold. unfold GetField_body.
  destruct (Split_nonempty fieldName "."%char) as (name & names & ->).
  cbn [GetField_names]. cbn [Kind_of data Elem flagRO mbind result_bind].
  by destruct s.
Qed.

(** [GetField] panics, for every path, on a value that is neither a
    struct nor a slice nor a pointer to one of these: on the zero
    [Value], on numbers, strings, booleans and interface values, on a
    nil pointer, and on a pointer to a pointer. *)
Theorem GetField_panics_off_structs (element : Value) (fieldName : string) :
  match data element with
  | Some (VStruct _) | Some (VSlice _)
  | Some (VPtr (Some (VStruct _))) | Some (VPtr (Some (VSlice _))) => True
  | _ => GetField element fieldName
         = Panic "reflect: call of reflect.Value.FieldByName on a non-struct Value"
  end.
Proof.
  destruct element as [[x|] ro]; cbn [data].
  - destruct x as [| | | |[y|]| |]; try done;
      try (rewrite GetField_unfold; unfold GetField_body;
           destruct (Split_nonempty fieldName "."%char) as (name & names & ->);
           done).
    destruct y; try done;
      rewrite GetField_unfold; unfold GetField_body;
      destruct (Split_nonempty fieldName "."%char) as (name & names & ->);
      done.
  - rewrite GetField_unfold. unfold GetField_body.
    by destruct (Split_nonempty fieldName "."%char) as (name & names & ->).
Qed.

End GetField_paths.

Section GetField_records.
Import reflect.





End GetField_records.



Lemma GetField_struct_path_witness :
  GetField (reflect.mkValue (Some Examples.order) false)
           ("Items" +:+ "." +:+ "Price")
  = GetField
      (reflect.mkValue
         (Some (reflect.VSlice [Examples.item "a" 5; Examples.item "b" 7]))
         (false || negb (token.IsExported "Items"))) "Price" ∧
  GetField (reflect.mkValue (Some Examples.order) false) "Items"
  = Ok (reflect.mkValue
          (Some (reflect.VSlice [Examples.item "a" 5; Examples.item "b" 7]))
          (false || negb (token.IsExported "Items"))).
Proof.
  apply (GetField_struct_path _ false "Items" "Price"); reflexivity.
Defined.

Lemma GetField_slice_drops_rest_witness :
  GetField
    (reflect.mkValue
       (Some (reflect.VSlice [Examples.item "a" 5; Examples.item "b" 7]))
       false) ("Price" +:+ "." +:+ "Amount")
  = GetField
      (reflect.mkValue
         (Some (reflect.VSlice [Examples.item "a" 5; Examples.item "b" 7]))
         false) "Price".
Proof. apply GetField_slice_drops_rest. reflexivity. Defined.

Lemma GetField_through_pointer_witness :
  GetField (reflect.mkValue
              (Some (reflect.VPtr (Some (Examples.person "Alice" 30))))
              false) "Age"
  = GetField (reflect.mkValue (Some (Examples.person "Alice" 30)) false)
             "Age".
Proof. apply GetField_through_pointer. discriminate. Defined.

(** ** [GroupBy] *)

Section GroupBy_facts.
Import reflect.
Context `{Countable K} {V : Type}.
Variable reflect_V : V → reflect.GoValue.
Variable assert_K : option reflect.GoValue → option K.

Lemma GroupBy_loop_app fieldName (pre rest : list V) (keys : list K) :
  Forall2 (resolves_to reflect_V assert_K fieldName) pre keys →
  ∀ acc, GroupBy_loop reflect_V assert_K fieldName (pre ++ rest) acc
         = GroupBy_loop reflect_V assert_K fieldName rest
             (group_into acc (zip keys pre)).
Proof.
  induction 1 as [|item key pre keys (fv & i & Hget & Hvalid & Hi & Hkey) _ IH];
    intros acc; [done|].
  cbn [app GroupBy_loop]. rewrite Hget. cbn [mbind result_bind].
  rewrite Hvalid. cbn [negb]. rewrite Hi. cbn [mbind result_bind].
  rewrite Hkey. by rewrite IH.
Qed.

(** When the path resolves to a key on every element, [GroupBy]
    returns a map whose keys are the keys met; each key holds the
    elements of the slice with that key, in the order of the slice, so
    no group is empty. *)
Theorem GroupBy_groups_in_order
    (slice : list V) (fieldName : string) (keys : list K) :
  Forall2 (resolves_to reflect_V assert_K fieldName) slice keys →
  ∃ m, GroupBy reflect_V assert_K slice fieldName = Ok (Some m, None) ∧
       (∀ key, is_Some (m !! key) ↔ key ∈ keys) ∧
       (∀ key group, m !! key = Some group →
          group = (filter (λ kv, kv.1 = key) (zip keys slice)).*2 ∧
          group ≠ []).
Proof.
  intros Hres. pose proof (Forall2_length _ _ _ Hres) as Hlen.
  unfold GroupBy. rewrite (GroupBy_loop_group _ _ _ _ _ Hres).
  eexists. split; [done|].
  set (kvs := zip keys slice).
  assert (kvs.*1 = keys) as Hkeys by (apply fst_zip; lia).
  assert (∀ k, group_into ∅ kvs !! k
               = match (filter (λ kv, kv.1 = k) kvs).*2 with
                 | [] => None | vs => Some vs end) as Hgrouped.
  { intros k. rewrite lookup_group_into, lookup_empty.
    by destruct ((filter (λ kv, kv.1 = k) kvs).*2). }
  split.
  - intros key. rewrite Hgrouped, <- Hkeys. split.
    + intros Hsome.
      destruct (filter (λ kv, kv.1 = key) kvs) as [|[k v] ?] eqn:Hf;
        [by destruct Hsome|].
      assert ((k, v) ∈ filter (λ kv, kv.1 = key) kvs) as Hin
        by (rewrite Hf; left).
      apply list_elem_of_filter in Hin as [Hk Hin]. cbn [fst] in Hk. subst k.
      apply list_elem_of_fmap. by exists (key, v).
    + intros Hin. apply list_elem_of_fmap in Hin as ([k v] & -> & Hin).
      assert ((k, v) ∈ filter (λ kv, kv.1 = (k, v).1) kvs) as Hin'
        by (by apply list_elem_of_filter).
      destruct (filter (λ kv, kv.1 = (k, v).1) kvs);
        [by apply elem_of_nil in Hin'|done].
  - intros key group. rewrite Hgrouped.
    destruct ((filter (λ kv, kv.1 = key) kvs).*2) eqn:Hf; [done|].
    by intros [= <-].
Qed.

(** The first element on which the path resolves to no field ends
    [GroupBy] with a nil map and the error that names the path; the
    elements after it are not looked at. *)
Theorem GroupBy_field_does_not_exist
    (pre post : list V) (item : V) (fieldName : string) (keys : list K)
    (fieldValue : Value) :
  Forall2 (resolves_to reflect_V assert_K fieldName) pre keys →
  GetField (ValueOf (Some (reflect_V item))) fieldName = Ok fieldValue →
  IsValid fieldValue = false →
  GroupBy reflect_V assert_K (pre ++ item :: post) fieldName
  = Ok (None, Some (errors.New ("groupBy: field " +:+ fieldName
                                  +:+ " does not exist"))).
Proof.
  intros Hpre Hget Hvalid. unfold GroupBy.
  rewrite (GroupBy_loop_app _ _ _ _ Hpre). cbn [GroupBy_loop].
  rewrite Hget. cbn [mbind result_bind]. by rewrite Hvalid.
Qed.

(** Grouping structs by a field that is not exported panics: the
    field is found, and boxing its value is refused. *)
Theorem GroupBy_unexported_field_panics
    (pre post : list V) (item : V) (name : string) (keys : list K)
    (fields : list (string * GoValue)) (x : GoValue) :
  Forall2 (resolves_to reflect_V assert_K name) pre keys →
  is_segment name = true →
  token.IsExported name = false →
  reflect_V item = VStruct fields →
  field_lookup name fields = Some x →
  GroupBy reflect_V assert_K (pre ++ item :: post) name
  = Panic "reflect.Value.Interface: cannot return value obtained from unexported field or method".
Proof.
  intros Hpre Hname Hexported Hitem Hfield. unfold GroupBy.
  rewrite (GroupBy_loop_app _ _ _ _ Hpre). cbn [GroupBy_loop].
  rewrite Hitem, GetField_unfold. unfold GetField_body.
  rewrite Split_single by done.
  cbn [GetField_names Kind_of ValueOf data mbind result_bind].
  unfold FieldByName, ValueOf. cbn [data flagRO].
  rewrite Hfield, Hexported. done.
Qed.

End GroupBy_facts.

Lemma GroupBy_groups_in_order_witness :
  ∃ m, GroupBy id Examples.assert_int Examples.people_shared_age "Age"
       = Ok (Some m, None) ∧
       (∀ key, is_Some (m !! key) ↔ key ∈ [30; 30; 25]%Z) ∧
       (∀ key group, m !! key = Some group →
          group = (filter (λ kv, kv.1 = key)
                     (zip [30; 30; 25]%Z Examples.people_shared_age)).*2 ∧
          group ≠ []).
Proof.
  apply (GroupBy_groups_in_order id Examples.assert_int).
  repeat constructor; eexists _, _; repeat split; vm_compute; reflexivity.
Defined.

Lemma GroupBy_field_does_not_exist_witness :
  GroupBy id Examples.assert_int
    ([] ++ Examples.person "Alice" 30
        :: [Examples.person "Bob" 30; Examples.person "Charlie" 25])
    "Salary"
  = Ok (None, Some (errors.New ("groupBy: field " +:+ "Salary"
                                  +:+ " does not exist"))).
Proof.
  apply (GroupBy_field_does_not_exist id Examples.assert_int
           [] [Examples.person "Bob" 30; Examples.person "Charlie" 25]
           (Examples.person "Alice" 30) "Salary" [] reflect.zero).
  - constructor.
  - vm_compute. reflexivity.
  - reflexivity.
Defined.

Lemma GroupBy_unexported_field_panics_witness :
  GroupBy id Examples.assert_int
    ([] ++ reflect.VStruct [("age", reflect.VInt 30)] :: []) "age"
  = Panic "reflect.Value.Interface: cannot return value obtained from unexported field or method".
Proof.
  apply (GroupBy_unexported_field_panics id Examples.assert_int
           [] [] _ "age" [] [("age", reflect.VInt 30)] (reflect.VInt 30)).
  - constructor.
  - reflexivity.
  - reflexivity.
  - reflexivity.
  - reflexivity.
Defined.

(** ** [Sort] with a comparison that is not an order

    Whatever the comparison of two elements answers, [sort.Slice]
    stays within the slice and only exchanges elements. *)

Section pdq_any_comparator.
Context {T : Type} `{!Inhabited T}.
Variable lt : T → T → bool.
Variable x : nat.
Variable h0 : gmap nat (list T).

Local Abbreviation D := (sort.mkLessSwap (less_by lt x) (Swapper x)).
Local Abbreviation st l := (<[x := l]> h0).

Implicit Types (l : list T) (a b i j k : nat).

Lemma foldlM_rearranges {B}
    (f : gmap nat (list T) → B → result (gmap nat (list T)))
    (ys : list B) (n : nat) :
  (∀ y l, y ∈ ys → length l = n →
          ∃ l', f (st l) y = Ok (st l') ∧ l' ≡ₚ l) →
  ∀ l, length l = n → ∃ l', foldlM f (st l) ys = Ok (st l') ∧ l' ≡ₚ l.
Proof.
  induction ys as [|y ys IH]; intros Hf l Hl.
  - by exists l.
  - destruct (Hf y l) as (l1 & Hl1 & Hp1); [left|done|].
    destruct (IH (λ y' l' Hy', Hf y' l' (list_elem_of_further _ _ _ Hy')) l1)
      as (l2 & Hl2 & Hp2).
    { by rewrite Hp1. }
    exists l2. cbn [foldlM]. rewrite Hl1. cbn [mbind result_bind].
    split; [done|]. by rewrite Hp2.
Qed.

Lemma insertionSort_inner_rearranges a j : ∀ l,
  j < length l →
  ∃ l', sort.insertionSort_inner D a j (st l) = Ok (st l') ∧ l' ≡ₚ l.
Proof.
  induction j as [|j IH]; intros l Hj; [by exists l|].
  cbn [sort.insertionSort_inner].
  destruct (a <? S j)%nat; [|by exists l].
  rewrite (Less_st lt x h0) by lia. cbn [mbind result_bind].
  destruct (lt (l !!! S j) (l !!! j)); [|by exists l].
  rewrite (Swap_st lt x h0) by lia. cbn [mbind result_bind].
  destruct (IH (swapl (S j) j l)) as (l' & -> & Hp).
  { rewrite swapl_length. lia. }
  exists l'. split; [done|]. rewrite Hp. apply swapl_perm; lia.
Qed.

Lemma insertionSortLessFunc_rearranges a b l :
  b ≤ length l →
  ∃ l', sort.insertionSortLessFunc D a b (st l) = Ok (st l') ∧ l' ≡ₚ l.
Proof.
  intros Hb. unfold sort.insertionSortLessFunc.
  apply (foldlM_rearranges _ _ (length l)); [|done].
  intros i l1 Hi%elem_of_seq Hl1.
  apply insertionSort_inner_rearranges. lia.
Qed.

Lemma siftDownLessFunc_rearranges first hi fuel : ∀ root l,
  first + hi ≤ length l → hi - root < fuel →
  ∃ l', sort.siftDownLessFunc D fuel root hi first (st l) = Ok (st l') ∧
        l' ≡ₚ l.
Proof.
  induction fuel as [|fuel IH]; intros root l Hlen Hfuel; [lia|].
  cbn [sort.siftDownLessFunc]. cbn zeta.
  destruct (hi <=? 2 * root + 1)%nat eqn:Hleaf; [by exists l|].
  apply Nat.leb_gt in Hleaf.
  assert (∃ child,
    (if (2 * root + 1 + 1 <? hi)%nat
     then lt' ← sort.Less D (first + (2 * root + 1))
                            (first + (2 * root + 1) + 1) (st l);
          Ok (if lt' : bool then 2 * root + 1 + 1 else 2 * root + 1)
     else Ok (2 * root + 1)) = Ok child ∧
    root < child ∧ child < hi) as (child & -> & Hchild & Hchildhi).
  { destruct (2 * root + 1 + 1 <? hi)%nat eqn:Htwo.
    - apply Nat.ltb_lt in Htwo.
      rewrite (Less_st lt x h0) by lia. cbn [mbind result_bind].
      destruct (lt _ _); eexists; (split; [done|lia]).
    - eexists. split; [done|lia]. }
  cbn [mbind result_bind].
  rewrite (Less_st lt x h0) by lia. cbn [mbind result_bind].
  destruct (lt (l !!! (first + root)) (l !!! (first + child)));
    cbn [negb]; [|by exists l].
  rewrite (Swap_st lt x h0) by lia. cbn [mbind result_bind].
  destruct (IH child (swapl (first + root) (first + child) l))
    as (l' & -> & Hp).
  { rewrite swapl_length. lia. }
  { lia. }
  exists l'. split; [done|]. rewrite Hp. apply swapl_perm; lia.
Qed.

Lemma heapSortLessFunc_rearranges a b l :
  a ≤ b → b ≤ length l →
  ∃ l', sort.heapSortLessFunc D a b (st l) = Ok (st l') ∧ l' ≡ₚ l.
Proof.
  intros Hab Hb. unfold sort.heapSortLessFunc. cbn zeta.
  destruct (foldlM_rearranges
              (λ σ i, sort.siftDownLessFunc D (S (b - a)) i (b - a) a σ)
              (reverse (seq 0 ((b - a - 1) / 2 + 1))) (length l))
    with (l := l) as (l1 & -> & Hp1); [|done|].
  { intros i l1 _ Hl1. apply siftDownLessFunc_rearranges; lia. }
  cbn [mbind result_bind].
  destruct (foldlM_rearranges
              (λ σ i, σ ← sort.Swap D a (a + i) σ;
                      sort.siftDownLessFunc D (S (b - a)) 0 i a σ)
              (reverse (seq 0 (b - a))) (length l))
    with (l := l1) as (l2 & -> & Hp2).
  - intros i l2 Hi Hl2. rewrite elem_of_reverse, elem_of_seq in Hi.
    rewrite (Swap_st lt x h0) by lia. cbn [mbind result_bind].
    destruct (siftDownLessFunc_rearranges a i (S (b - a)) 0
                (swapl a (a + i) l2)) as (l3 & -> & Hp3).
    { rewrite swapl_length. lia. }
    { lia. }
    exists l3. split; [done|]. rewrite Hp3. apply swapl_perm; lia.
  - by rewrite Hp1.
  - exists l2. split; [done|]. by rewrite Hp2.
Qed.

Lemma partitionEqualLessFunc_rearranges a b pivot l :
  a ≤ pivot → pivot < b → b ≤ length l →
  ∃ mid l',
    sort.partitionEqualLessFunc D a b pivot (st l) = Ok (mid, st l') ∧
    l' ≡ₚ l ∧ a < mid ∧ mid ≤ b.
Proof.
  intros Hap Hpb Hb. unfold sort.partitionEqualLessFunc.
  rewrite (Swap_st lt x h0) by lia. cbn [mbind result_bind].
  destruct (partitionEqual_loop_spec lt x h0 (S b) a b (a + 1) (b - 1)
              (swapl a pivot l))
    as (mid & l' & -> & Hperm & Hmid1 & Hmid2 & _).
  - rewrite swapl_length. lia.
  - lia.
  - lia.
  - lia.
  - lia.
  - intros k ? ?. lia.
  - intros k ? ?. lia.
  - exists mid, l'. split_and!; [done| |done..].
    trans (swapl a pivot l); [|apply swapl_perm; lia].
    apply (perm_in_perm (a + 1) b); [lia|done].
Qed.

Lemma partialInsertionSort_loop_rearranges a b steps : ∀ i l,
  1 ≤ i → i ≤ b → b ≤ length l →
  ∃ sorted l',
    sort.partialInsertionSort_loop D steps a b i (st l) = Ok (sorted, st l') ∧
    l' ≡ₚ l.
Proof.
  induction steps as [|steps IH]; intros i l Hi Hib Hb; [by exists false, l|].
  cbn [sort.partialInsertionSort_loop]. cbn zeta.
  destruct (scan_sorted_spec lt x h0 (S b) b i l)
    as (i' & -> & Hi1 & Hi2 & _); [lia..|].
  cbn [mbind result_bind].
  destruct (i' =? b)%nat eqn:Hend; [by exists true, l|].
  apply Nat.eqb_neq in Hend.
  destruct (b - a <? 50)%nat; [by exists false, l|].
  rewrite (Swap_st lt x h0) by lia. cbn [mbind result_bind].
  set (l1 := swapl i' (i' - 1) l).
  assert (l1 ≡ₚ l) as Hp1 by (apply swapl_perm; lia).
  assert (∃ l2,
    (if (2 <=? i' - a)%nat then sort.shift_left D (i' - 1) (st l1)
     else Ok (st l1)) = Ok (st l2) ∧ l2 ≡ₚ l1) as (l2 & -> & Hp2).
  { destruct (2 <=? i' - a)%nat; [|by exists l1].
    rewrite shift_left_inner. apply insertionSort_inner_rearranges.
    rewrite (Permutation_length Hp1). lia. }
  cbn [mbind result_bind].
  assert (∃ l3,
    (if (2 <=? b - i')%nat
     then sort.shift_right D (b - (i' + 1)) (i' + 1) (st l2)
     else Ok (st l2)) = Ok (st l3) ∧ l3 ≡ₚ l2) as (l3 & -> & Hp3).
  { destruct (2 <=? b - i')%nat; [|by exists l2].
    destruct (shift_right_spec lt x h0 (b - (i' + 1)) (i' + 1) l2)
      as (l3 & -> & Hperm); [lia| |].
    { rewrite (Permutation_length Hp2), (Permutation_length Hp1). lia. }
    exists l3. split; [done|].
    apply (perm_in_perm (i' + 1 - 1) (i' + 1 + (b - (i' + 1)))); [lia|done]. }
  cbn [mbind result_bind].
  destruct (IH i' l3) as (sorted & l' & -> & Hp); [lia|lia| |].
  { rewrite (Permutation_length Hp3), (Permutation_length Hp2),
      (Permutation_length Hp1). lia. }
  exists sorted, l'. split; [done|]. by rewrite Hp, Hp3, Hp2.
Qed.

Lemma pdqsort_loop_rearranges fuel :
  ∀ a b limit wasBalanced wasPartitioned l,
  a ≤ b → b ≤ length l → b - a < fuel →
  ∃ l', sort.pdqsort_loop D fuel a b limit wasBalanced wasPartitioned (st l)
        = Ok (st l') ∧ l' ≡ₚ l.
Proof.
  induction fuel as [|fuel IH];
    intros a b limit wasBalanced wasPartitioned l Hab Hb Hfuel; [lia|].
  cbn [sort.pdqsort_loop]. cbn zeta.
  destruct (b - a <=? 12)%nat eqn:Hsmall.
  { by apply insertionSortLessFunc_rearranges. }
  apply Nat.leb_gt in Hsmall.
  destruct (limit =? 0)%nat.
  { by apply heapSortLessFunc_rearranges. }
  assert (∃ limit1 l1,
    (if negb wasBalanced
     then sort.breakPatternsLessFunc D a b (st l)
          ≫= λ σ, Ok (limit - 1, σ)
     else Ok (limit, st l)) = Ok (limit1, st l1) ∧ l1 ≡ₚ l)
    as (limit1 & l1 & -> & Hp1).
  { destruct (negb wasBalanced).
    - destruct (breakPatternsLessFunc_spec lt x h0 a b l)
        as (l1 & -> & Hperm1); [lia..|].
      exists (limit - 1), l1. split; [done|].
      apply (perm_in_perm a b); [lia|done].
    - by exists limit, l. }
  cbn [mbind result_bind].
  pose proof (Permutation_length Hp1) as Hlen1.
  destruct (choosePivotLessFunc_spec lt x h0 a b l1)
    as (pivot & hint & -> & Hpivot1 & Hpivot2); [lia..|].
  cbn [mbind result_bind].
  assert (∃ pivot2 hint2 l2,
    match hint with
    | sort.decreasingHint =>
        sort.reverseRangeLessFunc D a b (st l1)
        ≫= λ σ0, Ok (b - 1 - (pivot - a), sort.increasingHint, σ0)
    | _ => Ok (pivot, hint, st l1)
    end = Ok (pivot2, hint2, st l2) ∧
    l2 ≡ₚ l1 ∧ a ≤ pivot2 ∧ pivot2 < b)
    as (pivot2 & hint2 & l2 & -> & Hp2 & Hpivot3 & Hpivot4).
  { destruct hint.
    - by exists pivot, sort.unknownHint, l1.
    - by exists pivot, sort.increasingHint, l1.
    - destruct (reverseRangeLessFunc_spec lt x h0 a b l1)
        as (l2 & -> & Hperm2); [lia..|].
      exists (b - 1 - (pivot - a)), sort.increasingHint, l2.
      split_and!; [done| |lia|lia].
      apply (perm_in_perm a b); [lia|done]. }
  cbn [mbind result_bind].
  pose proof (Permutation_length Hp2) as Hlen2.
  assert (∃ sorted l3,
    (if wasBalanced && wasPartitioned
     then match hint2 with
          | sort.increasingHint =>
              sort.partialInsertionSortLessFunc D a b (st l2)
          | _ => Ok (false, st l2)
          end
     else Ok (false, st l2)) = Ok (sorted, st l3) ∧ l3 ≡ₚ l2)
    as (sorted & l3 & -> & Hp3).
  { destruct (wasBalanced && wasPartitioned); [|by exists false, l2].
    destruct hint2; [by exists false, l2| |by exists false, l2].
    apply partialInsertionSort_loop_rearranges; lia. }
  cbn [mbind result_bind].
  pose proof (Permutation_length Hp3) as Hlen3.
  assert (l3 ≡ₚ l) as Hp13 by (by rewrite Hp3, Hp2).
  destruct sorted; [by exists l3|].
  assert (∃ equal,
    (if (0 <? a)%nat
     then sort.Less D (a - 1) pivot2 (st l3) ≫= λ lt0, Ok (negb lt0)
     else Ok false) = Ok equal) as (equal & ->).
  { destruct (0 <? a)%nat eqn:Ha; [|by exists false].
    apply Nat.ltb_lt in Ha.
    rewrite (Less_st lt x h0) by lia. by eexists. }
  cbn [mbind result_bind].
  destruct equal.
  - destruct (partitionEqualLessFunc_rearranges a b pivot2 l3)
      as (mid & l4 & -> & Hp4 & Hmid1 & Hmid2); [lia..|].
    cbn [mbind result_bind].
    destruct (IH mid b limit1 wasBalanced wasPartitioned l4)
      as (l5 & -> & Hp5); [lia| |lia|].
    { rewrite (Permutation_length Hp4). lia. }
    exists l5. split; [done|]. by rewrite Hp5, Hp4.
  - destruct (partitionLessFunc_spec lt x h0 a b pivot2 l3)
      as (mid & alreadyPartitioned & l4 & -> & Hperm4 & Hmid1 & Hmid2 & _);
      [lia..|].
    cbn [mbind result_bind].
    assert (l4 ≡ₚ l3) as Hp4 by (apply (perm_in_perm a b); [lia|done]).
    pose proof (Permutation_length Hp4) as Hlen4.
    destruct (mid - a <? b - mid)%nat.
    + destruct (IH a mid limit1 true true l4) as (l5 & -> & Hp5); [lia..|].
      cbn [mbind result_bind].
      destruct (IH (mid + 1) b limit1
                  ((b - a) `div` 8 <=? mid - a)%nat alreadyPartitioned l5)
        as (l6 & -> & Hp6); [lia| |lia|].
      { rewrite (Permutation_length Hp5). lia. }
      exists l6. split; [done|]. by rewrite Hp6, Hp5, Hp4.
    + destruct (IH (mid + 1) b limit1 true true l4) as (l5 & -> & Hp5);
        [lia..|].
      cbn [mbind result_bind].
      destruct (IH a mid limit1
                  ((b - a) `div` 8 <=? b - mid)%nat alreadyPartitioned l5)
        as (l6 & -> & Hp6); [lia| |lia|].
      { rewrite (Permutation_length Hp5). lia. }
      exists l6. split; [done|]. by rewrite Hp6, Hp5, Hp4.
Qed.

End pdq_any_comparator.

Section sort_any_comparator.
Context {T : Type}.

(** [Sort] of a slice [x] with the closure
    [func(i, j int) bool { return lt(x[i], x[j]) }] returns for every
    function [lt] of two elements, even one that is not an order: it
    does not panic, the slice it returns is the one it was given,
    holding a rearrangement of its elements, and the other slices in
    memory are as before. *)
Theorem Sort_rearranges (lt : T → T → bool)
    (x : nat) (h : gmap nat (list T)) (l : list T) :
  h !! x = Some l →
  ∃ l', Sort x (less_by lt x) h = Ok (x, <[x := l']> h) ∧ l' ≡ₚ l.
Proof.
  intros Hx. destruct l as [|v l0] eqn:Hl.
  { exists []. split; [|done].
    by rewrite (Sort_insertion lt x h []) by (done || cbn; lia). }
  rewrite <- Hl in *. clear Hl l0.
  pose (populate v : Inhabited T) as HT.
  unfold Sort, sort_Slice, Len. rewrite Hx.
  cbn [mbind result_bind]. unfold sort.pdqsortLessFunc.
  destruct (pdqsort_loop_rearranges lt x h (S (length l - 0)) 0 (length l)
              (sort.bits_Len (length l)) true true l)
    as (l' & Hrun & Hperm); [lia..|].
  rewrite (insert_id h x l Hx) in Hrun. rewrite Hrun.
  cbn [mbind result_bind]. by exists l'.
Qed.

End sort_any_comparator.

(** Twenty elements and a comparison that always answers [true]: the
    walk goes through [breakPatternsLessFunc]. *)
Example Sort_twenty_always_less :
  ('(y, h') ← Sort 0 (less_by (λ _ _ : nat, true) 0) {[0 := seq 0 20]};
   index_all y h')
  = Ok [6; 0; 4; 16; 12; 3; 17; 1; 9; 15; 14; 7; 5; 13; 8; 18; 2; 11; 19; 10].
Proof. vm_compute. reflexivity. Qed.

Lemma Sort_rearranges_witness :
  ∃ l', Sort 0 (less_by (λ _ _ : nat, true) 0) {[0 := [3; 1; 2]]}
        = Ok (0, <[0 := l']> {[0 := [3; 1; 2]]}) ∧ l' ≡ₚ [3; 1; 2].
Proof. apply (Sort_rearranges (λ _ _ : nat, true)). reflexivity. Defined.
